(** * Conflict parser and merge resolver of the lingo.dev CLI

    A shallow embedding of
      packages/cli/src/cli/utils/conflict-parser.ts
      packages/cli/src/cli/utils/merge-resolver.ts
    in their current revision: [hasConflictMarkers] matches whole lines and
    counts them, the smart resolvers go through [deepMerge], and
    [resolveFile] refuses files above a size limit. With them come the
    [merge-resolve] command that calls them, and the detector of the
    revision that looks for the markers anywhere in the text.

    Conventions.
    - A JavaScript string is a [string], a sequence of 8-bit characters. The
      white space class is the part of the ECMAScript one that these
      characters have (TAB, LF, VT, FF, CR, SPACE, NO-BREAK SPACE); the line
      terminators that [.] refuses are LF and CR.
    - A regular expression of the source is a term of [regex], run by a
      backtracking matcher with the priorities of ECMAScript: left
      alternative first, greedy repetition, leftmost match.
    - The index [-1] that the source uses for "not found" is [None].
    - A JavaScript exception is a [Throw] result and [try]/[catch] is a
      match on it.
    - An object is the list of its own properties. The object that the
      line-by-line reader fills carries its prototype besides. The merge
      and its callbacks read and write own properties, which is what the
      source does for a property name that is own or ordinary (not one of
      those every object inherits from [Object.prototype]); the theorems
      that depend on it ask for ordinary names.
    - [JSON.parse], [JSON.stringify] and the conversion of a string to a
      number belong to the platform: the resolver takes them from a
      [JsRuntime], and its theorems hold for every runtime.
    - The disk is a [FileSystem] that [resolveFile] takes and returns.
    - [glob] and [randomUUID] belong to the platform as well: the command
      takes them as parameters, and what it prints is a list of
      [Output]. *)

From Stdlib Require Import String Ascii List Bool Arith NArith ZArith Lia Sorted.
From Stdlib Require Import DecimalString.
Import ListNotations.
Open Scope string_scope.
Open Scope list_scope.
Open Scope nat_scope.

(** String concatenation, [+] on JavaScript strings. *)
Infix "+++" := String.append (right associativity, at level 60).

(** ** Characters and strings of the JavaScript runtime *)

Module JsString.

Definition LF : ascii := ascii_of_nat 10.
Definition CR : ascii := ascii_of_nat 13.

Definition str1 (c : ascii) : string := String c EmptyString.

(** ECMAScript [WhiteSpace] and [LineTerminator] among the 8-bit
    characters: TAB, LF, VT, FF, CR, SPACE and the no-break space. *)
Definition is_space (c : ascii) : bool :=
  let n := nat_of_ascii c in
  ((9 <=? n) && (n <=? 13)) || (n =? 32) || (n =? 160).

(** What [.] refuses. *)
Definition is_line_terminator (c : ascii) : bool :=
  Ascii.eqb c LF || Ascii.eqb c CR.

(** [\w] *)
Definition is_word (c : ascii) : bool :=
  let n := nat_of_ascii c in
  ((48 <=? n) && (n <=? 57)) || ((65 <=? n) && (n <=? 90))
  || ((97 <=? n) && (n <=? 122)) || (n =? 95).

Fixpoint trimStart (s : string) : string :=
  match s with
  | String c s' => if is_space c then trimStart s' else s
  | EmptyString => EmptyString
  end.

(** [trimEnd] keeps a character when it is not a space or when something
    that is kept follows it. *)
Fixpoint trimEnd (s : string) : string :=
  match s with
  | String c s' =>
      match trimEnd s' with
      | EmptyString => if is_space c then EmptyString else str1 c
      | t => String c t
      end
  | EmptyString => EmptyString
  end.

Definition trim (s : string) : string := trimEnd (trimStart s).

Definition startsWith (p s : string) : bool := String.prefix p s.

Fixpoint includes (p s : string) : bool :=
  String.prefix p s
  || match s with String _ s' => includes p s' | EmptyString => false end.

Definition endsWith (p s : string) : bool :=
  (String.length p <=? String.length s)
  && String.eqb (substring (String.length s - String.length p)
                           (String.length p) s) p.

(** [Array.prototype.join] *)
Definition join (sep : string) (l : list string) : string :=
  String.concat sep l.

(** [Array.prototype.slice (a, b)] for [0 <= a] and [0 <= b]: the elements
    of index [a <= i < b]; empty when [b <= a]. *)
Definition slice {A} (l : list A) (a b : nat) : list A :=
  firstn (b - a) (skipn a l).

(** [Array.prototype.splice (start, count, ...items)], as a value. *)
Definition splice {A} (l : list A) (start count : nat) (items : list A)
  : list A :=
  firstn start l ++ items ++ skipn (start + count) l.

(** [String.prototype.split (/\r?\n/)]: a separator is CR LF or LF alone; a
    CR that no LF follows stays in its line. *)
Fixpoint split_lines_aux (s : string) (cur : string) : list string :=
  match s with
  | EmptyString => [cur]
  | String c s' =>
      if Ascii.eqb c LF then cur :: split_lines_aux s' EmptyString
      else if Ascii.eqb c CR then
        match s' with
        | String c' s'' =>
            if Ascii.eqb c' LF then cur :: split_lines_aux s'' EmptyString
            else split_lines_aux s' (cur +++ str1 c)
        | EmptyString => split_lines_aux s' (cur +++ str1 c)
        end
      else split_lines_aux s' (cur +++ str1 c)
  end.

Definition split_lines (s : string) : list string :=
  split_lines_aux s EmptyString.

(** [String.prototype.split ("\n")] and [split (/\n/)]. *)
Fixpoint split_lf_aux (s : string) (cur : string) : list string :=
  match s with
  | EmptyString => [cur]
  | String c s' =>
      if Ascii.eqb c LF then cur :: split_lf_aux s' EmptyString
      else split_lf_aux s' (cur +++ str1 c)
  end.

Definition split_lf (s : string) : list string := split_lf_aux s EmptyString.

End JsString.
Import JsString.

(** ** Regular expressions *)

Module Regex.

Inductive regex : Type :=
| Eps : regex
| Chr : ascii -> regex
| Cls : (ascii -> bool) -> regex
| Seq : regex -> regex -> regex
| Alt : regex -> regex -> regex
| Star : regex -> regex
| Grp : nat -> regex -> regex
| Bol : regex
| Eol : regex.

Definition Plus (r : regex) : regex := Seq r (Star r).
Definition Opt (r : regex) : regex := Alt r Eps.

Fixpoint Rep (n : nat) (r : regex) : regex :=
  match n with
  | 0 => Eps
  | S n' => Seq r (Rep n' r)
  end.

Fixpoint Lit (s : string) : regex :=
  match s with
  | EmptyString => Eps
  | String c s' => Seq (Chr c) (Lit s')
  end.

(** [.], [\s], [\w] and a negated one-character class. *)
Definition Dot : regex := Cls (fun c => negb (is_line_terminator c)).
Definition Space : regex := Cls is_space.
Definition Word : regex := Cls is_word.
Definition NotChr (c : ascii) : regex := Cls (fun d => negb (Ascii.eqb d c)).

(** The matcher state: the index reached in the input, what is left of the
    input, and the captures made so far. *)
Record mstate : Type := MState {
  pos : nat;
  rest : string;
  caps : list (nat * string)
}.

Definition advance (st : mstate) (s' : string) : mstate :=
  {| pos := S (pos st); rest := s'; caps := caps st |}.

Definition capture (i : nat) (from to : mstate) : mstate :=
  {| pos := pos to; rest := rest to;
     caps := (i, substring 0 (pos to - pos from) (rest from)) :: caps to |}.

Section Matcher.
Variable A : Type.

(** The greedy repetition of [step], with the continuation [k]: one more
    turn is tried first, and a turn that consumes nothing is refused, as in
    ECMAScript. [n] bounds the turns left; the length of the input that is
    left is enough. *)
Fixpoint star_loop (step : mstate -> (mstate -> option A) -> option A)
                   (k : mstate -> option A) (n : nat) (st : mstate)
  : option A :=
  match n with
  | 0 => k st
  | S n' =>
      match step st (fun st' => if pos st <? pos st'
                                then star_loop step k n' st'
                                else None) with
      | Some x => Some x
      | None => k st
      end
  end.

(** [rmatch r st k]: match [r] at [st] and hand the state reached to the
    continuation [k]; when [k] refuses, backtrack into [r]. *)
Fixpoint rmatch (r : regex) (st : mstate) (k : mstate -> option A)
  : option A :=
  match r with
  | Eps => k st
  | Chr c =>
      match rest st with
      | String d s' => if Ascii.eqb d c then k (advance st s') else None
      | EmptyString => None
      end
  | Cls p =>
      match rest st with
      | String d s' => if p d then k (advance st s') else None
      | EmptyString => None
      end
  | Seq r1 r2 => rmatch r1 st (fun st' => rmatch r2 st' k)
  | Alt r1 r2 =>
      match rmatch r1 st k with
      | Some x => Some x
      | None => rmatch r2 st k
      end
  | Star r' => star_loop (rmatch r') k (String.length (rest st)) st
  | Grp i r' => rmatch r' st (fun st' => k (capture i st st'))
  | Bol => if pos st =? 0 then k st else None
  | Eol => match rest st with EmptyString => k st | _ => None end
  end.

(** Leftmost match: try every start index from [p] on. *)
Fixpoint search (r : regex) (p : nat) (s : string)
                (k : nat -> mstate -> option A) : option A :=
  match rmatch r {| pos := p; rest := s; caps := [] |} (k p) with
  | Some x => Some x
  | None =>
      match s with
      | String _ s' => search r (S p) s' k
      | EmptyString => None
      end
  end.
End Matcher.

Arguments star_loop {A} step k n st.
Arguments rmatch {A} r st k.
Arguments search {A} r p s k.

(** [RegExp.prototype.exec]: start index and final state of the leftmost
    match. *)
Definition exec (r : regex) (s : string) : option (nat * mstate) :=
  search r 0 s (fun p st => Some (p, st)).

(** [RegExp.prototype.test] *)
Definition test (r : regex) (s : string) : bool :=
  match exec r s with Some _ => true | None => false end.

(** The text of capture group [i], the empty string when it did not take
    part in the match. *)
Fixpoint group (i : nat) (cs : list (nat * string)) : string :=
  match cs with
  | [] => EmptyString
  | (j, s) :: cs' => if i =? j then s else group i cs'
  end.

(** [String.prototype.replace (r, ...)] with the [g] flag: every match,
    left to right, is replaced by [repl captures]; after an empty match one
    character is copied. [from] is the index of [s] in the whole input. *)
Fixpoint replace_from (fuel : nat) (r : regex) (repl : list (nat * string) -> string)
                      (from : nat) (s : string) : string :=
  match fuel with
  | 0 => s
  | S fuel' =>
      match search r from s (fun p st => Some (p, st)) with
      | None => s
      | Some (p, st) =>
          let before := substring 0 (p - from) s in
          let out := before +++ repl (caps st) in
          if pos st =? p then
            match rest st with
            | String c s' =>
                out +++ str1 c +++ replace_from fuel' r repl (S (pos st)) s'
            | EmptyString => out
            end
          else out +++ replace_from fuel' r repl (pos st) (rest st)
      end
  end.

Definition replace_all (r : regex) (repl : list (nat * string) -> string)
                       (s : string) : string :=
  replace_from (S (String.length s)) r repl 0 s.

(** [String.prototype.replace (r, ...)] without the [g] flag: the first
    match only. *)
Definition replace_first (r : regex) (repl : list (nat * string) -> string)
                         (s : string) : string :=
  match exec r s with
  | None => s
  | Some (p, st) => substring 0 p s +++ repl (caps st) +++ rest st
  end.

End Regex.
Import Regex.

(** ** conflict-parser.ts *)

Record ConflictSection : Type := {
  ours : string;
  theirs : string;
  base : option string;
  startLine : nat;
  endLine : nat
}.

Module ConflictParser.

(** [/^<{7} (.+)$/] *)
Definition CONFLICT_START : regex :=
  Seq Bol (Seq (Rep 7 (Chr "<")) (Seq (Chr " ") (Seq (Grp 1 (Plus Dot)) Eol))).
(** [/^={7}$/] *)
Definition CONFLICT_MIDDLE : regex :=
  Seq Bol (Seq (Rep 7 (Chr "=")) Eol).
(** [/^\|{7} (.+)$/] *)
Definition CONFLICT_BASE : regex :=
  Seq Bol (Seq (Rep 7 (Chr "|")) (Seq (Chr " ") (Seq (Grp 1 (Plus Dot)) Eol))).
(** [/^>{7} (.+)$/] *)
Definition CONFLICT_END : regex :=
  Seq Bol (Seq (Rep 7 (Chr ">")) (Seq (Chr " ") (Seq (Grp 1 (Plus Dot)) Eol))).

(** The loop of [hasConflictMarkers]; the state is
    [(hasStart, hasMiddle, hasEnd, startCount, endCount)]. *)
Definition markers_step (st : bool * bool * bool * nat * nat) (line : string)
  : bool * bool * bool * nat * nat :=
  let '(hasStart, hasMiddle, hasEnd, startCount, endCount) := st in
  if test CONFLICT_START line then
    (true, hasMiddle, hasEnd, S startCount, endCount)
  else if test CONFLICT_MIDDLE line then
    (hasStart, true, hasEnd, startCount, endCount)
  else if test CONFLICT_END line then
    (hasStart, hasMiddle, true, startCount, S endCount)
  else st.

Definition hasConflictMarkers (content : string) : bool :=
  let lines := split_lines content in
  let '(hasStart, hasMiddle, hasEnd, startCount, endCount) :=
    fold_left markers_step lines (false, false, false, 0, 0) in
  hasStart && hasMiddle && hasEnd && (startCount =? endCount).

(** The [for] loop of [parseConflictSection], from index [i] on, over the
    lines [ls] that are left; the result is
    [(middleIndex, baseIndex, endIndex)]. *)
Fixpoint scan (ls : list string) (i : nat) (middleIndex baseIndex : option nat)
  : option nat * option nat * option nat :=
  match ls with
  | [] => (middleIndex, baseIndex, None)
  | l :: ls' =>
      if test CONFLICT_MIDDLE l
         && match middleIndex with None => true | Some _ => false end
      then scan ls' (S i) (Some i) baseIndex
      else if test CONFLICT_BASE l
              && match baseIndex with None => true | Some _ => false end
      then scan ls' (S i) middleIndex (Some i)
      else if test CONFLICT_END l then (middleIndex, baseIndex, Some i)
      else scan ls' (S i) middleIndex baseIndex
  end.

Definition parseConflictSection (lines : list string) (startIndex : nat)
  : option ConflictSection :=
  match scan (skipn (startIndex + 1) lines) (startIndex + 1) None None with
  | (Some middleIndex, baseIndex, Some endIndex) =>
      let oursEnd :=
        match baseIndex with Some b => b | None => middleIndex end in
      let theirsStart := middleIndex + 1 in
      Some {| ours := join (str1 LF) (slice lines (startIndex + 1) oursEnd);
              theirs := join (str1 LF) (slice lines theirsStart endIndex);
              base :=
                match baseIndex with
                | Some b => Some (join (str1 LF) (slice lines (b + 1) middleIndex))
                | None => None
                end;
              startLine := startIndex;
              endLine := endIndex |}
  | _ => None
  end.

(** The [while] loop of [parseConflicts]. [None] only when the fuel runs
    out, which [parseLoop_total] excludes for the fuel [parseConflicts]
    gives. *)
Fixpoint parseLoop (fuel : nat) (lines : list string) (i : nat)
                   (conflicts : list ConflictSection)
  : option (list ConflictSection) :=
  if i <? List.length lines then
    match fuel with
    | 0 => None
    | S fuel' =>
        let line := nth i lines EmptyString in
        if test CONFLICT_START line then
          match parseConflictSection lines i with
          | Some conflict =>
              parseLoop fuel' lines (endLine conflict + 1)
                        (conflicts ++ [conflict])
          | None => parseLoop fuel' lines (i + 1) conflicts
          end
        else parseLoop fuel' lines (i + 1) conflicts
    end
  else Some conflicts.

Definition parseLines (lines : list string) : list ConflictSection :=
  match parseLoop (List.length lines) lines 0 [] with
  | Some conflicts => conflicts
  | None => []
  end.

Definition parseConflicts (content : string) : list ConflictSection :=
  parseLines (split_lines content).

(** The [for] loop of [resolveConflicts] runs over the sections from the
    last to the first. *)
Definition resolveLines (resolver : ConflictSection -> string)
                        (lines : list string)
                        (conflicts : list ConflictSection) : list string :=
  fold_left
    (fun lines conflict =>
       splice lines (startLine conflict)
              (endLine conflict - startLine conflict + 1)
              (split_lines (resolver conflict)))
    (rev conflicts) lines.

Definition resolveConflicts (content : string)
                            (resolver : ConflictSection -> string) : string :=
  let lines := split_lines content in
  let conflicts := parseConflicts content in
  join (str1 LF) (resolveLines resolver lines conflicts).

End ConflictParser.
Import ConflictParser.


(** ** conflict-parser.ts, the revision that looks for the markers anywhere
    in the text *)

Module ConflictParserBySubstring.

Definition hasConflictMarkers (content : string) : bool :=
  includes "<<<<<<<" content
  && includes "=======" content
  && includes ">>>>>>>" content.

End ConflictParserBySubstring.
(** ** Values of the JavaScript runtime *)

Module Js.

(** A value [JSON.parse] can return. Numbers are integers in this model:
    the resolver only tests them for truthiness and equality and compares
    them with lengths. An object is the list of its own properties in
    insertion order; the rule of JavaScript that lists the properties whose
    name is an array index first is left out, it only moves lines of the
    output. *)
#[warnings="-register-all"]
Inductive json : Type :=
| JNull : json
| JBool : bool -> json
| JNum : Z -> json
| JStr : string -> json
| JArr : list json -> json
| JObj : list (string * json) -> json.

(** The outcome of a computation that can throw. *)
Inductive result (A : Type) : Type :=
| Ok : A -> result A
| Throw : string -> result A.

Arguments Ok {A} _.
Arguments Throw {A} _.

Definition bind {A B : Type} (m : result A) (k : A -> result B) : result B :=
  match m with
  | Ok a => k a
  | Throw e => Throw e
  end.

Notation "x <- m ;; k" := (bind m (fun x => k))
  (at level 61, m at next level, right associativity).

Definition DQ : ascii := ascii_of_nat 34.
Definition dq : string := str1 DQ.
Definition BACKSLASH : ascii := ascii_of_nat 92.

Definition string_of_nat (n : nat) : string :=
  NilZero.string_of_uint (Nat.to_uint n).

Definition string_of_Z (n : Z) : string :=
  NilZero.string_of_int (Z.to_int n).

(** [undefined] is [None] wherever a property read can give it. *)
Definition truthy (v : json) : bool :=
  match v with
  | JNull => false
  | JBool b => b
  | JNum n => negb (n =? 0)%Z
  | JStr s => negb (String.eqb s EmptyString)
  | JArr _ | JObj _ => true
  end.

Definition truthy_opt (v : option json) : bool :=
  match v with
  | Some v => truthy v
  | None => false
  end.

(** [typeof v === "object"] *)
Definition typeof_object (v : json) : bool :=
  match v with
  | JNull | JArr _ | JObj _ => true
  | _ => false
  end.

(** [typeof v === "string"] *)
Definition typeof_string (v : json) : bool :=
  match v with
  | JStr _ => true
  | _ => false
  end.

Definition typeof_string_opt (v : option json) : bool :=
  match v with
  | Some v => typeof_string v
  | None => false
  end.

(** The property names every object inherits from [Object.prototype]. *)
Definition OBJECT_PROTOTYPE_NAMES : list string :=
  ["constructor"; "__defineGetter__"; "__defineSetter__"; "hasOwnProperty";
   "__lookupGetter__"; "__lookupSetter__"; "isPrototypeOf";
   "propertyIsEnumerable"; "toString"; "valueOf"; "__proto__";
   "toLocaleString"].

(** The own property [k] of an object. A read [o[k]] and a test [k in o]
    of the source also see the names of [OBJECT_PROTOTYPE_NAMES] through
    the prototype: where the merge uses [lookup] for them, the model is
    that of the source for the keys that are not among these names or are
    own properties, which the theorems on the merge ask for. *)
Fixpoint lookup (k : string) (o : list (string * json)) : option json :=
  match o with
  | [] => None
  | (k', v) :: o' => if String.eqb k k' then Some v else lookup k o'
  end.

(** [o[k] = v] for a key that is an own property or that is not
    [__proto__]: an existing property keeps its place, a new one goes
    last. *)
Fixpoint set (k : string) (v : json) (o : list (string * json))
  : list (string * json) :=
  match o with
  | [] => [(k, v)]
  | (k', v') :: o' =>
      if String.eqb k k' then (k', v) :: o' else (k', v') :: set k v o'
  end.

(** What an object has for a prototype after assignments to [__proto__]:
    [Object.prototype], as every object literal has at first; [null]; or a
    value, an object or an array of [JSON.parse]. *)
Inductive Prototype : Type :=
| ObjectPrototype : Prototype
| NullPrototype : Prototype
| ValuePrototype : json -> Prototype.

(** [result[key] = value] on an object literal, given by its own properties
    and its prototype, for a value of [JSON.parse] or a string. Any key
    but [__proto__] is written on the object itself, as is [__proto__]
    when the object has it already or when a data property of that name,
    or no property at all, is found along the prototypes. Otherwise the
    setter of [Object.prototype] runs: it makes an object, an array or
    [null] the new prototype and ignores any other value. *)
Definition assign (key : string) (value : json)
                  (object : list (string * json) * Prototype)
  : list (string * json) * Prototype :=
  let '(own, prototype) := object in
  if negb (String.eqb key "__proto__") then (set key value own, prototype)
  else
    match lookup key own with
    | Some _ => (set key value own, prototype)
    | None =>
        let written_on_object :=
          match prototype with
          | ObjectPrototype => false
          | NullPrototype => true
          | ValuePrototype (JObj o) =>
              match lookup key o with
              | Some _ => true
              | None => false
              end
          | ValuePrototype _ => false
          end in
        if written_on_object then (set key value own, prototype)
        else
          match value with
          | JObj _ | JArr _ => (own, ValuePrototype value)
          | JNull => (own, NullPrototype)
          | _ => (own, prototype)
          end
    end.

(** The elements of an array or the characters of a string under their
    index keys. *)
Definition indexed (l : list json) : list (string * json) :=
  combine (map string_of_nat (seq 0 (List.length l))) l.

Definition chars (s : string) : list json :=
  map (fun c => JStr (str1 c)) (list_ascii_of_string s).

(** Own enumerable string-keyed properties, in the order of
    [Object.entries] and of the spread [{...v}]. *)
Definition own_entries (v : json) : list (string * json) :=
  match v with
  | JObj o => o
  | JArr l => indexed l
  | JStr s => indexed (chars s)
  | JNull | JBool _ | JNum _ => []
  end.

(** [Object.entries (v)] *)
Definition Object_entries (v : json) : result (list (string * json)) :=
  match v with
  | JNull => Throw "TypeError: Cannot convert undefined or null to object"
  | _ => Ok (own_entries v)
  end.

(** [{...v}], where [v] can be [undefined] *)
Definition spread (v : option json) : list (string * json) :=
  match v with
  | Some v => own_entries v
  | None => []
  end.

(** [v.k] and [v[k]] *)
Definition get (v : json) (k : string) : result (option json) :=
  match v with
  | JNull => Throw "TypeError: Cannot read properties of null"
  | JObj o => Ok (lookup k o)
  | JArr l =>
      if String.eqb k "length" then Ok (Some (JNum (Z.of_nat (List.length l))))
      else Ok (lookup k (indexed l))
  | JStr s =>
      if String.eqb k "length" then Ok (Some (JNum (Z.of_nat (String.length s))))
      else Ok (lookup k (indexed (chars s)))
  | JBool _ | JNum _ => Ok None
  end.

Definition get_opt (v : option json) (k : string) : result (option json) :=
  match v with
  | Some v => get v k
  | None => Throw "TypeError: Cannot read properties of undefined"
  end.

(** [a === b] for values of two separate [JSON.parse] results: two arrays
    or two objects are never the same reference. *)
Definition strict_eq (a b : option json) : bool :=
  match a, b with
  | None, None => true
  | Some JNull, Some JNull => true
  | Some (JBool x), Some (JBool y) => Bool.eqb x y
  | Some (JNum x), Some (JNum y) => (x =? y)%Z
  | Some (JStr x), Some (JStr y) => String.eqb x y
  | _, _ => false
  end.

(** [String (v)] for a value of [JSON.parse]. An array joins the texts of
    its elements, the empty text for [null]. An object that has a property
    [toString] of its own cannot be converted: that property is not a
    function and [valueOf] gives no primitive value. *)
Fixpoint ToString (v : json) : result string :=
  match v with
  | JNull => Ok "null"
  | JBool true => Ok "true"
  | JBool false => Ok "false"
  | JNum n => Ok (string_of_Z n)
  | JStr s => Ok s
  | JArr l =>
      texts <-
        (fix each (l : list json) : result (list string) :=
           match l with
           | [] => Ok []
           | x :: l' =>
               text <- match x with
                       | JNull => Ok EmptyString
                       | _ => ToString x
                       end ;;
               rest <- each l' ;;
               Ok (text :: rest)
           end) l ;;
      Ok (join "," texts)
  | JObj o =>
      match lookup "toString" o with
      | Some _ => Throw "TypeError: Cannot convert object to primitive value"
      | None => Ok "[object Object]"
      end
  end.

Definition ToString_opt (v : option json) : result string :=
  match v with
  | Some v => ToString v
  | None => Ok "undefined"
  end.

(** What the resolver takes from the platform: [JSON.parse], with the
    message of the [SyntaxError] it throws; [JSON.stringify (v, null, n)];
    and the comparison [n > s] of a number with a string, which goes
    through the numeric value of [s]. *)
Record JsRuntime : Type := {
  JSON_parse : string -> result json;
  JSON_stringify : json -> nat -> string;
  number_gt_string : Z -> string -> bool
}.

(** [n > v] for a number [n]; [undefined] converts to NaN, an array and an
    object go through their text. *)
Definition number_gt (rt : JsRuntime) (n : Z) (v : option json)
  : result bool :=
  match v with
  | None => Ok false
  | Some JNull => Ok (0 <? n)%Z
  | Some (JBool b) => Ok ((if b then 1 else 0) <? n)%Z
  | Some (JNum m) => Ok (m <? n)%Z
  | Some (JStr s) => Ok (number_gt_string rt n s)
  | Some (JArr l) =>
      text <- ToString (JArr l) ;; Ok (number_gt_string rt n text)
  | Some (JObj o) =>
      text <- ToString (JObj o) ;; Ok (number_gt_string rt n text)
  end.

End Js.
Import Js.

(** ** merge-resolver.ts *)

Inductive Strategy : Type := smart | ours_only | theirs_only.

Record ResolverOptions : Type := {
  strategy : Strategy;
  verbose : bool;
  dryRun : bool;
  backup : bool
}.

Record ResolutionResult : Type := {
  success : bool;
  conflictsResolved : nat;
  error : option string;
  details : option string
}.

(** The files of the disk: the last write to a path comes first. *)
Definition FileSystem : Type := list (string * string).

Fixpoint readFile (path : string) (fs : FileSystem) : option string :=
  match fs with
  | [] => None
  | (p, content) :: fs' =>
      if String.eqb path p then Some content else readFile path fs'
  end.

Definition writeFile (path content : string) (fs : FileSystem) : FileSystem :=
  (path, content) :: fs.

(** [path.basename], POSIX flavour: the last segment of the path that is
    not empty. *)
Fixpoint basename_aux (s : string) (cur last : string) : string :=
  match s with
  | EmptyString =>
      match cur with EmptyString => last | _ => cur end
  | String c s' =>
      if Ascii.eqb c "/" then
        basename_aux s' EmptyString
                     (match cur with EmptyString => last | _ => cur end)
      else basename_aux s' (cur +++ str1 c) last
  end.

Definition basename (path : string) : string :=
  basename_aux path EmptyString EmptyString.

Module ConflictResolver.

Definition MAX_FILE_SIZE : N := 10 * 1024 * 1024.

Definition strategy_name (s : Strategy) : string :=
  match s with
  | smart => "smart"
  | ours_only => "ours"
  | theirs_only => "theirs"
  end.

(** [/Q([^Q]+)Q\s*:\s*(.+)/], where Q stands for the double quote *)
Definition KEY_VALUE : regex :=
  Seq (Chr DQ)
    (Seq (Grp 1 (Plus (NotChr DQ)))
       (Seq (Chr DQ)
          (Seq (Star Space)
             (Seq (Chr ":") (Seq (Star Space) (Grp 2 (Plus Dot))))))).

Definition is_quote (c : ascii) : bool := Ascii.eqb c DQ || Ascii.eqb c "'".

(** [/^[Q']|[Q']$/g], where Q stands for the double quote *)
Definition OUTER_QUOTE : regex :=
  Alt (Seq Bol (Cls is_quote)) (Seq (Cls is_quote) Eol).

(** [/\\Q/g]: a backslash and a double quote *)
Definition ESCAPED_QUOTE : regex := Seq (Chr BACKSLASH) (Chr DQ).

(** [/'/g], [/(\w+):/g], [/,\s*\n\s*}/g], [/,\s*\n\s*]/g], [/;$/g] *)
Definition SINGLE_QUOTE : regex := Chr "'".
Definition BARE_KEY : regex := Seq (Grp 1 (Plus Word)) (Chr ":").
Definition TRAILING_COMMA_BRACE : regex :=
  Seq (Chr ",") (Seq (Star Space) (Seq (Chr LF) (Seq (Star Space) (Chr "}")))).
Definition TRAILING_COMMA_BRACKET : regex :=
  Seq (Chr ",") (Seq (Star Space) (Seq (Chr LF) (Seq (Star Space) (Chr "]")))).
Definition FINAL_SEMICOLON : regex := Seq (Chr ";") Eol.

(** [/^export\s+default\s+/] and [/;?\s*$/] *)
Definition EXPORT_DEFAULT : regex :=
  Seq Bol (Seq (Lit "export") (Seq (Plus Space)
    (Seq (Lit "default") (Plus Space)))).
Definition SEMICOLON_TAIL : regex :=
  Seq (Opt (Chr ";")) (Seq (Star Space) Eol).

Definition const (s : string) : list (nat * string) -> string := fun _ => s.
Definition quote_key (cs : list (nat * string)) : string :=
  dq +++ group 1 cs +++ dq +++ ":".

Definition INDENT : string := "        ".

Section WithRuntime.
Variable rt : JsRuntime.

(** The resolver callback of [smartResolveMeta]. *)
Definition metaResolver (key : string) (ours theirs : json) : result json :=
  if typeof_object ours && typeof_object theirs then
    let hash_rule :=
      ours_hash <- get ours "hash" ;;
      if truthy_opt ours_hash then
        theirs_hash <- get theirs "hash" ;;
        if truthy_opt theirs_hash && negb (strict_eq ours_hash theirs_hash)
        then Ok theirs
        else Ok theirs
      else Ok theirs in
    ours_content <- get ours "content" ;;
    if truthy_opt ours_content then
      theirs_content <- get theirs "content" ;;
      if truthy_opt theirs_content && typeof_string_opt theirs_content then
        theirs_length <- get_opt theirs_content "length" ;;
        ours_length <- get_opt ours_content "length" ;;
        match theirs_length with
        | Some (JNum n) =>
            longer <- number_gt rt n ours_length ;;
            Ok (if longer then theirs else ours)
        | _ => Ok ours
        end
      else hash_rule
    else hash_rule
  else Ok theirs.

(** The loop of the resolver callback of [smartResolveDictionary] over the
    locales of theirs. The two texts are made only when the locale has a
    truthy translation in [mergedContent] and theirs gives a string that is
    not empty, that of theirs first. The read and the write of
    [mergedContent[locale]] are those of an own property, as in the source
    for a locale that is not a name of [OBJECT_PROTOTYPE_NAMES]. *)
Fixpoint merge_locales (entries : list (string * json))
                       (mergedContent : list (string * json))
  : result (list (string * json)) :=
  match entries with
  | [] => Ok mergedContent
  | (locale, translation) :: entries' =>
      replace <-
        (if negb (truthy_opt (lookup locale mergedContent)) then Ok true
         else if truthy translation && typeof_string translation then
           theirs_text <- ToString translation ;;
           ours_text <- ToString_opt (lookup locale mergedContent) ;;
           Ok (String.length (trim ours_text)
               <? String.length (trim theirs_text))
         else Ok false) ;;
      merge_locales entries'
        (if replace then set locale translation mergedContent
         else mergedContent)
  end.

(** The resolver callback of [smartResolveDictionary]. *)
Definition dictionaryResolver (key : string) (ours theirs : json)
  : result json :=
  if String.eqb key "content" && typeof_object ours && typeof_object theirs
  then
    let mergedContent := spread (Some ours) in
    entries <- Object_entries theirs ;;
    mergedContent <- merge_locales entries mergedContent ;;
    Ok (JObj mergedContent)
  else Ok theirs.

(** [[...(target || [])]] *)
Definition spread_iterable (target : option json) : result (list json) :=
  match target with
  | None => Ok []
  | Some v =>
      if truthy v then
        match v with
        | JArr l => Ok l
        | JStr s => Ok (chars s)
        | _ => Throw "TypeError: target is not iterable"
        end
      else Ok []
  end.

(** [{...(target || {})}] *)
Definition spread_object (target : option json) : list (string * json) :=
  if truthy_opt target then spread target else [].

(** [result[i] = v] on an array that has no hole and at least [i]
    elements. *)
Fixpoint set_index (i : nat) (v : json) (l : list json) : list json :=
  match l, i with
  | [], _ => [v]
  | _ :: l', 0 => v :: l'
  | x :: l', S i' => x :: set_index i' v l'
  end.

(** [deepMerge]. The inner loops are the [for ... of Object.entries
    (source)] of the source, over an object and over an array. The reads
    [result[key]], the tests [key in result] and the writes [result[key] =
    v] are those of own properties, [lookup] and [set]: so they are in the
    source when the keys of [source] are not names of
    [OBJECT_PROTOTYPE_NAMES], or are own properties of [result]. *)
Fixpoint deepMerge (resolver : option (string -> json -> json -> result json))
                   (target : option json) (source : json) {struct source}
  : result json :=
  match source with
  | JObj entries =>
      (fix loop (entries : list (string * json))
                (result : list (string * json)) {struct entries}
         : Js.result json :=
         match entries with
         | [] => Ok (JObj result)
         | (key, value) :: entries' =>
             match value with
             | JObj _ =>
                 merged <- deepMerge resolver (lookup key result) value ;;
                 loop entries' (set key merged result)
             | _ =>
                 match resolver, lookup key result with
                 | Some resolve, Some current =>
                     resolved <- resolve key current value ;;
                     loop entries' (set key resolved result)
                 | _, _ => loop entries' (set key value result)
                 end
             end
         end) entries (spread_object target)
  | JArr elements =>
      match spread_iterable target with
      | Throw e => Throw e
      | Ok initial =>
          (fix loop (elements : list json) (i : nat) (result : list json)
                    {struct elements} : Js.result json :=
             match elements with
             | [] => Ok (JArr result)
             | value :: elements' =>
                 match value with
                 | JObj _ =>
                     merged <- deepMerge resolver (nth_error result i) value ;;
                     loop elements' (S i) (set_index i merged result)
                 | _ =>
                     match resolver, nth_error result i with
                     | Some resolve, Some current =>
                         resolved <- resolve (string_of_nat i) current value ;;
                         loop elements' (S i) (set_index i resolved result)
                     | _, _ => loop elements' (S i) (set_index i value result)
                     end
                 end
             end) elements 0 initial
      end
  | JNull | JBool _ | JNum _ | JStr _ => Ok source
  end.

(** The key and the text of the value of a line of the form
    [Q key Q : value], where Q stands for the double quote. *)
Definition key_value_line (line : string) : option (string * string) :=
  let trimmed := trim line in
  if includes ":" trimmed then
    match exec KEY_VALUE trimmed with
    | Some (_, m) => Some (group 1 (caps m), group 2 (caps m))
    | None => None
    end
  else None.

(** The body of the loop of the second attempt of [parseJSONFragment]:
    the value of a line is what [JSON.parse] reads in its text or, when it
    refuses it, the text without a quote at either end. *)
Definition assign_line (result : list (string * json) * Prototype)
                       (line : string)
  : list (string * json) * Prototype :=
  match key_value_line line with
  | Some (key, text) =>
      match JSON_parse rt text with
      | Ok value => assign key value result
      | Throw _ =>
          assign key
                 (JStr (replace_all ESCAPED_QUOTE (const dq)
                          (replace_all OUTER_QUOTE (const EmptyString) text)))
                 result
      end
  | None => result
  end.

(** The second attempt of [parseJSONFragment]: one key and one value per
    line, assigned to an object literal; the answer is the object when it
    has a property of its own. *)
Definition parseKeyValueLines (fragment : string) : json :=
  let result :=
    fold_left assign_line (split_lf fragment) ([], ObjectPrototype) in
  match fst result with
  | [] => JNull
  | own => JObj own
  end.

Definition parseJSONFragment (fragment : string) : json :=
  let trimmed := trim fragment in
  match
    (if startsWith "{" trimmed && endsWith "}" trimmed
     then JSON_parse rt trimmed
     else JSON_parse rt ("{" +++ trimmed +++ "}"))
  with
  | Ok value => value
  | Throw _ => parseKeyValueLines fragment
  end.

Definition parseJSFragment (fragment : string) : json :=
  let cleaned :=
    replace_all FINAL_SEMICOLON (const EmptyString)
      (replace_all TRAILING_COMMA_BRACKET (const "]")
         (replace_all TRAILING_COMMA_BRACE (const "}")
            (replace_all BARE_KEY quote_key
               (replace_all SINGLE_QUOTE (const dq) (trim fragment))))) in
  parseJSONFragment cleaned.

Definition formatJSONFragment (data : json) : string :=
  if negb (truthy data) || negb (typeof_object data) then EmptyString
  else
    join ("," +++ str1 LF)
         (map (fun entry : string * json =>
                 let '(key, value) := entry in
                 INDENT +++ dq +++ key +++ dq +++ ": "
                 +++ replace_all (Chr LF) (const (str1 LF +++ INDENT))
                       (JSON_stringify rt value 10))
              (own_entries data)).

Definition formatJSFragment (data : json) : string := formatJSONFragment data.

Definition smartResolveMeta (conflict : ConflictSection) : string :=
  let oursData := parseJSONFragment (ours conflict) in
  let theirsData := parseJSONFragment (theirs conflict) in
  if negb (truthy oursData) && negb (truthy theirsData) then ours conflict
  else if negb (truthy oursData) then theirs conflict
  else if negb (truthy theirsData) then ours conflict
  else
    match deepMerge (Some metaResolver) (Some oursData) theirsData with
    | Ok merged => formatJSONFragment merged
    | Throw _ => ours conflict
    end.

Definition smartResolveDictionary (conflict : ConflictSection) : string :=
  let oursData := parseJSFragment (ours conflict) in
  let theirsData := parseJSFragment (theirs conflict) in
  if negb (truthy oursData) && negb (truthy theirsData) then ours conflict
  else if negb (truthy oursData) then theirs conflict
  else if negb (truthy theirsData) then ours conflict
  else
    match deepMerge (Some dictionaryResolver) (Some oursData) theirsData with
    | Ok merged => formatJSFragment merged
    | Throw _ => ours conflict
    end.

Definition smartResolve (conflict : ConflictSection) (fileName : string)
  : string :=
  if String.eqb fileName "meta.json" then smartResolveMeta conflict
  else if startsWith "dictionary." fileName
  then smartResolveDictionary conflict
  else ours conflict.

Definition resolveConflict (options : ResolverOptions)
                           (conflict : ConflictSection) (filePath : string)
  : string :=
  let fileName := basename filePath in
  match strategy options with
  | ours_only => ours conflict
  | theirs_only => theirs conflict
  | smart => smartResolve conflict fileName
  end.

(** [None] is [{ valid: true }], [Some e] is [{ valid: false, error: e }]. *)
Definition validateResolvedContent (content filePath : string)
  : option string :=
  let fileName := basename filePath in
  let outcome :=
    if String.eqb fileName "meta.json" then JSON_parse rt content
    else if startsWith "dictionary." fileName then
      JSON_parse rt
        (replace_all TRAILING_COMMA_BRACKET (const "]")
           (replace_all TRAILING_COMMA_BRACE (const "}")
              (replace_all BARE_KEY quote_key
                 (replace_all SINGLE_QUOTE (const dq)
                    (replace_first SEMICOLON_TAIL (const EmptyString)
                       (replace_first EXPORT_DEFAULT (const EmptyString)
                          content))))))
    else Ok JNull in
  match outcome with
  | Ok _ => None
  | Throw message => Some ("Invalid syntax after resolution: " +++ message)
  end.

Definition getResolutionDetails (options : ResolverOptions)
                                (conflicts : list ConflictSection)
                                (filePath : string) : string :=
  "Resolved " +++ string_of_nat (List.length conflicts)
  +++ " conflict(s) in " +++ basename filePath +++ " using "
  +++ strategy_name (strategy options) +++ " strategy".

Definition failure (message : string) : ResolutionResult :=
  {| success := false; conflictsResolved := 0;
     error := Some message; details := None |}.

(** [resolveFile]. [uuid] is what [randomUUID ()] returns in this call.
    A path without a file makes [statSync] throw, which the outer [catch]
    turns into a failure. *)
Definition resolveFile (options : ResolverOptions) (uuid : string)
                       (filePath : string) (fs : FileSystem)
  : ResolutionResult * FileSystem :=
  match readFile filePath fs with
  | None =>
      (failure ("ENOENT: no such file or directory, stat '"
                +++ filePath +++ "'"), fs)
  | Some content =>
      let size := N.of_nat (String.length content) in
      if (MAX_FILE_SIZE <? size)%N then
        (failure ("File too large: " +++ NilZero.string_of_uint (N.to_uint size)
                  +++ " bytes (max: "
                  +++ NilZero.string_of_uint (N.to_uint MAX_FILE_SIZE) +++ ")"),
         fs)
      else if negb (hasConflictMarkers content) then
        ({| success := true; conflictsResolved := 0; error := None;
            details := Some "No conflicts found" |}, fs)
      else
        let conflicts := parseConflicts content in
        if List.length conflicts =? 0 then
          (failure "Invalid conflict markers detected", fs)
        else
          let fs1 :=
            if backup options && negb (dryRun options)
            then writeFile (filePath +++ ".backup." +++ uuid) content fs
            else fs in
          let resolvedContent :=
            resolveConflicts content
              (fun conflict => resolveConflict options conflict filePath) in
          match validateResolvedContent resolvedContent filePath with
          | Some message => (failure message, fs1)
          | None =>
              let fs2 :=
                if negb (dryRun options)
                then writeFile filePath resolvedContent fs1
                else fs1 in
              ({| success := true;
                  conflictsResolved := List.length conflicts;
                  error := None;
                  details :=
                    if verbose options
                    then Some (getResolutionDetails options conflicts filePath)
                    else None |}, fs2)
          end
  end.

End WithRuntime.

End ConflictResolver.
Import ConflictResolver.

(** ** The [merge-resolve] command *)

Module MergeResolve.

(** [MergeResolveOptions]: every field can be left out. *)
Record MergeResolveOptions : Type := {
  dryRun : option bool;
  files : option string;
  strategy : option Strategy;
  verbose : option bool;
  backup : option bool
}.

(** An optional flag read as a condition, and [flag || false]. *)
Definition flag (b : option bool) : bool :=
  match b with
  | Some b => b
  | None => false
  end.

(** What the command prints: the calls to a spinner of [Ora], with the
    indent of the spinner, the calls to [console.log], and
    [process.exit]. *)
Inductive Output : Type :=
| ora_start (indent : nat) (text : string)
| ora_succeed (indent : nat) (text : string)
| ora_fail (indent : nat) (text : string)
| ora_info (indent : nat) (text : string)
| ora_warn (indent : nat) (text : string)
| console_log (text : string)
| process_exit (code : nat).

Definition DEFAULT_PATTERNS : list string :=
  ["**/lingo/meta.json"; "**/lingo/dictionary.js"; "**/lingo/dictionary.ts"].

(** The state of the loop over the conflicted files. *)
Record Progress : Type := {
  resolvedCount : nat;
  failedCount : nat;
  printed : list Output;
  disk : FileSystem
}.

Section WithPlatform.

Variable rt : JsRuntime.

(** [glob (pattern, { cwd, absolute: true, ignore })]: the paths the
    pattern matches on the disk, or the error it rejects with. *)
Variable glob : string -> FileSystem -> result (list string).

(** What [randomUUID ()] returns in the resolution of the file of index
    [k] of the loop. *)
Variable randomUUID : nat -> string.

Definition searchPatterns (pattern : option string) : list string :=
  match pattern with
  | Some p => if String.eqb p EmptyString then DEFAULT_PATTERNS else [p]
  | None => DEFAULT_PATTERNS
  end.

(** The body of the [try] of the filter: a file that cannot be read is
    skipped. *)
Definition readsWithMarkers (fs : FileSystem) (file : string) : bool :=
  match readFile file fs with
  | Some content => hasConflictMarkers content
  | None => false
  end.

Definition findConflictedFiles (pattern : option string) (fs : FileSystem)
  : result (list string) :=
  allFiles <-
    fold_left
      (fun allFiles searchPattern =>
         found <- allFiles ;;
         files <- glob searchPattern fs ;;
         Ok (found ++ files))
      (searchPatterns pattern) (Ok []) ;;
  Ok (filter (readsWithMarkers fs) allFiles).

(** One turn of the loop of the action. [resolveFile] returns a result for
    every path, so the [catch] of the turn is never entered. *)
Definition resolveOne (options : MergeResolveOptions)
                      (resolver : ResolverOptions) (k : nat)
                      (filePath : string) (st : Progress) : Progress :=
  let started :=
    printed st
    ++ [ora_start 2 ("Resolving " +++ basename filePath +++ "...")] in
  let run := resolveFile rt resolver (randomUUID k) filePath (disk st) in
  let result := fst run in
  if success result then
    {| resolvedCount := resolvedCount st + 1;
       failedCount := failedCount st;
       printed :=
         started
         ++ [ora_succeed 2
               ((if flag (dryRun options) then "Would resolve "
                 else "Resolved ")
                +++ basename filePath +++ " ("
                +++ string_of_nat (conflictsResolved result)
                +++ " conflicts)")]
         ++ match details result with
            | Some text =>
                if flag (verbose options)
                   && negb (String.eqb text EmptyString)
                then [console_log ("    " +++ text)]
                else []
            | None => []
            end;
       disk := snd run |}
  else
    {| resolvedCount := resolvedCount st;
       failedCount := failedCount st + 1;
       printed :=
         started
         ++ [ora_fail 2
               ("Failed to resolve " +++ basename filePath +++ ": "
                +++ match error result with
                    | Some message => message
                    | None => "undefined"
                    end)];
       disk := snd run |}.

(** The [for] loop of the action, from the file of index [k] on. *)
Fixpoint resolveAll (options : MergeResolveOptions)
                    (resolver : ResolverOptions) (k : nat)
                    (conflictedFiles : list string) (st : Progress)
  : Progress :=
  match conflictedFiles with
  | [] => st
  | filePath :: rest =>
      resolveAll options resolver (S k) rest
                 (resolveOne options resolver k filePath st)
  end.

(** [new ConflictResolver ({ ... })] *)
Definition resolverOptions (options : MergeResolveOptions)
  : ResolverOptions :=
  Build_ResolverOptions
    (match strategy options with Some s => s | None => smart end)
    (flag (verbose options)) (flag (dryRun options)) (flag (backup options)).

Definition summary (options : MergeResolveOptions) (st : Progress)
  : list Output :=
  console_log EmptyString
  :: (if flag (dryRun options) then
        [ora_info 0
           ("Dry run complete: " +++ string_of_nat (resolvedCount st)
            +++ " files would be resolved, "
            +++ string_of_nat (failedCount st) +++ " failed")]
      else
        (if 0 <? resolvedCount st
         then [ora_succeed 0
                 ("Successfully resolved "
                  +++ string_of_nat (resolvedCount st) +++ " file(s)")]
         else [])
        ++ (if 0 <? failedCount st
            then [ora_warn 0
                    ("Failed to resolve "
                     +++ string_of_nat (failedCount st) +++ " file(s)")]
            else [])).

(** The action of the command: what it prints and the disk it leaves. *)
Definition action (options : MergeResolveOptions) (fs : FileSystem)
  : list Output * FileSystem :=
  let scanning :=
    [ora_start 0 "Scanning for merge conflicts in lingo.dev files..."] in
  match findConflictedFiles (files options) fs with
  | Throw message =>
      (scanning
       ++ [ora_fail 0 ("Merge resolution failed: " +++ message);
           process_exit 1], fs)
  | Ok conflictedFiles =>
      if List.length conflictedFiles =? 0 then
        (scanning
         ++ [ora_succeed 0 "No merge conflicts found in lingo.dev files"],
         fs)
      else
        let found :=
          scanning
          ++ [ora_succeed 0
                ("Found " +++ string_of_nat (List.length conflictedFiles)
                 +++ " conflicted file(s)")]
          ++ (if flag (verbose options)
              then console_log "Conflicted files:"
                   :: map (fun file => console_log ("  - " +++ file))
                          conflictedFiles
              else []) in
        let st :=
          resolveAll options (resolverOptions options) 0 conflictedFiles
            {| resolvedCount := 0; failedCount := 0;
               printed := found; disk := fs |} in
        (printed st ++ summary options st, disk st)
  end.

End WithPlatform.

End MergeResolve.
(** ** A runtime to run the model on texts

    The statements about the resolver hold for every [JsRuntime]. This one
    reads and writes the JSON texts of the examples: objects, arrays,
    strings with the two-character escapes, integers, [true], [false] and
    [null]. It refuses fractions, exponents and [\u] escapes. *)

Module ReferenceRuntime.

Definition is_json_space (c : ascii) : bool :=
  let n := nat_of_ascii c in
  (n =? 32) || (n =? 9) || (n =? 10) || (n =? 13).

Fixpoint skip_ws (s : string) : string :=
  match s with
  | String c s' => if is_json_space c then skip_ws s' else s
  | EmptyString => EmptyString
  end.

Definition is_digit (c : ascii) : bool :=
  let n := nat_of_ascii c in (48 <=? n) && (n <=? 57).

Definition unexpected : string := "Unexpected token in JSON".

(** The characters of a string literal after its opening quote. *)
Fixpoint read_string (s : string) (acc : string) : result (string * string) :=
  match s with
  | EmptyString => Throw "Unterminated string in JSON"
  | String c s' =>
      if Ascii.eqb c DQ then Ok (acc, s')
      else if Ascii.eqb c BACKSLASH then
        match s' with
        | String e s'' =>
            let unescaped :=
              if Ascii.eqb e "n" then Some LF
              else if Ascii.eqb e "r" then Some CR
              else if Ascii.eqb e "t" then Some (ascii_of_nat 9)
              else if Ascii.eqb e "b" then Some (ascii_of_nat 8)
              else if Ascii.eqb e "f" then Some (ascii_of_nat 12)
              else if Ascii.eqb e DQ || Ascii.eqb e BACKSLASH || Ascii.eqb e "/"
              then Some e
              else None in
            match unescaped with
            | Some u => read_string s'' (acc +++ str1 u)
            | None => Throw "Bad escaped character in JSON"
            end
        | EmptyString => Throw "Unterminated string in JSON"
        end
      else if nat_of_ascii c <? 32 then Throw "Bad control character in JSON"
      else read_string s' (acc +++ str1 c)
  end.

Fixpoint read_digits (s : string) (acc : string) : string * string :=
  match s with
  | String c s' => if is_digit c then read_digits s' (acc +++ str1 c) else (acc, s)
  | EmptyString => (acc, EmptyString)
  end.

Definition read_number (s : string) : result (json * string) :=
  let '(sign, body) :=
    match s with
    | String "-" s' => ((-1)%Z, s')
    | _ => (1%Z, s)
    end in
  let '(digits, rest) := read_digits body EmptyString in
  let fraction_follows :=
    match rest with
    | String c _ => Ascii.eqb c "." || Ascii.eqb c "e" || Ascii.eqb c "E"
    | EmptyString => false
    end in
  match digits with
  | EmptyString => Throw unexpected
  | String "0" (String _ _) => Throw unexpected
  | _ =>
      if fraction_follows then Throw "fractions are outside this reader"
      else
        match NilZero.uint_of_string digits with
        | Some u => Ok (JNum (sign * Z.of_nat (Nat.of_uint u)), rest)
        | None => Throw unexpected
        end
  end.

Fixpoint parse_value (fuel : nat) (s : string) {struct fuel}
  : result (json * string) :=
  match fuel with
  | 0 => Throw "out of fuel"
  | S fuel' =>
      match skip_ws s with
      | String c r =>
          if Ascii.eqb c "{" then
            match skip_ws r with
            | String "}" r' => Ok (JObj [], r')
            | r' => parse_members fuel' r' []
            end
          else if Ascii.eqb c "[" then
            match skip_ws r with
            | String "]" r' => Ok (JArr [], r')
            | r' => parse_elements fuel' r' []
            end
          else if Ascii.eqb c DQ then
            p <- read_string r EmptyString ;;
            Ok (JStr (fst p), snd p)
          else if String.prefix "true" (String c r) then
            Ok (JBool true, substring 4 (String.length r) (String c r))
          else if String.prefix "false" (String c r) then
            Ok (JBool false, substring 5 (String.length r) (String c r))
          else if String.prefix "null" (String c r) then
            Ok (JNull, substring 4 (String.length r) (String c r))
          else read_number (String c r)
      | EmptyString => Throw "Unexpected end of JSON input"
      end
  end
with parse_members (fuel : nat) (s : string) (acc : list (string * json))
                   {struct fuel} : result (json * string) :=
  match fuel with
  | 0 => Throw "out of fuel"
  | S fuel' =>
      match skip_ws s with
      | String c r =>
          if Ascii.eqb c DQ then
            k <- read_string r EmptyString ;;
            match skip_ws (snd k) with
            | String ":" r' =>
                v <- parse_value fuel' r' ;;
                match skip_ws (snd v) with
                | String "," r'' => parse_members fuel' r'' (set (fst k) (fst v) acc)
                | String "}" r'' => Ok (JObj (set (fst k) (fst v) acc), r'')
                | _ => Throw unexpected
                end
            | _ => Throw unexpected
            end
          else Throw unexpected
      | EmptyString => Throw "Unexpected end of JSON input"
      end
  end
with parse_elements (fuel : nat) (s : string) (acc : list json)
                    {struct fuel} : result (json * string) :=
  match fuel with
  | 0 => Throw "out of fuel"
  | S fuel' =>
      v <- parse_value fuel' s ;;
      match skip_ws (snd v) with
      | String "," r => parse_elements fuel' r (acc ++ [fst v])
      | String "]" r => Ok (JArr (acc ++ [fst v]), r)
      | _ => Throw unexpected
      end
  end.

Definition parse (text : string) : result json :=
  v <- parse_value (S (String.length text)) text ;;
  match skip_ws (snd v) with
  | EmptyString => Ok (fst v)
  | _ => Throw unexpected
  end.

Definition hex_digit (n : nat) : ascii :=
  if n <? 10 then ascii_of_nat (48 + n) else ascii_of_nat (87 + n).

Fixpoint escape (s : string) : string :=
  match s with
  | EmptyString => EmptyString
  | String c s' =>
      let n := nat_of_ascii c in
      (if Ascii.eqb c DQ then str1 BACKSLASH +++ dq
       else if Ascii.eqb c BACKSLASH then str1 BACKSLASH +++ str1 BACKSLASH
       else if n =? 10 then str1 BACKSLASH +++ "n"
       else if n =? 13 then str1 BACKSLASH +++ "r"
       else if n =? 9 then str1 BACKSLASH +++ "t"
       else if n =? 8 then str1 BACKSLASH +++ "b"
       else if n =? 12 then str1 BACKSLASH +++ "f"
       else if n <? 32 then
         str1 BACKSLASH +++ "u00" +++ str1 (hex_digit (n / 16))
         +++ str1 (hex_digit (n mod 16))
       else str1 c) +++ escape s'
  end.

Definition quoted (s : string) : string := dq +++ escape s +++ dq.

Fixpoint spaces (n : nat) : string :=
  match n with
  | 0 => EmptyString
  | S n' => String " " (spaces n')
  end.

(** [JSON.stringify (v, null, n)] at the indentation [current]; [gap] is
    the [n] spaces of one level. *)
Fixpoint write (gap current : string) (v : json) : string :=
  let inner := current +++ gap in
  let open_sep :=
    match gap with EmptyString => EmptyString | _ => str1 LF +++ inner end in
  let item_sep :=
    match gap with EmptyString => "," | _ => "," +++ str1 LF +++ inner end in
  let close_sep :=
    match gap with EmptyString => EmptyString | _ => str1 LF +++ current end in
  let colon :=
    match gap with EmptyString => ":" | _ => ": " end in
  match v with
  | JNull => "null"
  | JBool true => "true"
  | JBool false => "false"
  | JNum n => string_of_Z n
  | JStr s => quoted s
  | JArr [] => "[]"
  | JArr l =>
      "[" +++ open_sep +++ join item_sep (map (write gap inner) l)
      +++ close_sep +++ "]"
  | JObj [] => "{}"
  | JObj o =>
      "{" +++ open_sep
      +++ join item_sep
            (map (fun entry : string * json =>
                    quoted (fst entry) +++ colon +++ write gap inner (snd entry))
                 o)
      +++ close_sep +++ "}"
  end.

Definition stringify (v : json) (indent : nat) : string :=
  write (spaces (Nat.min indent 10)) EmptyString v.

(** [n > s]: the string is read as an integer; the empty string is 0 and
    anything else is NaN. *)
Definition gt_string (n : Z) (s : string) : bool :=
  match trim s with
  | EmptyString => (0 <? n)%Z
  | t =>
      match NilZero.int_of_string t with
      | Some i => (Z.of_int i <? n)%Z
      | None => false
      end
  end.

Definition runtime : JsRuntime :=
  {| JSON_parse := parse;
     JSON_stringify := stringify;
     number_gt_string := gt_string |}.

End ReferenceRuntime.
(** * Vocabulary of the statements about the parser *)

Module ParserSpec.

(** Every character of [s] satisfies [p]. *)
Fixpoint all_chars (p : ascii -> bool) (s : string) : bool :=
  match s with
  | EmptyString => true
  | String c s' => p c && all_chars p s'
  end.

(** [n] times the character [c]. *)
Fixpoint run (c : ascii) (n : nat) : string :=
  match n with
  | 0 => EmptyString
  | S n' => String c (run c n')
  end.

(** A marker line with a label: seven times [mark], a space, and a label
    of at least one character on the same line. *)
Definition labelled_marker (mark : ascii) (l : string) : Prop :=
  exists label,
    l = run mark 7 +++ " " +++ label
    /\ label <> EmptyString
    /\ all_chars (fun c => negb (is_line_terminator c)) label = true.

(** The grammar of the three markers that carry a label. *)
Definition LABELLED (mark : ascii) : regex :=
  Seq Bol (Seq (Rep 7 (Chr mark))
    (Seq (Chr " ") (Seq (Grp 1 (Plus Dot)) Eol))).

(** How many lines of [ls] are markers of grammar [r]. *)
Definition count_lines (r : regex) (ls : list string) : nat :=
  List.length (filter (test r) ls).

(** The lines a section spans, end marker included. *)
Definition section_lines (lines : list string) (c : ConflictSection)
  : list string :=
  slice lines (startLine c) (endLine c + 1).

Definition not_marker (r : regex) (l : string) : Prop := test r l = false.

(** No line after the one of index [i] is a marker of grammar [r]. *)
Definition no_marker_after (r : regex) (lines : list string) (i : nat) : Prop :=
  Forall (not_marker r) (skipn (i + 1) lines).

(** Section [c1] ends before section [c2] starts. *)
Definition before (c1 c2 : ConflictSection) : Prop :=
  endLine c1 < startLine c2.

(** The sections a scan started at line [i] can produce: each one is what
    [parseConflictSection] returns at a start marker at or after the
    current line, and the scan goes on after its end marker. *)
Inductive sections_from (lines : list string)
  : nat -> list ConflictSection -> Prop :=
| sections_nil : forall i, sections_from lines i []
| sections_cons : forall i c cs,
    i <= startLine c ->
    startLine c < List.length lines ->
    test CONFLICT_START (nth (startLine c) lines EmptyString) = true ->
    parseConflictSection lines (startLine c) = Some c ->
    sections_from lines (endLine c + 1) cs ->
    sections_from lines i (c :: cs).

(** The document rebuilt in one pass from the top: the lines before a
    section are kept, the section is replaced by the lines of its
    resolution, and the pass goes on after the end marker. *)
Fixpoint rebuild (resolver : ConflictSection -> string) (lines : list string)
                 (from : nat) (cs : list ConflictSection) : list string :=
  match cs with
  | [] => skipn from lines
  | c :: cs' =>
      slice lines from (startLine c) ++ split_lines (resolver c)
      ++ rebuild resolver lines (endLine c + 1) cs'
  end.

(** What every returned section satisfies. *)
Definition well_formed_section (lines : list string) (c : ConflictSection)
  : Prop :=
  startLine c < endLine c /\
  endLine c < List.length lines /\
  test CONFLICT_START (nth (startLine c) lines EmptyString) = true /\
  test CONFLICT_END (nth (endLine c) lines EmptyString) = true /\
  count_lines CONFLICT_END (section_lines lines c) = 1 /\
  1 <= count_lines CONFLICT_MIDDLE (section_lines lines c).

(** The same with exactly one middle marker line. *)
Definition one_middle_one_end (lines : list string) (c : ConflictSection)
  : Prop :=
  startLine c < endLine c /\
  count_lines CONFLICT_MIDDLE (section_lines lines c) = 1 /\
  count_lines CONFLICT_END (section_lines lines c) = 1.

(** The marker of grammar [r] is missing between the start marker of line
    [i] and a later (nested) start marker. *)
Definition missing_before_nested_start (r : regex) (lines : list string)
                                       (i : nat) : Prop :=
  exists n, i < n /\ n < List.length lines /\
    test CONFLICT_START (nth n lines EmptyString) = true /\
    Forall (not_marker r) (slice lines (i + 1) n).

(** The candidate of line [i] is not among the sections returned. *)
Definition discarded (content : string) (i : nat) : Prop :=
  forall c, In c (parseConflicts content) -> startLine c <> i.

(** The discard rule with the nested start marker clause. *)
Definition discards_before_nested_start (content : string) : Prop :=
  forall i,
    i < List.length (split_lines content) ->
    test CONFLICT_START (nth i (split_lines content) EmptyString) = true ->
    missing_before_nested_start CONFLICT_MIDDLE (split_lines content) i
    \/ missing_before_nested_start CONFLICT_END (split_lines content) i ->
    discarded content i.

(** A document without sections comes back character for character. *)
Definition clean_text_unchanged (content : string) : Prop :=
  forall resolver,
    parseConflicts content = [] -> resolveConflicts content resolver = content.

End ParserSpec.
Import ParserSpec.

(** * Vocabulary of the statements about the resolver *)

Module ResolverSpec.

(** The loop of [deepMerge] over the properties of an object source, under a
    name. *)
Definition merge_entries
    (resolver : option (string -> json -> json -> result json))
  : list (string * json) -> list (string * json) -> result json :=
  fix loop (entries : list (string * json)) (result : list (string * json))
      {struct entries} : Js.result json :=
    match entries with
    | [] => Ok (JObj result)
    | (key, value) :: entries' =>
        match value with
        | JObj _ =>
            merged <- deepMerge resolver (lookup key result) value ;;
            loop entries' (set key merged result)
        | _ =>
            match resolver, lookup key result with
            | Some resolve, Some current =>
                resolved <- resolve key current value ;;
                loop entries' (set key resolved result)
            | _, _ => loop entries' (set key value result)
            end
        end
    end.

(** The value found by following property names from the top of a
    document. *)
Fixpoint at_path (v : json) (path : list string) : option json :=
  match path with
  | [] => Some v
  | k :: path' =>
      match v with
      | JObj o =>
          match lookup k o with
          | Some v' => at_path v' path'
          | None => None
          end
      | _ => None
      end
  end.

(** No property name occurs twice in the objects met along a path; so are
    the objects [JSON.parse] returns. *)
Fixpoint unique_along (v : json) (path : list string) : Prop :=
  match path, v with
  | k :: path', JObj o =>
      NoDup (map fst o)
      /\ match lookup k o with
         | Some v' => unique_along v' path'
         | None => True
         end
  | _, _ => True
  end.

(** The two callbacks answer theirs for a value that is not of type
    object. *)
Definition theirs_on_leaves (resolver : string -> json -> json -> result json)
  : Prop :=
  forall key current value,
    typeof_object value = false -> resolver key current value = Ok value.



(** [JSON.parse] gives an object for a text that starts with a brace, as
    the grammar of JSON has it. *)
Definition parses_objects (rt : JsRuntime) : Prop :=
  forall text v,
    startsWith "{" text = true -> JSON_parse rt text = Ok v ->
    exists o, v = JObj o.



(** A property name that objects do not inherit from [Object.prototype]. *)
Definition ordinary_key (k : string) : bool :=
  negb (existsb (String.eqb k) OBJECT_PROTOTYPE_NAMES).

(** Every property name is ordinary, at any depth a merge goes to. For
    such a source the reads [result[key]] and the tests [key in result] of
    the merge see own properties only, and its writes make own
    properties. *)
Fixpoint ordinary_keys (v : json) : bool :=
  match v with
  | JObj o =>
      forallb (fun entry : string * json =>
                 ordinary_key (fst entry) && ordinary_keys (snd entry)) o
  | _ => true
  end.

(** How deep objects nest. *)
Fixpoint depth (v : json) : nat :=
  match v with
  | JObj o => S (fold_right (fun entry d => Nat.max (depth (snd entry)) d) 0 o)
  | _ => 0
  end.

(** The text [parseJSONFragment] gives to [JSON.parse]: the trimmed
    fragment when braces delimit it, the trimmed fragment put in braces
    when they do not. *)
Definition json_text (fragment : string) : string :=
  let trimmed := trim fragment in
  if startsWith "{" trimmed && endsWith "}" trimmed then trimmed
  else "{" +++ trimmed +++ "}".

(** The text [parseJSFragment] gives to [parseJSONFragment]: double quotes
    for single ones, bare keys quoted, the comma before a closing brace or
    bracket on the next line and a final semicolon taken away. *)
Definition normalise (fragment : string) : string :=
  replace_all FINAL_SEMICOLON (const EmptyString)
    (replace_all TRAILING_COMMA_BRACKET (const "]")
       (replace_all TRAILING_COMMA_BRACE (const "}")
          (replace_all BARE_KEY quote_key
             (replace_all SINGLE_QUOTE (const dq) (trim fragment))))).

(** What the smart strategy uses for a file name: what it does to a
    fragment before reading it with [parseJSONFragment], and the callback
    of the merge. *)
Inductive smart_format (rt : JsRuntime) (fileName : string)
  : (string -> string) -> (string -> json -> json -> result json) -> Prop :=
| format_meta :
    fileName = "meta.json" ->
    smart_format rt fileName (fun fragment => fragment) (metaResolver rt)
| format_dictionary :
    fileName <> "meta.json" ->
    startsWith "dictionary." fileName = true ->
    smart_format rt fileName normalise dictionaryResolver.

(** A fragment parses, in the words of the specification: it is structured
    data, an enclosing object wrapper being added to a bare list of keys
    and values. *)
Definition parses_as_data (rt : JsRuntime) (fragment : string) : Prop :=
  exists v, JSON_parse rt (json_text fragment) = Ok v.

(** The fallback of the smart merge with that reading of "parses": the one
    side that parses is taken as it is, and ours when neither parses. *)
Definition takes_the_side_that_parses (rt : JsRuntime)
    (options : ResolverOptions) (c : ConflictSection) (filePath : string)
  : Prop :=
  (parses_as_data rt (ours c) -> ~ parses_as_data rt (theirs c) ->
   resolveConflict rt options c filePath = ours c)
  /\ (~ parses_as_data rt (ours c) -> parses_as_data rt (theirs c) ->
      resolveConflict rt options c filePath = theirs c)
  /\ (~ parses_as_data rt (ours c) -> ~ parses_as_data rt (theirs c) ->
      resolveConflict rt options c filePath = ours c).



End ResolverSpec.
Import ResolverSpec.
(** * Vocabulary of the further statements *)

Module MoreSpec.

(** Where [resolveFile] puts the backup copy. *)
Definition backupPath (filePath uuid : string) : string :=
  filePath +++ ".backup." +++ uuid.

(** The text [resolveFile] computes for a file. *)
Definition resolvedText (rt : JsRuntime) (options : ResolverOptions)
                        (filePath content : string) : string :=
  resolveConflicts content
    (fun conflict => resolveConflict rt options conflict filePath).

(** What one turn of the loop of [deepMerge] stores under [key], for the
    value [value] of the source and the object [result] built so far: the
    merge of the two values when the value of the source is a plain object,
    the answer of the callback when it is not and [result] has the key, and
    the value of the source otherwise. *)
Definition stored_by (resolver : string -> json -> json -> result json)
    (result : list (string * json)) (key : string) (value stored : json)
  : Prop :=
  match value with
  | JObj _ => deepMerge (Some resolver) (lookup key result) value = Ok stored
  | _ =>
      match lookup key result with
      | Some current => resolver key current value = Ok stored
      | None => stored = value
      end
  end.

(** No property name occurs twice in an object, at any depth reached
    through objects; so are the values [JSON.parse] returns. *)
Fixpoint deep_unique (v : json) : Prop :=
  match v with
  | JObj o =>
      NoDup (map fst o)
      /\ (fix all (l : list (string * json)) : Prop :=
            match l with
            | [] => True
            | entry :: l' => deep_unique (snd entry) /\ all l'
            end) o
  | _ => True
  end.

(** The text with every CR LF pair turned into LF. *)
Fixpoint crlf_to_lf (s : string) : string :=
  match s with
  | EmptyString => EmptyString
  | String c s' =>
      if Ascii.eqb c CR then
        match s' with
        | String c' _ => if Ascii.eqb c' LF then crlf_to_lf s'
                         else String c (crlf_to_lf s')
        | EmptyString => String c EmptyString
        end
      else String c (crlf_to_lf s')
  end.

(** The text of the lines of index [a <= i < b]. *)
Definition text_of_lines (lines : list string) (a b : nat) : string :=
  join (str1 LF) (slice lines a b).

(** The options of the command with [--dry-run] given. *)
Definition with_dry_run (options : MergeResolve.MergeResolveOptions)
  : MergeResolve.MergeResolveOptions :=
  {| MergeResolve.dryRun := Some true;
     MergeResolve.files := MergeResolve.files options;
     MergeResolve.strategy := MergeResolve.strategy options;
     MergeResolve.verbose := MergeResolve.verbose options;
     MergeResolve.backup := MergeResolve.backup options |}.

(** The state in which the loop of the command starts. *)
Definition starting (found : list MergeResolve.Output)
                    (fs : FileSystem) : MergeResolve.Progress :=
  {| MergeResolve.resolvedCount := 0;
     MergeResolve.failedCount := 0;
     MergeResolve.printed := found;
     MergeResolve.disk := fs |}.

(** Whether the search for the markers of a candidate succeeds on the
    lines that follow its start marker: a middle marker line comes before
    the first end marker line. *)
Fixpoint closes (hasMiddle : bool) (ls : list string) : bool :=
  match ls with
  | [] => false
  | l :: ls' =>
      if test CONFLICT_MIDDLE l then closes true ls'
      else if test CONFLICT_END l then hasMiddle
      else closes hasMiddle ls'
  end.

(** The run of the loop of [parseConflicts] from line [i] on, with the
    sections it returns: a line is passed when it is not a start marker or
    when its candidate is discarded, and the loop goes on after the end
    marker of a section. *)
Inductive parsed_from (lines : list string)
  : nat -> list ConflictSection -> Prop :=
| parsed_end : forall i, List.length lines <= i -> parsed_from lines i []
| parsed_skip : forall i cs,
    i < List.length lines ->
    test CONFLICT_START (nth i lines EmptyString) = false
    \/ parseConflictSection lines i = None ->
    parsed_from lines (i + 1) cs ->
    parsed_from lines i cs
| parsed_section : forall i c cs,
    i < List.length lines ->
    test CONFLICT_START (nth i lines EmptyString) = true ->
    parseConflictSection lines i = Some c ->
    parsed_from lines (endLine c + 1) cs ->
    parsed_from lines i (c :: cs).

(** A line without a line terminator, and a text without CR. *)
Definition plain_line (l : string) : Prop :=
  all_chars (fun c => negb (is_line_terminator c)) l = true.

Definition no_cr (s : string) : Prop :=
  all_chars (fun c => negb (Ascii.eqb c CR)) s = true.

(** No start marker line of [ls] is followed by lines on which the search
    for its markers succeeds. *)
Definition no_candidate_closes (ls : list string) : Prop :=
  forall pre l post,
    ls = pre ++ l :: post -> test CONFLICT_START l = true ->
    closes false post = false.

End MoreSpec.
Import MoreSpec.
(** * Sample documents *)

Definition unlines (ls : list string) : string := join (str1 LF) ls.

Definition rt0 : JsRuntime := ReferenceRuntime.runtime.

(** A start marker that nothing closes. *)
Definition unclosed_doc : string :=
  unlines ["<<<<<<< HEAD"; "ours"; "tail"].

(** A start marker nested in the ours part of another candidate. *)
Definition nested_doc : string :=
  unlines ["<<<<<<< outer"; "x"; "<<<<<<< inner"; "o"; "=======";
           "t"; ">>>>>>> inner"].

(** Two middle marker lines in one section. *)
Definition two_middles_doc : string :=
  unlines ["<<<<<<< HEAD"; "a"; "======="; "b"; "======="; "c";
           ">>>>>>> branch"].

(** Two lines separated by CR LF, no marker. *)
Definition crlf_doc : string :=
  "a" +++ str1 CR +++ str1 LF +++ "b".

(** Sample texts are written with ['] where the document has a double
    quote. *)
Fixpoint qq (s : string) : string :=
  match s with
  | EmptyString => EmptyString
  | String c s' => String (if Ascii.eqb c "'" then DQ else c) (qq s')
  end.

(** The conflicted documents of the test suite ([merge-resolver.spec.ts]),
    with a whole number for the version and without accents. *)
Definition mockSimpleConflict : string := qq (unlines [
  "";
  "{";
  "  'version': 1,";
  "<<<<<<< HEAD";
  "  'ours': true";
  "=======";
  "  'theirs': true";
  ">>>>>>> branch";
  "}"]).

Definition mockMetaConflict : string := qq (unlines [
  "{";
  "  'version': 1,";
  "  'files': {";
  "    'App.tsx': {";
  "      'scopes': {";
  "<<<<<<< HEAD";
  "        'existing-scope': {";
  "          'type': 'element',";
  "          'hash': 'old-hash',";
  "          'content': 'Old content'";
  "        },";
  "        'our-scope': {";
  "          'type': 'element', ";
  "          'hash': 'our-hash',";
  "          'content': 'Our content'";
  "        }";
  "=======";
  "        'existing-scope': {";
  "          'type': 'element',";
  "          'hash': 'new-hash',";
  "          'content': 'Updated content with more details'";
  "        },";
  "        'their-scope': {";
  "          'type': 'element',";
  "          'hash': 'their-hash', ";
  "          'content': 'Their content'";
  "        }";
  ">>>>>>> branch";
  "      }";
  "    }";
  "  }";
  "}"]).

Definition mockDictionaryConflict : string := qq (unlines [
  "export default {";
  "  version: 1,";
  "  files: {";
  "    'App.tsx': {";
  "      entries: {";
  "<<<<<<< HEAD";
  "        'scope-1': {";
  "          content: {";
  "            en: 'English',";
  "            es: 'Espanol'";
  "          },";
  "          hash: 'hash1'";
  "        }";
  "=======";
  "        'scope-1': {";
  "          content: {";
  "            en: 'English Updated',";
  "            fr: 'Francais'";
  "          },";
  "          hash: 'hash2'";
  "        },";
  "        'scope-2': {";
  "          content: {";
  "            en: 'New entry'";
  "          },";
  "          hash: 'hash3'";
  "        }";
  ">>>>>>> branch";
  "      }";
  "    }";
  "  }";
  "};"]).

Definition section_of (oursText theirsText : string) : ConflictSection :=
  {| ours := qq oursText; theirs := qq theirsText; base := None;
     startLine := 0; endLine := 2 |}.

(** The two sides of the dictionary conflict above. *)
Definition dictionary_section : ConflictSection :=
  nth 0 (parseConflicts mockDictionaryConflict) (section_of "" "").

(** What its two sides parse to. *)
Definition dictionary_ours_entries : list (string * json) :=
  [("scope-1",
    JObj [("content", JObj [("en", JStr "English"); ("es", JStr "Espanol")]);
          ("hash", JStr "hash1")])].
Definition dictionary_theirs_entries : list (string * json) :=
  [("scope-1",
    JObj [("content",
           JObj [("en", JStr "English Updated"); ("fr", JStr "Francais")]);
          ("hash", JStr "hash2")]);
   ("scope-2",
    JObj [("content", JObj [("en", JStr "New entry")]);
          ("hash", JStr "hash3")])].

(** The metadata and the dictionary example of the specification: the
    longer content and the longer translation are those of theirs. *)
Definition spec_meta_section : ConflictSection :=
  section_of
    "'A': {'hash': 'h1241', 'content': 'short'}, 'B': {'hash': 'hb', 'content': 'b'}"
    "'A': {'hash': 'h2', 'content': 'much longer content'}, 'C': {'hash': 'hc', 'content': 'c'}".
Definition spec_dictionary_section : ConflictSection :=
  section_of
    "'greeting': {content: {en: 'Hi', es: 'Hola'}, hash: 'h1'}"
    "'greeting': {content: {en: 'Hello there', fr: 'Bonjour'}, hash: 'h2'}".

(** A scope whose content is longer in ours than in theirs. *)
Definition ours_scope : json :=
  JObj [("hash", JStr "h1"); ("content", JStr "much longer content")].
Definition theirs_scope : json :=
  JObj [("hash", JStr "h2"); ("content", JStr "short")].
Definition longer_ours_section : ConflictSection :=
  section_of "'A': {'hash': 'h1', 'content': 'much longer content'}"
             "'A': {'hash': 'h2', 'content': 'short'}".

(** An entry whose translations are longer in ours than in theirs, and
    empty in theirs for one locale. *)
Definition ours_locales : json :=
  JObj [("en", JStr "Hello there"); ("es", JStr "Hola")].
Definition theirs_locales : json :=
  JObj [("en", JStr "Hi"); ("es", JStr EmptyString)].
Definition longer_ours_entry_section : ConflictSection :=
  section_of
    "'greeting': {content: {en: 'Hello there', es: 'Hola'}, hash: 'h1'}"
    "'greeting': {content: {en: 'Hi', es: ''}, hash: 'h2'}".

(** Ours parses, theirs does not. *)
Definition one_sided_section : ConflictSection :=
  section_of "'a': 1" "no key, no value".

(** A merge that throws: the callback reads a property of [null]. *)
Definition throwing_section : ConflictSection :=
  section_of "'content': null, 'a': 1" "'content': null, 'a': 2".

(** A metadata file whose conflict resolves to something that is not
    JSON. *)
Definition broken_meta : string :=
  unlines ["{"; "<<<<<<< HEAD"; "ours"; "======="; "theirs";
           ">>>>>>> branch"; "}"].

Definition smart_options : ResolverOptions :=
  {| strategy := smart; verbose := false; dryRun := false; backup := false |}.

Definition backup_options : ResolverOptions :=
  {| strategy := smart; verbose := false; dryRun := false; backup := true |}.

(** End marker, middle marker, start marker: markers without a section. *)
Definition reversed_doc : string :=
  unlines [">>>>>>> branch"; "======="; "<<<<<<< HEAD"].


(** A section in the diff3 style, with the text of the common ancestor. *)
Definition diff3_doc : string :=
  unlines ["<<<<<<< HEAD"; "ours"; "||||||| base"; "orig"; "=======";
           "theirs"; ">>>>>>> branch"].

(** The command run with [--backup] on a disk of two files, the second
    with markers that make no section. *)
Definition backup_command : MergeResolve.MergeResolveOptions :=
  {| MergeResolve.dryRun := None; MergeResolve.files := None;
     MergeResolve.strategy := None; MergeResolve.verbose := None;
     MergeResolve.backup := Some true |}.

Definition two_files : list string :=
  ["lingo/meta.json"; "lingo/dictionary.js"].

Definition two_files_disk : FileSystem :=
  [("lingo/meta.json", mockMetaConflict);
   ("lingo/dictionary.js", reversed_doc)].

(** Ours is JSON once in braces; theirs, with its comma at the end, is
    not, and is read line by line. *)
Definition comma_section : ConflictSection :=
  section_of "'a': 2" "'a': 1,".

(** * Properties of the conflict parser *)

Module ParserFacts.

(** ** The marker grammars exclude each other *)

Lemma search_bol_later (A : Type) (r : regex) (k : nat -> mstate -> option A) :
  forall s p, 0 < p -> search (Seq Bol r) p s k = None.
Proof.
  induction s as [|c s IH]; intros p Hp; simpl.
  - destruct p; [lia | reflexivity].
  - destruct p; [lia |]. simpl. apply IH. lia.
Qed.

Lemma anchored_head (c : ascii) (r1 r2 : regex) (s : string) :
  test (Seq Bol (Seq (Seq (Chr c) r1) r2)) s = true ->
  exists t, s = String c t.
Proof.
  unfold test, exec. destruct s as [|d t]; simpl; [discriminate |].
  destruct (Ascii.eqb_spec d c) as [-> | Hne]; [eauto |].
  rewrite search_bol_later by lia. discriminate.
Qed.

Lemma start_head l : test CONFLICT_START l = true -> exists t, l = String "<" t.
Proof. apply anchored_head. Qed.

Lemma middle_head l : test CONFLICT_MIDDLE l = true -> exists t, l = String "=" t.
Proof. apply anchored_head. Qed.

Lemma base_head l : test CONFLICT_BASE l = true -> exists t, l = String "|" t.
Proof. apply anchored_head. Qed.

Lemma end_head l : test CONFLICT_END l = true -> exists t, l = String ">" t.
Proof. apply anchored_head. Qed.

Ltac heads :=
  repeat match goal with
    | H : test CONFLICT_START _ = true |- _ => apply start_head in H; destruct H
    | H : test CONFLICT_MIDDLE _ = true |- _ => apply middle_head in H; destruct H
    | H : test CONFLICT_BASE _ = true |- _ => apply base_head in H; destruct H
    | H : test CONFLICT_END _ = true |- _ => apply end_head in H; destruct H
    end; congruence.

Lemma start_not_middle l : test CONFLICT_START l = true -> test CONFLICT_MIDDLE l = false.
Proof. intros H. destruct (test CONFLICT_MIDDLE l) eqn:E; [heads | reflexivity]. Qed.

Lemma start_not_end l : test CONFLICT_START l = true -> test CONFLICT_END l = false.
Proof. intros H. destruct (test CONFLICT_END l) eqn:E; [heads | reflexivity]. Qed.

Lemma middle_not_end l : test CONFLICT_MIDDLE l = true -> test CONFLICT_END l = false.
Proof. intros H. destruct (test CONFLICT_END l) eqn:E; [heads | reflexivity]. Qed.

Lemma base_not_end l : test CONFLICT_BASE l = true -> test CONFLICT_END l = false.
Proof. intros H. destruct (test CONFLICT_END l) eqn:E; [heads | reflexivity]. Qed.

Lemma end_not_start l : test CONFLICT_END l = true -> test CONFLICT_START l = false.
Proof. intros H. destruct (test CONFLICT_START l) eqn:E; [heads | reflexivity]. Qed.

Lemma end_not_middle l : test CONFLICT_END l = true -> test CONFLICT_MIDDLE l = false.
Proof. intros H. destruct (test CONFLICT_MIDDLE l) eqn:E; [heads | reflexivity]. Qed.

(** ** What the marker grammars accept *)

Lemma test_anchored (r : regex) (s : string) :
  test (Seq Bol r) s = true
  <-> rmatch r (MState 0 s []) (fun st => Some (0, st)) <> None.
Proof.
  unfold test, exec. destruct s as [|c s]; simpl.
  - destruct (rmatch r _ _); split; congruence.
  - destruct (rmatch r _ _) eqn:E; [split; congruence |].
    rewrite search_bol_later by lia. split; congruence.
Qed.

Lemma rmatch_chr (A : Type) (c : ascii) (tail : regex) (st : mstate)
                 (k : mstate -> option A) :
  rmatch (Seq (Chr c) tail) st k <> None
  <-> exists s', rest st = String c s' /\ rmatch tail (advance st s') k <> None.
Proof.
  simpl. destruct (rest st) as [|d s1].
  - split; [congruence | intros (s' & H & _); discriminate].
  - destruct (Ascii.eqb_spec d c) as [-> | Hne].
    + split; [eauto | intros (s' & H & Hm); inversion H; now subst].
    + split; [congruence | intros (s' & H & _); congruence].
Qed.

Lemma rmatch_rep (A : Type) (c : ascii) (tail : regex) :
  forall n st (k : mstate -> option A),
    rmatch (Seq (Rep n (Chr c)) tail) st k <> None
    <-> exists s', rest st = run c n +++ s'
          /\ rmatch tail (MState (pos st + n) s' (caps st)) k <> None.
Proof.
  induction n as [|n IH]; intros st k.
  - destruct st as [p s cs]. simpl. rewrite Nat.add_0_r. split.
    + intros H. exists s. auto.
    + intros (s' & -> & H). exact H.
  - change (rmatch (Seq (Rep (S n) (Chr c)) tail) st k)
      with (rmatch (Seq (Chr c) (Seq (Rep n (Chr c)) tail)) st k).
    rewrite rmatch_chr. split.
    + intros (s1 & Hrest & Hm). apply IH in Hm as (s' & Hs1 & Hm).
      exists s'. simpl in Hs1, Hm. subst s1. split; [exact Hrest |].
      now rewrite Nat.add_succ_r.
    + intros (s' & Hrest & Hm). exists (run c n +++ s').
      split; [exact Hrest |]. apply IH. exists s'. simpl.
      split; [reflexivity |]. now rewrite Nat.add_succ_r in Hm.
Qed.

(** A greedy repetition of one character class in front of a continuation
    that wants the end of the input. *)
Lemma star_class_to_end (A : Type) (q : ascii -> bool)
    (step : mstate -> (mstate -> option A) -> option A)
    (K : mstate -> option A) :
  (forall st k,
     step st k = match rest st with
                 | String d s' => if q d then k (advance st s') else None
                 | EmptyString => None
                 end) ->
  (forall st, K st <> None <-> rest st = EmptyString) ->
  forall n st,
    String.length (rest st) <= n ->
    (star_loop step K n st <> None <-> all_chars q (rest st) = true).
Proof.
  intros Hstep HK. induction n as [|n IH]; intros [p s cs] Hlen;
    cbn [rest] in *.
  - destruct s; [| simpl in Hlen; lia]. cbn [star_loop all_chars].
    rewrite HK. cbn [rest]. tauto.
  - cbn [star_loop]. rewrite Hstep. cbn [rest pos advance].
    destruct s as [|d s]; cbn [all_chars].
    + rewrite HK. cbn [rest]. tauto.
    + destruct (q d); cbn [andb].
      * rewrite (proj2 (Nat.ltb_lt p (S p))) by lia.
        change (advance (MState p (String d s) cs) s)
          with (MState (S p) s cs).
        specialize (IH (MState (S p) s cs)). cbn [rest] in IH.
        simpl in Hlen.
        destruct (star_loop step K n (MState (S p) s cs)) eqn:El.
        -- split; [| congruence]. intros _. apply IH; [lia | congruence].
        -- rewrite HK. cbn [rest]. split; [congruence |].
           intros Hall. apply IH in Hall; [congruence | lia].
      * rewrite HK. cbn [rest]. split; congruence.
Qed.

Lemma plus_dot_eol (A : Type) (st : mstate) (k : mstate -> option A) :
  (forall st', k st' <> None) ->
  (rmatch (Seq (Grp 1 (Plus Dot)) Eol) st k <> None
   <-> rest st <> EmptyString
       /\ all_chars (fun c => negb (is_line_terminator c)) (rest st) = true).
Proof.
  intros Hk. destruct st as [p s cs].
  change (rmatch (Seq (Grp 1 (Plus Dot)) Eol) (MState p s cs) k)
    with (match s with
          | String d s' =>
              if negb (is_line_terminator d)
              then star_loop (rmatch Dot)
                     (fun st' => rmatch Eol (capture 1 (MState p s cs) st') k)
                     (String.length s') (MState (S p) s' cs)
              else None
          | EmptyString => None
          end).
  cbn [rest]. destruct s as [|d s'].
  - split; [congruence | intros [H _]; congruence].
  - cbn [all_chars]. destruct (negb (is_line_terminator d)); cbn [andb].
    + rewrite (star_class_to_end A (fun c => negb (is_line_terminator c)));
        cbn [rest].
      * split; [intros H; split; [discriminate | exact H] | tauto].
      * intros st0 k0. reflexivity.
      * intros st'. cbn [rmatch capture rest].
        destruct (rest st'); [| split; congruence].
        split; [reflexivity | intros _; apply Hk].
      * lia.
    + split; [congruence | intros [_ H]; discriminate].
Qed.

(** The grammar of a marker with a label accepts a line exactly when it is
    seven times the mark, a space, and a label that is not empty. *)
Lemma labelled_marker_iff (mark : ascii) (l : string) :
  test (LABELLED mark) l = true <-> labelled_marker mark l.
Proof.
  unfold LABELLED, labelled_marker. rewrite test_anchored, rmatch_rep.
  cbn [rest pos caps]. split.
  - intros (s' & -> & Hm). apply rmatch_chr in Hm as (label & Hs' & Hm).
    cbn [rest] in Hs'. subst s'.
    apply plus_dot_eol in Hm as [Hne Hall]; [| congruence].
    exists label. auto.
  - intros (label & -> & Hne & Hall). exists (" " +++ label).
    split; [reflexivity |]. apply rmatch_chr. exists label.
    split; [reflexivity |]. apply plus_dot_eol; [congruence |]. auto.
Qed.

Lemma start_marker_iff l :
  test CONFLICT_START l = true <-> labelled_marker "<" l.
Proof. apply labelled_marker_iff. Qed.

Lemma base_marker_iff l :
  test CONFLICT_BASE l = true <-> labelled_marker "|" l.
Proof. apply labelled_marker_iff. Qed.

Lemma end_marker_iff l :
  test CONFLICT_END l = true <-> labelled_marker ">" l.
Proof. apply labelled_marker_iff. Qed.

(** The middle marker is the line of seven equal signs. *)
Lemma middle_marker_iff l : test CONFLICT_MIDDLE l = true <-> l = "=======".
Proof.
  unfold CONFLICT_MIDDLE. rewrite test_anchored, rmatch_rep.
  cbn [rest pos caps]. split.
  - intros (s' & -> & Hm). simpl in Hm. destruct s'; [reflexivity | congruence].
  - intros ->. exists EmptyString. split; [reflexivity |]. simpl. congruence.
Qed.

(** ** The scan of one candidate section *)

Lemma scan_end_some : forall ls i m b m' b' e,
  scan ls i m b = (m', b', Some e) ->
  exists pre l post,
    ls = pre ++ l :: post /\ e = i + List.length pre /\
    test CONFLICT_END l = true /\ Forall (not_marker CONFLICT_END) pre.
Proof.
  induction ls as [|x ls IH]; intros i m b m' b' e H; simpl in H.
  - discriminate.
  - destruct (test CONFLICT_MIDDLE x && _) eqn:Em.
    { apply andb_prop in Em as [Em _].
      apply IH in H as (pre & l & post & -> & -> & Hl & Hpre).
      exists (x :: pre), l, post. repeat split; simpl; auto; try lia.
      constructor; [apply middle_not_end, Em | exact Hpre]. }
    destruct (test CONFLICT_BASE x && _) eqn:Eb.
    { apply andb_prop in Eb as [Eb _].
      apply IH in H as (pre & l & post & -> & -> & Hl & Hpre).
      exists (x :: pre), l, post. repeat split; simpl; auto; try lia.
      constructor; [apply base_not_end, Eb | exact Hpre]. }
    destruct (test CONFLICT_END x) eqn:Ee.
    { inversion H; subst. exists [], x, ls. repeat split; simpl; auto. }
    apply IH in H as (pre & l & post & -> & -> & Hl & Hpre).
    exists (x :: pre), l, post. repeat split; simpl; auto; try lia.
Qed.

Lemma scan_end_none : forall ls i m b m' b',
  scan ls i m b = (m', b', None) -> Forall (not_marker CONFLICT_END) ls.
Proof.
  induction ls as [|x ls IH]; intros i m b m' b' H; simpl in H.
  - constructor.
  - destruct (test CONFLICT_MIDDLE x && _) eqn:Em.
    { apply andb_prop in Em as [Em _].
      constructor; [apply middle_not_end, Em | eapply IH, H]. }
    destruct (test CONFLICT_BASE x && _) eqn:Eb.
    { apply andb_prop in Eb as [Eb _].
      constructor; [apply base_not_end, Eb | eapply IH, H]. }
    destruct (test CONFLICT_END x) eqn:Ee; [discriminate |].
    constructor; [exact Ee | eapply IH, H].
Qed.

(** Once found, the middle index is kept. *)
Lemma scan_middle_kept : forall ls i mi b m' b' e',
  scan ls i (Some mi) b = (m', b', e') -> m' = Some mi.
Proof.
  induction ls as [|x ls IH]; intros i mi b m' b' e' H; simpl in H.
  - congruence.
  - rewrite andb_false_r in H.
    destruct (test CONFLICT_BASE x && _); [eapply IH, H |].
    destruct (test CONFLICT_END x); [congruence | eapply IH, H].
Qed.

Lemma scan_middle_some : forall ls i b mi b' e',
  scan ls i None b = (Some mi, b', e') ->
  exists pre l post,
    ls = pre ++ l :: post /\ mi = i + List.length pre /\
    test CONFLICT_MIDDLE l = true /\
    Forall (not_marker CONFLICT_MIDDLE) pre /\
    (forall e, e' = Some e -> mi < e).
Proof.
  induction ls as [|x ls IH]; intros i b mi b' e' H; simpl in H.
  - discriminate.
  - rewrite andb_true_r in H.
    destruct (test CONFLICT_MIDDLE x) eqn:Em.
    { pose proof (scan_middle_kept _ _ _ _ _ _ _ H) as Hk. inversion Hk; subst mi.
      exists [], x, ls. repeat split; simpl; auto.
      intros e ->. apply scan_end_some in H as (pre & l & post & _ & -> & _).
      lia. }
    destruct (test CONFLICT_BASE x && _).
    { apply IH in H as (pre & l & post & -> & -> & Hl & Hpre & He).
      exists (x :: pre), l, post. repeat split; simpl; auto; try lia;
        try (intros e Hee; specialize (He e Hee); lia). }
    destruct (test CONFLICT_END x); [discriminate |].
    apply IH in H as (pre & l & post & -> & -> & Hl & Hpre & He).
    exists (x :: pre), l, post. repeat split; simpl; auto; try lia;
      try (intros e Hee; specialize (He e Hee); lia).
Qed.

(** No middle marker among the lines left: no middle index. *)
Lemma scan_no_middle : forall ls i m b m' b' e',
  Forall (not_marker CONFLICT_MIDDLE) ls ->
  scan ls i m b = (m', b', e') -> m' = m.
Proof.
  induction ls as [|x ls IH]; intros i m b m' b' e' Hall H; simpl in H.
  - congruence.
  - inversion Hall as [|? ? Hx Hls]; subst. red in Hx. rewrite Hx in H.
    simpl in H.
    destruct (test CONFLICT_BASE x && _); [eapply IH; eauto |].
    destruct (test CONFLICT_END x); [congruence | eapply IH; eauto].
Qed.

(** ** One candidate section *)

Lemma count_lines_none r ls :
  Forall (not_marker r) ls -> count_lines r ls = 0.
Proof.
  unfold count_lines. induction 1 as [|x ls Hx _ IH]; simpl; [reflexivity |].
  red in Hx. rewrite Hx. exact IH.
Qed.

Lemma count_lines_app r l1 l2 :
  count_lines r (l1 ++ l2) = count_lines r l1 + count_lines r l2.
Proof. unfold count_lines. now rewrite filter_app, length_app. Qed.

Lemma count_lines_in r x ls :
  In x ls -> test r x = true -> 1 <= count_lines r ls.
Proof.
  intros Hin Hx. unfold count_lines.
  assert (Hf : In x (filter (test r) ls)) by (apply filter_In; auto).
  destruct (filter (test r) ls); [contradiction | simpl; lia].
Qed.

(** What a returned section is made of. *)
Lemma parseConflictSection_some lines s c :
  parseConflictSection lines s = Some c ->
  startLine c = s /\
  exists pre l post,
    skipn (s + 1) lines = pre ++ l :: post /\
    endLine c = s + 1 + List.length pre /\
    test CONFLICT_END l = true /\
    Forall (not_marker CONFLICT_END) pre /\
    1 <= count_lines CONFLICT_MIDDLE pre.
Proof.
  unfold parseConflictSection.
  destruct (scan (skipn (s + 1) lines) (s + 1) None None)
    as [[m b] e] eqn:Hscan.
  destruct m as [mi|]; [| discriminate].
  destruct e as [e|]; [| discriminate].
  intros H. inversion H; subst c; clear H. simpl. split; [reflexivity |].
  pose proof Hscan as Hmid. apply scan_middle_some in Hmid
    as (pre1 & lm & post1 & Hls1 & Hmi & Hlm & _ & Hlt).
  specialize (Hlt e eq_refl).
  apply scan_end_some in Hscan as (pre & l & post & Hls & He & Hl & Hpre).
  exists pre, l, post. repeat split; auto.
  assert (Hlen : List.length pre1 < List.length pre) by lia.
  assert (Hnth : nth (List.length pre1) pre EmptyString = lm).
  { rewrite <- (app_nth1 pre (l :: post) EmptyString Hlen), <- Hls, Hls1.
    apply nth_middle. }
  apply count_lines_in with (x := lm); [| exact Hlm].
  rewrite <- Hnth. apply nth_In, Hlen.
Qed.

Lemma skipn_cons_nth (lines : list string) i :
  i < List.length lines ->
  skipn i lines = nth i lines EmptyString :: skipn (i + 1) lines.
Proof.
  revert i. induction lines as [|x lines IH]; intros i Hi; simpl in *.
  - lia.
  - destruct i; simpl; [reflexivity |]. apply IH. lia.
Qed.

Lemma section_lines_shape lines c pre l post :
  startLine c < List.length lines ->
  skipn (startLine c + 1) lines = pre ++ l :: post ->
  endLine c = startLine c + 1 + List.length pre ->
  section_lines lines c = nth (startLine c) lines EmptyString :: pre ++ [l].
Proof.
  intros Hs Hskip He. unfold section_lines, slice.
  rewrite (skipn_cons_nth _ _ Hs), Hskip, He.
  replace (startLine c + 1 + List.length pre + 1 - startLine c)
    with (S (List.length pre + 1)) by lia.
  simpl. f_equal.
  replace (pre ++ l :: post) with ((pre ++ [l]) ++ post)
    by (rewrite <- app_assoc; reflexivity).
  rewrite firstn_app.
  replace (List.length pre + 1 - List.length (pre ++ [l])) with 0
    by (rewrite length_app; simpl; lia).
  rewrite firstn_all2 by (rewrite length_app; simpl; lia).
  simpl. apply app_nil_r.
Qed.

Lemma end_line_is_end (lines : list string) s pre l post :
  skipn (s + 1) lines = pre ++ l :: post ->
  nth (s + 1 + List.length pre) lines EmptyString = l
  /\ s + 1 + List.length pre < List.length lines.
Proof.
  intros Hskip.
  assert (Hl : List.length (skipn (s + 1) lines) = List.length lines - (s + 1))
    by apply length_skipn.
  rewrite Hskip, length_app in Hl. simpl in Hl. split; [| lia].
  rewrite <- (firstn_skipn (s + 1) lines) at 1.
  rewrite app_nth2; rewrite length_firstn; [| lia].
  replace (s + 1 + List.length pre - Nat.min (s + 1) (List.length lines))
    with (List.length pre) by lia.
  rewrite Hskip. apply nth_middle.
Qed.

(** ** The loop of [parseConflicts] *)

Lemma parseLoop_spec : forall fuel lines i acc res,
  parseLoop fuel lines i acc = Some res ->
  exists new, res = acc ++ new /\ sections_from lines i new.
Proof.
  induction fuel as [|fuel IH]; intros lines i acc res H; simpl in H;
    destruct (i <? List.length lines) eqn:Hi; try discriminate;
    try (inversion H; subst; exists []; split;
         [symmetry; apply app_nil_r | constructor]).
  apply Nat.ltb_lt in Hi.
  destruct (test CONFLICT_START (nth i lines EmptyString)) eqn:Hstart.
  - destruct (parseConflictSection lines i) as [c|] eqn:Hc.
    + apply IH in H as (new & -> & Hnew).
      pose proof Hc as Hsome.
      apply parseConflictSection_some in Hsome as [Hs _].
      exists (c :: new). split; [rewrite <- app_assoc; reflexivity |].
      constructor; rewrite ?Hs; auto.
    + apply IH in H as (new & -> & Hnew). exists new. split; [reflexivity |].
      inversion Hnew; subst; constructor; auto; lia.
  - apply IH in H as (new & -> & Hnew). exists new. split; [reflexivity |].
    inversion Hnew; subst; constructor; auto; lia.
Qed.

Lemma parseLoop_total : forall fuel lines i acc,
  List.length lines - i <= fuel ->
  exists res, parseLoop fuel lines i acc = Some res.
Proof.
  induction fuel as [|fuel IH]; intros lines i acc Hfuel; simpl;
    destruct (i <? List.length lines) eqn:Hi; eauto.
  - apply Nat.ltb_lt in Hi. lia.
  - apply Nat.ltb_lt in Hi.
    destruct (test CONFLICT_START (nth i lines EmptyString)).
    + destruct (parseConflictSection lines i) as [c|] eqn:Hc.
      * apply parseConflictSection_some in Hc
          as (Hs & pre & l & post & _ & He & _).
        apply IH. lia.
      * apply IH. lia.
    + apply IH. lia.
Qed.

Lemma parseLines_sections lines : sections_from lines 0 (parseLines lines).
Proof.
  unfold parseLines.
  destruct (parseLoop (List.length lines) lines 0 []) as [res|] eqn:H.
  - apply parseLoop_spec in H as (new & -> & Hnew). exact Hnew.
  - constructor.
Qed.

Lemma sections_from_in lines : forall i cs c,
  sections_from lines i cs -> In c cs ->
  parseConflictSection lines (startLine c) = Some c
  /\ startLine c < List.length lines
  /\ test CONFLICT_START (nth (startLine c) lines EmptyString) = true.
Proof.
  intros i cs c H. induction H as [|i c' cs Hle Hlt Hst Hc Hcs IH]; intros Hin.
  - contradiction.
  - destruct Hin as [-> | Hin]; auto.
Qed.

Lemma section_well_formed lines c :
  startLine c < List.length lines ->
  test CONFLICT_START (nth (startLine c) lines EmptyString) = true ->
  parseConflictSection lines (startLine c) = Some c ->
  well_formed_section lines c.
Proof.
  intros Hlt Hst Hc.
  apply parseConflictSection_some in Hc
    as (_ & pre & l & post & Hskip & He & Hl & Hpre & Hmid).
  destruct (end_line_is_end _ _ _ _ _ Hskip) as [Hnth Hlen].
  unfold well_formed_section.
  rewrite (section_lines_shape _ _ _ _ _ Hlt Hskip He), He, Hnth.
  repeat split; auto; try lia.
  - change (nth (startLine c) lines EmptyString :: pre ++ [l])
      with ([nth (startLine c) lines EmptyString] ++ pre ++ [l]).
    rewrite !count_lines_app, (count_lines_none _ _ Hpre).
    unfold count_lines. simpl. rewrite Hl, (start_not_end _ Hst). reflexivity.
  - change (nth (startLine c) lines EmptyString :: pre ++ [l])
      with ([nth (startLine c) lines EmptyString] ++ pre ++ [l]).
    rewrite !count_lines_app. lia.
Qed.

Lemma sections_from_lower lines : forall i cs,
  sections_from lines i cs -> Forall (fun c => i <= startLine c) cs.
Proof.
  intros i cs H. induction H as [|i c cs Hle Hlt Hst Hc Hcs IH]; constructor.
  - exact Hle.
  - apply parseConflictSection_some in Hc as (_ & pre & l & post & _ & He & _).
    eapply Forall_impl; [| exact IH]. simpl. intros c' Hc'. lia.
Qed.

Lemma sections_from_sorted lines : forall i cs,
  sections_from lines i cs -> StronglySorted before cs.
Proof.
  intros i cs H. induction H as [|i c cs Hle Hlt Hst Hc Hcs IH]; constructor.
  - exact IH.
  - apply sections_from_lower in Hcs.
    eapply Forall_impl; [| exact Hcs]. unfold before. simpl. intros; lia.
Qed.

(** ** Splicing from the last section to the first *)

Lemma firstn_split_at (A : Type) (l : list A) i s :
  i <= s -> firstn s l = firstn i l ++ slice l i s.
Proof.
  intros Hle. unfold slice.
  rewrite <- (firstn_skipn i l) at 1. rewrite firstn_app, firstn_firstn.
  rewrite Nat.min_r by lia. f_equal.
  rewrite length_firstn.
  destruct (Nat.le_gt_cases i (List.length l)) as [Hi | Hi].
  - rewrite Nat.min_l by lia. reflexivity.
  - rewrite skipn_all2 by lia. now rewrite !firstn_nil.
Qed.

Lemma resolveLines_cons resolver lines c cs :
  resolveLines resolver lines (c :: cs)
  = splice (resolveLines resolver lines cs) (startLine c)
           (endLine c - startLine c + 1) (split_lines (resolver c)).
Proof. unfold resolveLines. simpl. now rewrite fold_left_app. Qed.

Lemma resolveLines_rebuild resolver lines : forall i cs,
  sections_from lines i cs -> i <= List.length lines ->
  resolveLines resolver lines cs
  = firstn i lines ++ rebuild resolver lines i cs.
Proof.
  intros i cs H. induction H as [|i c cs Hle Hlt Hst Hc Hcs IH]; intros Hi.
  - simpl. symmetry. apply firstn_skipn.
  - apply parseConflictSection_some in Hc
      as (_ & pre & l & post & Hskip & He & _).
    destruct (end_line_is_end _ _ _ _ _ Hskip) as [_ Hlen]. rewrite <- He in Hlen.
    rewrite resolveLines_cons, IH by lia. simpl. unfold splice.
    replace (startLine c + (endLine c - startLine c + 1))
      with (endLine c + 1) by lia.
    rewrite firstn_app, firstn_firstn, skipn_app, length_firstn.
    rewrite (Nat.min_l (endLine c + 1)) by lia.
    rewrite Nat.min_l by lia.
    replace (startLine c - (endLine c + 1)) with 0 by lia.
    replace (endLine c + 1 - (endLine c + 1)) with 0 by lia.
    rewrite skipn_all2 by (rewrite length_firstn; lia).
    simpl. rewrite app_nil_r, (firstn_split_at _ lines _ _ Hle), <- !app_assoc.
    reflexivity.
Qed.

(** ** The loop of [hasConflictMarkers] *)

Lemma markers_fold : forall lines hs hm he sc ec,
  fold_left markers_step lines (hs, hm, he, sc, ec)
  = (hs || (0 <? count_lines CONFLICT_START lines),
     hm || (0 <? count_lines CONFLICT_MIDDLE lines),
     he || (0 <? count_lines CONFLICT_END lines),
     sc + count_lines CONFLICT_START lines,
     ec + count_lines CONFLICT_END lines).
Proof.
  unfold count_lines.
  induction lines as [|x lines IH]; intros hs hm he sc ec; simpl.
  - now rewrite !orb_false_r, !Nat.add_0_r.
  - destruct (test CONFLICT_START x) eqn:Es.
    + rewrite (start_not_middle _ Es), (start_not_end _ Es), IH. simpl.
      rewrite !orb_true_r. repeat f_equal; lia.
    + destruct (test CONFLICT_MIDDLE x) eqn:Em.
      * rewrite (middle_not_end _ Em), IH. simpl.
        rewrite !orb_true_r. reflexivity.
      * destruct (test CONFLICT_END x) eqn:Ee; rewrite IH; simpl;
          rewrite ?orb_true_r; repeat f_equal; lia.
Qed.

(** ** When the search for the markers of a candidate succeeds *)

Lemma middle_not_base l :
  test CONFLICT_MIDDLE l = true -> test CONFLICT_BASE l = false.
Proof. intros H. destruct (test CONFLICT_BASE l) eqn:E; [heads | reflexivity]. Qed.

Lemma scan_closes : forall ls i m b,
  (let '(m', _, e') := scan ls i m b in
   match m', e' with
   | Some _, Some _ => true
   | _, _ => false
   end)
  = closes (match m with Some _ => true | None => false end) ls.
Proof.
  induction ls as [|x ls IH]; intros i m b; simpl.
  - now destruct m.
  - destruct (test CONFLICT_MIDDLE x) eqn:Em.
    + rewrite (middle_not_base _ Em), (middle_not_end _ Em). simpl.
      destruct m as [mi|]; simpl; apply IH.
    + simpl. destruct (test CONFLICT_BASE x) eqn:Eb.
      * rewrite (base_not_end _ Eb).
        destruct b as [bi|]; simpl; apply IH.
      * simpl. destruct (test CONFLICT_END x); [now destruct m | apply IH].
Qed.

Lemma parseConflictSection_closes lines s :
  parseConflictSection lines s = None
  <-> closes false (skipn (s + 1) lines) = false.
Proof.
  pose proof (scan_closes (skipn (s + 1) lines) (s + 1) None None) as H.
  unfold parseConflictSection.
  destruct (scan (skipn (s + 1) lines) (s + 1) None None) as [[m b] e].
  rewrite <- H.
  destruct m as [mi|]; destruct e as [e|]; split; congruence.
Qed.

End ParserFacts.
(** * Properties of the merge *)

Module ResolverFacts.

Lemma lookup_set_same k v o : lookup k (set k v o) = Some v.
Proof.
  induction o as [|[k' v'] o IH]; simpl.
  - now rewrite String.eqb_refl.
  - destruct (String.eqb k k') eqn:E; simpl; rewrite E; auto.
Qed.

Lemma lookup_set_other k k' v o :
  k <> k' -> lookup k (set k' v o) = lookup k o.
Proof.
  intros Hne. induction o as [|[k0 v0] o IH]; simpl.
  - apply String.eqb_neq in Hne. now rewrite Hne.
  - destruct (String.eqb_spec k' k0) as [<- | Hne']; simpl.
    + apply String.eqb_neq in Hne. now rewrite Hne.
    + now rewrite IH.
Qed.

Lemma lookup_In k v o : lookup k o = Some v -> In (k, v) o.
Proof.
  induction o as [|[k' v'] o IH]; simpl; [discriminate |].
  destruct (String.eqb_spec k k') as [-> | Hne].
  - intros H. inversion H. now left.
  - intros H. right. auto.
Qed.

Lemma deepMerge_object resolver target entries :
  deepMerge resolver target (JObj entries)
  = merge_entries resolver entries (spread_object target).
Proof. reflexivity. Qed.

Lemma merge_entries_cons_object resolver key o entries result :
  merge_entries resolver ((key, JObj o) :: entries) result
  = (merged <- deepMerge resolver (lookup key result) (JObj o) ;;
     merge_entries resolver entries (set key merged result)).
Proof. reflexivity. Qed.

Section MergeLoop.
Variable R : string -> json -> json -> result json.
Hypothesis R_leaf : theirs_on_leaves R.

(** One turn of the loop. *)
Lemma merge_entries_step key value entries result merged :
  merge_entries (Some R) ((key, value) :: entries) result = Ok merged ->
  exists stored,
    merge_entries (Some R) entries (set key stored result) = Ok merged
    /\ (typeof_object value = false -> stored = value)
    /\ (forall o, value = JObj o ->
          deepMerge (Some R) (lookup key result) value = Ok stored).
Proof.
  simpl. intros H.
  assert (Hleaf :
    match lookup key result with
    | Some current =>
        resolved <- R key current value ;;
        merge_entries (Some R) entries (set key resolved result)
    | None => merge_entries (Some R) entries (set key value result)
    end = Ok merged ->
    (forall o, value <> JObj o) ->
    exists stored,
      merge_entries (Some R) entries (set key stored result) = Ok merged
      /\ (typeof_object value = false -> stored = value)
      /\ (forall o, value = JObj o ->
            deepMerge (Some R) (lookup key result) value = Ok stored)).
  { intros H' Hno.
    destruct (lookup key result) as [current|].
    - destruct (R key current value) as [resolved|e] eqn:ER;
        simpl in H'; [| discriminate].
      exists resolved. split; [exact H' |]. split.
      + intros Hv. rewrite (R_leaf key current value Hv) in ER. congruence.
      + intros o Ho. now destruct (Hno o).
    - exists value. split; [exact H' |]. split; [reflexivity |].
      intros o Ho. now destruct (Hno o). }
  destruct value as [| b | n | s | l | o];
    try (apply Hleaf; [exact H | intros o; discriminate]).
  destruct (deepMerge (Some R) (lookup key result) (JObj o)) as [m|e] eqn:EM;
    simpl in H; [| discriminate].
  exists m. split; [exact H |]. split; [discriminate |].
  intros o' _. reflexivity.
Qed.

Lemma merge_entries_other : forall entries result merged k,
  merge_entries (Some R) entries result = Ok merged ->
  ~ In k (map fst entries) ->
  exists final, merged = JObj final /\ lookup k final = lookup k result.
Proof.
  induction entries as [|[key value] entries IH]; intros result merged k H Hk.
  - simpl in H. inversion H. eauto.
  - apply merge_entries_step in H as (stored & H & _).
    simpl in Hk.
    destruct (IH _ _ k H) as (final & -> & Hf); [tauto |].
    exists final. split; [reflexivity |].
    rewrite Hf. apply lookup_set_other. intros ->. tauto.
Qed.

Lemma merge_entries_leaf : forall entries result merged k v,
  merge_entries (Some R) entries result = Ok merged ->
  NoDup (map fst entries) -> In (k, v) entries ->
  typeof_object v = false ->
  exists final, merged = JObj final /\ lookup k final = Some v.
Proof.
  induction entries as [|[key value] entries IH];
    intros result merged k v H Hnd Hin Hv; [contradiction |].
  apply merge_entries_step in H as (stored & H & Hleaf & _).
  simpl in Hnd. inversion Hnd as [|? ? Hnotin Hnd']; subst.
  destruct Hin as [Heq | Hin].
  - inversion Heq; subst key value. rewrite (Hleaf Hv) in H.
    destruct (merge_entries_other _ _ _ k H Hnotin) as (final & -> & Hf).
    exists final. split; [reflexivity |].
    rewrite Hf. apply lookup_set_same.
  - eapply IH; eauto.
Qed.

Lemma merge_entries_nested : forall entries result merged k o,
  merge_entries (Some R) entries result = Ok merged ->
  NoDup (map fst entries) -> In (k, JObj o) entries ->
  exists final m, merged = JObj final /\ lookup k final = Some m
    /\ exists target, deepMerge (Some R) target (JObj o) = Ok m.
Proof.
  induction entries as [|[key value] entries IH];
    intros result merged k o H Hnd Hin; [contradiction |].
  apply merge_entries_step in H as (stored & H & _ & Hobj).
  simpl in Hnd. inversion Hnd as [|? ? Hnotin Hnd']; subst.
  destruct Hin as [Heq | Hin].
  - inversion Heq; subst key value.
    destruct (merge_entries_other _ _ _ k H Hnotin) as (final & -> & Hf).
    exists final, stored. split; [reflexivity |]. split.
    + rewrite Hf. apply lookup_set_same.
    + exists (lookup k result). exact (Hobj o eq_refl).
  - eapply IH; eauto.
Qed.

(** Theirs wins on every leaf: where theirs holds a string, a number or a
    boolean, the merged document holds the same value at the same
    place, whatever ours holds there. *)
Lemma deepMerge_leaf_from_theirs : forall path source target merged leaf,
  path <> [] ->
  at_path source path = Some leaf ->
  typeof_object leaf = false ->
  unique_along source path ->
  deepMerge (Some R) target source = Ok merged ->
  at_path merged path = Some leaf.
Proof.
  induction path as [|k path IH];
    intros source target merged leaf Hne Hat Hleaf Huniq Hm; [congruence |].
  simpl in Hat. destruct source as [| | | | | src]; try discriminate.
  destruct (lookup k src) as [v'|] eqn:Hk; [| discriminate].
  simpl in Huniq. rewrite Hk in Huniq. destruct Huniq as [Hnd Huniq].
  rewrite deepMerge_object in Hm. apply lookup_In in Hk.
  destruct path as [|k2 path].
  - simpl in Hat. inversion Hat; subst v'.
    destruct (merge_entries_leaf _ _ _ _ _ Hm Hnd Hk Hleaf)
      as (final & -> & Hf).
    simpl. now rewrite Hf.
  - assert (Hobj : exists o, v' = JObj o).
    { simpl in Hat. destruct v'; try discriminate. eauto. }
    destruct Hobj as [o ->].
    destruct (merge_entries_nested _ _ _ _ _ Hm Hnd Hk)
      as (final & m & -> & Hf & target' & Hm').
    simpl at_path at 1. rewrite Hf.
    eapply IH; eauto. discriminate.
Qed.
End MergeLoop.

Lemma metaResolver_leaf rt : theirs_on_leaves (metaResolver rt).
Proof.
  intros key current value Hv. unfold metaResolver.
  now rewrite Hv, andb_false_r.
Qed.

Lemma dictionaryResolver_leaf : theirs_on_leaves dictionaryResolver.
Proof.
  intros key current value Hv. unfold dictionaryResolver.
  now rewrite Hv, andb_false_r.
Qed.

(** ** What the fragment readers return *)

Lemma parseKeyValueLines_shape rt fragment :
  parseKeyValueLines rt fragment = JNull
  \/ exists o, parseKeyValueLines rt fragment = JObj o.
Proof.
  unfold parseKeyValueLines. destruct (fst (fold_left _ _ _)); eauto.
Qed.

(** A fragment reader answers [null], which is falsy, or an object, which
    is truthy: a side parses exactly when its reader gives an object. *)
Lemma parseJSONFragment_shape rt fragment :
  parses_objects rt ->
  parseJSONFragment rt fragment = JNull
  \/ exists o, parseJSONFragment rt fragment = JObj o.
Proof.
  intros Hrt. unfold parseJSONFragment.
  destruct (startsWith "{" (trim fragment) && endsWith "}" (trim fragment))
    eqn:E.
  - apply andb_prop in E as [E _].
    destruct (JSON_parse rt (trim fragment)) as [v|e] eqn:Ep.
    + right. eapply Hrt; eauto.
    + apply parseKeyValueLines_shape.
  - destruct (JSON_parse rt ("{" +++ trim fragment +++ "}")) as [v|e] eqn:Ep.
    + right. apply (Hrt _ v) in Ep; [exact Ep |].
      unfold startsWith. simpl. now destruct (trim fragment +++ "}").
    + apply parseKeyValueLines_shape.
Qed.

Lemma parsed_iff_object rt fragment :
  parses_objects rt ->
  truthy (parseJSONFragment rt fragment) = true
  <-> exists o, parseJSONFragment rt fragment = JObj o.
Proof.
  intros Hrt.
  destruct (parseJSONFragment_shape rt fragment Hrt) as [-> | [o ->]].
  - split; [discriminate | intros [o H]; discriminate].
  - split; [eauto | reflexivity].
Qed.

(** *** The reading line by line *)

Lemma set_not_empty k v o : set k v o <> [].
Proof.
  destruct o as [|[k' v'] o]; simpl; [| destruct (String.eqb k k')];
    discriminate.
Qed.

Lemma assign_keeps_property key value object :
  fst object <> [] -> fst (assign key value object) <> [].
Proof.
  destruct object as [own prototype]. simpl. intros Hown.
  destruct (negb (String.eqb key "__proto__")); [apply set_not_empty |].
  destruct (lookup key own); [apply set_not_empty |].
  destruct (match prototype with
            | ObjectPrototype => false
            | NullPrototype => true
            | ValuePrototype (JObj o) =>
                match lookup key o with Some _ => true | None => false end
            | ValuePrototype _ => false
            end); [apply set_not_empty |].
  destruct value; exact Hown.
Qed.

Lemma assign_makes_property key value object :
  key <> "__proto__" -> fst (assign key value object) <> [].
Proof.
  destruct object as [own prototype]. intros Hkey.
  apply String.eqb_neq in Hkey. simpl. rewrite Hkey. simpl.
  apply set_not_empty.
Qed.

Lemma assign_line_keeps_property rt object line :
  fst object <> [] -> fst (assign_line rt object line) <> [].
Proof.
  intros Hown. unfold assign_line.
  destruct (key_value_line line) as [[key text]|]; [| exact Hown].
  destruct (JSON_parse rt text); now apply assign_keeps_property.
Qed.

Lemma assign_lines_keep_property rt : forall lines object,
  fst object <> [] -> fst (fold_left (assign_line rt) lines object) <> [].
Proof.
  induction lines as [|line lines IH]; intros object Hown; simpl;
    [exact Hown |].
  now apply IH, assign_line_keeps_property.
Qed.

Lemma assign_lines_make_property rt : forall lines object line key text,
  In line lines -> key_value_line line = Some (key, text) ->
  key <> "__proto__" ->
  fst (fold_left (assign_line rt) lines object) <> [].
Proof.
  induction lines as [|l lines IH]; intros object line key text Hin Hline Hkey;
    [contradiction |].
  simpl. destruct Hin as [-> | Hin].
  - apply assign_lines_keep_property. unfold assign_line. rewrite Hline.
    destruct (JSON_parse rt text); now apply assign_makes_property.
  - eapply IH; eauto.
Qed.

Lemma assign_lines_nothing rt : forall lines object,
  (forall line, In line lines -> key_value_line line = None) ->
  fold_left (assign_line rt) lines object = object.
Proof.
  induction lines as [|l lines IH]; intros object Hnone; simpl;
    [reflexivity |].
  unfold assign_line at 2. rewrite (Hnone l) by now left.
  apply IH. intros line Hin. apply Hnone. now right.
Qed.

(** Which of its two attempts [parseJSONFragment] answers with. *)
Lemma parseJSONFragment_read rt fragment :
  parseJSONFragment rt fragment
  = match JSON_parse rt (json_text fragment) with
    | Ok value => value
    | Throw _ => parseKeyValueLines rt fragment
    end.
Proof.
  unfold parseJSONFragment, json_text.
  now destruct (startsWith "{" (trim fragment)
                && endsWith "}" (trim fragment)).
Qed.

Lemma parseJSONFragment_attempts rt fragment :
  (forall v, JSON_parse rt (json_text fragment) = Ok v ->
             parseJSONFragment rt fragment = v)
  /\ (forall e,
        JSON_parse rt (json_text fragment) = Throw e ->
        ((exists line key text,
            In line (split_lf fragment)
            /\ key_value_line line = Some (key, text)
            /\ key <> "__proto__") ->
         truthy (parseJSONFragment rt fragment) = true)
        /\ ((forall line, In line (split_lf fragment) ->
                          key_value_line line = None) ->
            parseJSONFragment rt fragment = JNull)).
Proof.
  rewrite parseJSONFragment_read. split.
  - intros v ->. reflexivity.
  - intros e ->. unfold parseKeyValueLines. split.
    + intros (line & key & text & Hin & Hline & Hkey).
      pose proof (assign_lines_make_property rt _ ([], ObjectPrototype)
                    _ _ _ Hin Hline Hkey) as Hown.
      destruct (fst (fold_left (assign_line rt) (split_lf fragment)
                       ([], ObjectPrototype))); [congruence | reflexivity].
    + intros Hnone. now rewrite assign_lines_nothing.
Qed.

Lemma parseJSFragment_normalise rt fragment :
  parseJSFragment rt fragment = parseJSONFragment rt (normalise fragment).
Proof. unfold parseJSFragment, normalise. reflexivity. Qed.

Lemma parseJSFragment_shape rt fragment :
  parses_objects rt ->
  parseJSFragment rt fragment = JNull
  \/ exists o, parseJSFragment rt fragment = JObj o.
Proof. intros Hrt. apply parseJSONFragment_shape, Hrt. Qed.

Lemma reference_members_object : forall fuel s acc v,
  ReferenceRuntime.parse_members fuel s acc = Ok v -> exists o, fst v = JObj o.
Proof.
  induction fuel as [|fuel IH]; intros s acc v H; simpl in H; [discriminate |].
  destruct (ReferenceRuntime.skip_ws s) as [|c r]; [discriminate |].
  destruct (Ascii.eqb c DQ); [| discriminate].
  destruct (ReferenceRuntime.read_string r EmptyString) as [k|e];
    simpl in H; [| discriminate].
  destruct (ReferenceRuntime.skip_ws (snd k)) as [|c1 r1]; [discriminate |].
  destruct (Ascii.eqb_spec c1 ":") as [-> | Hne].
  - destruct (ReferenceRuntime.parse_value fuel r1) as [w|e];
      simpl in H; [| discriminate].
    destruct (ReferenceRuntime.skip_ws (snd w)) as [|c2 r2]; [discriminate |].
    destruct (Ascii.eqb_spec c2 ",") as [-> | Hc].
    + eapply IH, H.
    + destruct (Ascii.eqb_spec c2 "}") as [-> | Hb].
      * inversion H. simpl. eauto.
      * exfalso. revert H.
        destruct c2 as [[] [] [] [] [] [] [] []]; try discriminate;
          congruence.
  - exfalso. revert H.
    destruct c1 as [[] [] [] [] [] [] [] []]; try discriminate; congruence.
Qed.

Lemma reference_value_brace fuel r :
  ReferenceRuntime.parse_value (S fuel) (String "{" r)
  = match ReferenceRuntime.skip_ws r with
    | String "}" r' => Ok (JObj [], r')
    | r' => ReferenceRuntime.parse_members fuel r' []
    end.
Proof. reflexivity. Qed.

Lemma reference_parses_objects : parses_objects ReferenceRuntime.runtime.
Proof.
  intros text v Hprefix Hparse.
  change (ReferenceRuntime.parse text = Ok v) in Hparse.
  unfold ReferenceRuntime.parse in Hparse.
  destruct text as [|c text]; [discriminate |].
  unfold startsWith in Hprefix. cbn [String.prefix] in Hprefix.
  destruct (ascii_dec "{" c) as [<- | Hne]; [| discriminate].
  rewrite reference_value_brace in Hparse.
  destruct (match ReferenceRuntime.skip_ws text with
            | String "}" r' => Ok (JObj [], r')
            | r' => ReferenceRuntime.parse_members
                      (String.length (String "{" text)) r' []
            end) as [w|e] eqn:Ev; simpl bind in Hparse; [| discriminate].
  assert (Hw : exists o, fst w = JObj o).
  { destruct (ReferenceRuntime.skip_ws text) as [|c1 r1].
    - eapply reference_members_object, Ev.
    - destruct c1 as [[] [] [] [] [] [] [] []];
        first [ eapply reference_members_object; exact Ev
              | inversion Ev; simpl; eauto ]. }
  destruct Hw as [o Ho].
  destruct (ReferenceRuntime.skip_ws (snd w)); [| discriminate].
  inversion Hparse. eauto.
Qed.

(** ** The dictionary merge completes *)



Lemma depth_entries n o :
  depth (JObj o) <= S n -> Forall (fun entry => depth (snd entry) <= n) o.
Proof.
  simpl. intros H. apply le_S_n in H.
  induction o as [|e o IH]; constructor; simpl in H; [lia |].
  apply IH. lia.
Qed.



(** ** Texts without a line break *)


Lemma append_assoc_char (cur : string) c s :
  (cur +++ str1 c) +++ s = cur +++ String c s.
Proof. induction cur as [|d cur IH]; simpl; [reflexivity | now rewrite IH]. Qed.

Lemma split_lines_aux_plain : forall s cur,
  all_chars (fun c => negb (is_line_terminator c)) s = true ->
  split_lines_aux s cur = [cur +++ s].
Proof.
  induction s as [|c s IH]; intros cur H; simpl.
  - induction cur as [|d cur IHc]; simpl; [reflexivity |].
    inversion IHc as [Heq]. now rewrite Heq at 1.
  - simpl in H. apply andb_prop in H as [Hc Hs].
    unfold is_line_terminator in Hc. apply negb_true_iff in Hc.
    apply orb_false_iff in Hc as [Hlf Hcr]. rewrite Hlf, Hcr.
    rewrite (IH _ Hs). now rewrite append_assoc_char.
Qed.





End ResolverFacts.
Import ParserFacts.

(** * Theorems on the conflict parser *)

(** C5. [hasConflictMarkers] answers true exactly when the text has at least
    one start marker line, one middle marker line and one end marker line,
    and as many start marker lines as end marker lines; with one start
    marker line and no end marker line the answer is false. *)
Theorem hasConflictMarkers_iff (content : string) :
  (hasConflictMarkers content = true <->
     1 <= count_lines CONFLICT_START (split_lines content) /\
     1 <= count_lines CONFLICT_MIDDLE (split_lines content) /\
     1 <= count_lines CONFLICT_END (split_lines content) /\
     count_lines CONFLICT_START (split_lines content)
     = count_lines CONFLICT_END (split_lines content))
  /\ (count_lines CONFLICT_START (split_lines content) = 1 ->
      count_lines CONFLICT_END (split_lines content) = 0 ->
      hasConflictMarkers content = false).
Proof.
  unfold hasConflictMarkers. rewrite markers_fold. simpl.
  set (s := count_lines CONFLICT_START (split_lines content)).
  set (m := count_lines CONFLICT_MIDDLE (split_lines content)).
  set (e := count_lines CONFLICT_END (split_lines content)).
  split.
  - rewrite !andb_true_iff, !Nat.ltb_lt, Nat.eqb_eq. intuition lia.
  - intros Hs He. rewrite Hs, He. simpl. apply andb_false_r.
Qed.

Lemma hasConflictMarkers_iff_witness :
  hasConflictMarkers unclosed_doc = false.
Proof.
  apply (proj2 (hasConflictMarkers_iff unclosed_doc)); reflexivity.
Defined.

(** C9, as the code has it. Every section [parseConflicts] returns starts
    at a start marker line, ends at a later end marker line of the document,
    spans exactly one end marker line and at least one middle marker line;
    the sections are in document order and each one starts after the end of
    every earlier one. *)
Theorem parseConflicts_sections_invariant (content : string) :
  Forall (well_formed_section (split_lines content)) (parseConflicts content)
  /\ StronglySorted before (parseConflicts content).
Proof.
  unfold parseConflicts.
  pose proof (parseLines_sections (split_lines content)) as H.
  split.
  - apply Forall_forall. intros c Hin.
    destruct (sections_from_in _ _ _ _ H Hin) as (Hc & Hlt & Hst).
    now apply section_well_formed.
  - eapply sections_from_sorted, H.
Qed.

(** C9 as stated fails: a section can span two middle marker lines. *)
Lemma parseConflicts_two_middles :
  ~ Forall (one_middle_one_end (split_lines two_middles_doc))
           (parseConflicts two_middles_doc).
Proof.
  intros H.
  assert (E : parseConflicts two_middles_doc
              = [{| ours := "a"; theirs := unlines ["b"; "======="; "c"];
                    base := None; startLine := 0; endLine := 6 |}])
    by reflexivity.
  rewrite E in H. apply Forall_inv in H. destruct H as (_ & Hm & _).
  vm_compute in Hm. discriminate.
Qed.

(** C3, as the code has it. [parseConflicts] returns for every text; a
    candidate whose middle marker or end marker is missing before the end
    of the text is discarded, the scan resumes at the line after its start
    marker with the sections found so far, and no returned section starts
    at that line. A start marker line met during the search is passed like
    any other line: the search from a line finds no section exactly when
    no end marker line follows that line, or no middle marker line comes
    before the first end marker line that follows it. *)
Theorem parseConflicts_discards_unclosed (content : string) :
  (exists cs,
     parseLoop (List.length (split_lines content)) (split_lines content) 0 []
     = Some cs /\ parseConflicts content = cs)
  /\ (forall i,
        i < List.length (split_lines content) ->
        test CONFLICT_START (nth i (split_lines content) EmptyString) = true ->
        no_marker_after CONFLICT_MIDDLE (split_lines content) i
        \/ no_marker_after CONFLICT_END (split_lines content) i ->
        parseConflictSection (split_lines content) i = None
        /\ (forall fuel acc,
              parseLoop (S fuel) (split_lines content) i acc
              = parseLoop fuel (split_lines content) (i + 1) acc)
        /\ discarded content i)
  /\ (forall i,
        parseConflictSection (split_lines content) i = None
        <-> closes false (skipn (i + 1) (split_lines content)) = false).
Proof.
  set (lines := split_lines content). split; [| split].
  - destruct (parseLoop_total (List.length lines) lines 0 [] ltac:(lia))
      as [cs Hcs].
    exists cs. split; [exact Hcs |].
    unfold parseConflicts, parseLines. fold lines. now rewrite Hcs.
  - intros i Hi Hstart Hmiss.
    assert (Hnone : parseConflictSection lines i = None).
    { unfold parseConflictSection.
      destruct (scan (skipn (i + 1) lines) (i + 1) None None)
        as [[m b] e] eqn:Hscan.
      destruct Hmiss as [Hmid | Hend].
      - apply (scan_no_middle _ _ _ _ _ _ _ Hmid) in Hscan. now subst m.
      - destruct e as [e|]; [| now destruct m].
        apply scan_end_some in Hscan as (pre & l & post & Hls & _ & Hl & _).
        red in Hend. rewrite Hls in Hend.
        apply Forall_app in Hend as [_ Hend].
        inversion Hend as [|? ? Hx _]; subst. red in Hx. congruence. }
    split; [exact Hnone |]. split.
    + intros fuel acc. simpl.
      apply Nat.ltb_lt in Hi. now rewrite Hi, Hstart, Hnone.
    + intros c Hin Heq.
      unfold parseConflicts in Hin. fold lines in Hin.
      destruct (sections_from_in _ _ _ _ (parseLines_sections lines) Hin)
        as (Hc & _).
      rewrite Heq in Hc. congruence.
  - intros i. apply parseConflictSection_closes.
Qed.

Lemma parseConflicts_discards_unclosed_witness :
  parseConflictSection (split_lines unclosed_doc) 0 = None
  /\ discarded unclosed_doc 0.
Proof.
  destruct (parseConflicts_discards_unclosed unclosed_doc) as (_ & H & _).
  destruct (H 0) as (Hnone & _ & Hdisc).
  - vm_compute. lia.
  - reflexivity.
  - left. vm_compute. repeat constructor.
  - split; assumption.
Defined.

(** C3 as stated fails: a nested start marker does not end the search for
    the markers of the outer candidate, which is returned. *)
Lemma parseConflicts_nested_start_kept :
  ~ discards_before_nested_start nested_doc.
Proof.
  intros H. apply (H 0) with
    (c := {| ours := unlines ["x"; "<<<<<<< inner"; "o"]; theirs := "t";
             base := None; startLine := 0; endLine := 6 |}).
  - vm_compute. lia.
  - reflexivity.
  - left. exists 2. split; [lia |]. split; [vm_compute; lia |].
    split; [reflexivity |]. vm_compute. repeat constructor.
  - vm_compute. left. reflexivity.
  - reflexivity.
Qed.

(** C8, as the code has it. The lines of the output are those of the
    input, in order and with their text unchanged, except that the lines
    from the start marker to the end marker of each parsed section are
    replaced by the lines of the resolver's answer for that section; the
    output joins them with LF (what separated two lines in the input, LF or
    CR LF, is not kept). Splicing from the last section to the first gives
    the document rebuilt in one pass from the top. *)
Theorem resolveConflicts_frame (content : string)
                               (resolver : ConflictSection -> string) :
  resolveConflicts content resolver
  = join (str1 LF)
         (rebuild resolver (split_lines content) 0 (parseConflicts content)).
Proof.
  unfold resolveConflicts, parseConflicts. f_equal.
  rewrite (resolveLines_rebuild resolver _ 0 _
             (parseLines_sections (split_lines content))) by lia.
  reflexivity.
Qed.

(** C8 as stated fails: a text without any section does not come back
    unchanged when its lines are separated by CR LF. *)
Lemma resolveConflicts_crlf_not_kept : ~ clean_text_unchanged crlf_doc.
Proof.
  intros H. specialize (H (fun c => ours c) eq_refl).
  vm_compute in H. discriminate.
Qed.
Import ResolverFacts.

(** * The test suite, run on the model *)

(** "should detect conflict markers" *)
Example test_detects_markers : hasConflictMarkers mockSimpleConflict = true.
Proof. reflexivity. Qed.

(** "should parse simple conflict" *)
Example test_parses_simple_conflict :
  map (fun c => (trim (ours c), trim (theirs c)))
      (parseConflicts mockSimpleConflict)
  = [(qq "'ours': true", qq "'theirs': true")].
Proof. reflexivity. Qed.

(** "should resolve conflicts with custom resolver" *)
Example test_custom_resolver :
  let resolved := resolveConflicts mockSimpleConflict (fun _ => "merged") in
  includes "merged" resolved = true
  /\ includes "<<<<<<<" resolved = false
  /\ includes "=======" resolved = false
  /\ includes ">>>>>>>" resolved = false.
Proof. vm_compute. repeat split. Qed.

(** "should merge meta.json conflicts intelligently" *)
Example test_meta_merge :
  let resolved := resolveConflicts mockMetaConflict (smartResolveMeta rt0) in
  exists parsed,
    JSON_parse rt0 resolved = Ok parsed
    /\ at_path parsed ["files"; "App.tsx"; "scopes"; "our-scope"] <> None
    /\ at_path parsed ["files"; "App.tsx"; "scopes"; "their-scope"] <> None
    /\ at_path parsed ["files"; "App.tsx"; "scopes"; "existing-scope"; "content"]
       = Some (JStr "Updated content with more details").
Proof.
  eexists. split; [vm_compute; reflexivity |].
  repeat split; vm_compute; congruence.
Qed.

(** "should merge dictionary conflicts intelligently" *)
Example test_dictionary_merge :
  let resolved :=
    resolveConflicts mockDictionaryConflict (smartResolveDictionary rt0) in
  validateResolvedContent rt0 resolved "lingo/dictionary.js" = None
  /\ exists merged,
       deepMerge (Some dictionaryResolver)
                 (Some (parseJSFragment rt0 (ours dictionary_section)))
                 (parseJSFragment rt0 (theirs dictionary_section)) = Ok merged
       /\ smartResolveDictionary rt0 dictionary_section
          = formatJSFragment rt0 merged
       /\ at_path merged ["scope-2"] <> None
       /\ at_path merged ["scope-1"; "content"]
          = Some (JObj [("en", JStr "English Updated"); ("es", JStr "Espanol");
                        ("fr", JStr "Francais")]).
Proof.
  split; [vm_compute; reflexivity |].
  eexists. split; [vm_compute; reflexivity |].
  repeat split; vm_compute; congruence.
Qed.

(** * The examples of the specification, run on the model *)

Example spec_metadata_example :
  exists merged,
    deepMerge (Some (metaResolver rt0))
              (Some (parseJSONFragment rt0 (ours spec_meta_section)))
              (parseJSONFragment rt0 (theirs spec_meta_section)) = Ok merged
    /\ smartResolveMeta rt0 spec_meta_section = formatJSONFragment rt0 merged
    /\ at_path merged ["A"]
       = Some (JObj [("hash", JStr "h2");
                     ("content", JStr "much longer content")])
    /\ at_path merged ["B"]
       = Some (JObj [("hash", JStr "hb"); ("content", JStr "b")])
    /\ at_path merged ["C"]
       = Some (JObj [("hash", JStr "hc"); ("content", JStr "c")]).
Proof.
  eexists. split; [vm_compute; reflexivity |].
  repeat split; vm_compute; reflexivity.
Qed.

Example spec_dictionary_example :
  exists merged,
    deepMerge (Some dictionaryResolver)
              (Some (parseJSFragment rt0 (ours spec_dictionary_section)))
              (parseJSFragment rt0 (theirs spec_dictionary_section)) = Ok merged
    /\ smartResolveDictionary rt0 spec_dictionary_section
       = formatJSFragment rt0 merged
    /\ at_path merged ["greeting"; "content"]
       = Some (JObj [("en", JStr "Hello there"); ("es", JStr "Hola");
                     ("fr", JStr "Bonjour")]).
Proof.
  eexists. split; [vm_compute; reflexivity |].
  repeat split; vm_compute; reflexivity.
Qed.

(** * Theorems on the resolver *)

(** In both smart merges theirs wins on every leaf: where the theirs
    fragment holds a string, a number or a boolean, the merged fragment
    holds that value at the same place, whatever ours holds there and
    however long it is. The comparisons of the two callbacks are never
    consulted for the properties of a scope or of an entry. *)
Lemma smart_merge_theirs_wins_on_leaves (rt : JsRuntime)
    (resolver : string -> json -> json -> result json)
    (oursData theirsData merged leaf : json) (path : list string) :
  resolver = metaResolver rt \/ resolver = dictionaryResolver ->
  path <> [] ->
  at_path theirsData path = Some leaf ->
  typeof_object leaf = false ->
  unique_along theirsData path ->
  deepMerge (Some resolver) (Some oursData) theirsData = Ok merged ->
  at_path merged path = Some leaf.
Proof.
  intros Hr. apply deepMerge_leaf_from_theirs.
  destruct Hr as [-> | ->];
    [apply metaResolver_leaf | apply dictionaryResolver_leaf].
Qed.

(** C1, at the failing input. The callback of the metadata merge prefers the
    scope with the longer content, here ours; the merge never hands the two
    scopes to it and answers the hash and the shorter content of theirs. *)
Theorem smartResolveMeta_longer_ours_lost :
  metaResolver rt0 "A" ours_scope theirs_scope = Ok ours_scope
  /\ parseJSONFragment rt0 (ours longer_ours_section)
     = JObj [("A", ours_scope)]
  /\ parseJSONFragment rt0 (theirs longer_ours_section)
     = JObj [("A", theirs_scope)]
  /\ deepMerge (Some (metaResolver rt0)) (Some (JObj [("A", ours_scope)]))
               (JObj [("A", theirs_scope)])
     = Ok (JObj [("A", theirs_scope)])
  /\ smartResolveMeta rt0 longer_ours_section
     = formatJSONFragment rt0 (JObj [("A", theirs_scope)]).
Proof. repeat split; vm_compute; reflexivity. Qed.

(** C2, at the failing input. The callback of the dictionary merge keeps the
    longer translation and the one that is not empty, here those of ours;
    the merge never hands the two locale maps to it and answers the shorter
    and the empty translation of theirs. *)
Theorem smartResolveDictionary_longer_ours_lost :
  dictionaryResolver "content" ours_locales theirs_locales = Ok ours_locales
  /\ parseJSFragment rt0 (ours longer_ours_entry_section)
     = JObj [("greeting",
              JObj [("content", ours_locales); ("hash", JStr "h1")])]
  /\ parseJSFragment rt0 (theirs longer_ours_entry_section)
     = JObj [("greeting",
              JObj [("content", theirs_locales); ("hash", JStr "h2")])]
  /\ smartResolveDictionary rt0 longer_ours_entry_section
     = formatJSFragment rt0
         (JObj [("greeting",
                 JObj [("content", theirs_locales); ("hash", JStr "h2")])]).
Proof. repeat split; vm_compute; reflexivity. Qed.




(** C4, as the code has it. Under the smart strategy, for a metadata
    file and for a dictionary file, whose fragments are first normalised:
    a fragment is read as what [JSON.parse] makes of it, in braces when it
    has none; when [JSON.parse] refuses it the fragment is read line by
    line, which gives an object (the side parses) as soon as one line has
    the form of a key other than [__proto__] and a value, and [null] (the
    side does not parse) when no line has the form of a key and a value.
    When one side only parses, the resolution is the fragment of that side
    as it is; when neither side parses, it is the ours fragment; when both
    parse and the merge throws, theirs having ordinary property names, it
    is the ours fragment. [resolveConflict] is a function to texts:
    nothing is thrown to [resolveConflicts]. *)
Theorem smart_fallback (rt : JsRuntime) (options : ResolverOptions)
    (c : ConflictSection) (filePath : string)
    (prepare : string -> string)
    (resolver : string -> json -> json -> result json) :
  strategy options = smart ->
  smart_format rt (basename filePath) prepare resolver ->
  (forall fragment,
     (forall v,
        JSON_parse rt (json_text (prepare fragment)) = Ok v ->
        parseJSONFragment rt (prepare fragment) = v)
     /\ (forall e,
           JSON_parse rt (json_text (prepare fragment)) = Throw e ->
           ((exists line key text,
               In line (split_lf (prepare fragment))
               /\ key_value_line line = Some (key, text)
               /\ key <> "__proto__") ->
            truthy (parseJSONFragment rt (prepare fragment)) = true)
           /\ ((forall line, In line (split_lf (prepare fragment)) ->
                             key_value_line line = None) ->
               parseJSONFragment rt (prepare fragment) = JNull)))
  /\ (truthy (parseJSONFragment rt (prepare (ours c))) = true ->
      truthy (parseJSONFragment rt (prepare (theirs c))) = false ->
      resolveConflict rt options c filePath = ours c)
  /\ (truthy (parseJSONFragment rt (prepare (ours c))) = false ->
      truthy (parseJSONFragment rt (prepare (theirs c))) = true ->
      resolveConflict rt options c filePath = theirs c)
  /\ (truthy (parseJSONFragment rt (prepare (ours c))) = false ->
      truthy (parseJSONFragment rt (prepare (theirs c))) = false ->
      resolveConflict rt options c filePath = ours c)
  /\ (forall e,
        truthy (parseJSONFragment rt (prepare (ours c))) = true ->
        truthy (parseJSONFragment rt (prepare (theirs c))) = true ->
        ordinary_keys (parseJSONFragment rt (prepare (theirs c))) = true ->
        deepMerge (Some resolver)
                  (Some (parseJSONFragment rt (prepare (ours c))))
                  (parseJSONFragment rt (prepare (theirs c)))
        = Throw e ->
        resolveConflict rt options c filePath = ours c).
Proof.
  intros Hs Hf.
  split; [intros fragment; apply parseJSONFragment_attempts |].
  unfold resolveConflict. rewrite Hs. unfold smartResolve.
  destruct Hf as [Hname | Hname Hprefix].
  - rewrite Hname. simpl String.eqb. cbv iota. unfold smartResolveMeta.
    repeat split.
    + intros Ho Ht. now rewrite Ho, Ht.
    + intros Ho Ht. now rewrite Ho, Ht.
    + intros Ho Ht. now rewrite Ho, Ht.
    + intros e Ho Ht _ He. now rewrite Ho, Ht, He.
  - apply String.eqb_neq in Hname. rewrite Hname, Hprefix.
    unfold smartResolveDictionary.
    rewrite !parseJSFragment_normalise.
    repeat split.
    + intros Ho Ht. now rewrite Ho, Ht.
    + intros Ho Ht. now rewrite Ho, Ht.
    + intros Ho Ht. now rewrite Ho, Ht.
    + intros e Ho Ht _ He. now rewrite Ho, Ht, He.
Qed.

Lemma smart_fallback_witness :
  truthy (parseJSONFragment rt0 (theirs comma_section)) = true
  /\ resolveConflict rt0 smart_options one_sided_section "lingo/meta.json"
     = ours one_sided_section
  /\ resolveConflict rt0 smart_options throwing_section "lingo/meta.json"
     = ours throwing_section.
Proof.
  pose proof (smart_fallback rt0 smart_options one_sided_section
                "lingo/meta.json" (fun fragment => fragment)
                (metaResolver rt0) eq_refl (format_meta rt0 _ eq_refl))
    as (Hread & Hone & _).
  pose proof (smart_fallback rt0 smart_options throwing_section
                "lingo/meta.json" (fun fragment => fragment)
                (metaResolver rt0) eq_refl (format_meta rt0 _ eq_refl))
    as (_ & _ & _ & _ & Hthrows).
  split; [| split].
  - destruct (Hread (theirs comma_section)) as [_ Hlines].
    destruct (Hlines "Unexpected token in JSON") as [Hparsed _];
      [vm_compute; reflexivity |].
    apply Hparsed. exists (theirs comma_section), "a", "1,".
    split; [now left |]. split; [vm_compute; reflexivity | discriminate].
  - apply Hone; vm_compute; reflexivity.
  - apply (Hthrows "TypeError: Cannot read properties of null");
      vm_compute; reflexivity.
Defined.

(** C4 as stated fails, when a side parses if it is structured data: a
    theirs fragment that [JSON.parse] refuses for the comma at its end is
    read line by line and merged, and the resolution is not the ours
    fragment as it is. *)
Lemma smart_fallback_reads_lines :
  ~ takes_the_side_that_parses rt0 smart_options comma_section
      "lingo/meta.json".
Proof.
  intros (H & _).
  assert (Hnot : resolveConflict rt0 smart_options comma_section
                   "lingo/meta.json" <> ours comma_section)
    by (vm_compute; discriminate).
  apply Hnot, H.
  - eexists. vm_compute. reflexivity.
  - intros [v Hv]. vm_compute in Hv. discriminate.
Qed.








(** * Further properties of the resolver *)

Module MoreFacts.

Lemma length_append (a b : string) :
  String.length (a +++ b) = String.length a + String.length b.
Proof. induction a as [|c a IH]; simpl; [reflexivity | now rewrite IH]. Qed.

Lemma backupPath_differs filePath uuid :
  String.eqb (backupPath filePath uuid) filePath = false.
Proof.
  apply String.eqb_neq. intros H.
  apply (f_equal String.length) in H. unfold backupPath in H.
  rewrite !length_append in H. simpl in H. lia.
Qed.

(** What [resolveFile] does once the text is read, within the size limit,
    with markers and with sections. *)
Lemma resolveFile_run rt options uuid filePath fs content :
  readFile filePath fs = Some content ->
  (N.of_nat (String.length content) <= MAX_FILE_SIZE)%N ->
  hasConflictMarkers content = true ->
  parseConflicts content <> [] ->
  resolveFile rt options uuid filePath fs
  = let fs1 := if backup options && negb (dryRun options)
               then writeFile (backupPath filePath uuid) content fs
               else fs in
    match validateResolvedContent rt
            (resolvedText rt options filePath content) filePath with
    | Some message => (failure message, fs1)
    | None =>
        ({| success := true;
            conflictsResolved := List.length (parseConflicts content);
            error := None;
            details :=
              if verbose options
              then Some (getResolutionDetails options (parseConflicts content)
                           filePath)
              else None |},
         if negb (dryRun options)
         then writeFile filePath (resolvedText rt options filePath content) fs1
         else fs1)
    end.
Proof.
  intros Hread Hsize Hmarkers Hsome. unfold resolveFile. rewrite Hread.
  apply N.ltb_ge in Hsize. rewrite Hsize, Hmarkers. simpl negb. cbv iota.
  destruct (parseConflicts content) as [|c cs] eqn:Hc; [congruence |].
  simpl List.length. simpl Nat.eqb. cbv iota.
  unfold resolvedText, backupPath. reflexivity.
Qed.

(** The outcomes of [resolveFile], by what it wrote. *)
Lemma resolveFile_writes rt options uuid filePath fs :
  snd (resolveFile rt options uuid filePath fs) = fs
  \/ (exists content,
        readFile filePath fs = Some content /\
        backup options = true /\ dryRun options = false /\
        snd (resolveFile rt options uuid filePath fs)
        = writeFile (backupPath filePath uuid) content fs /\
        success (fst (resolveFile rt options uuid filePath fs)) = false)
  \/ (exists content,
        readFile filePath fs = Some content /\ dryRun options = false /\
        success (fst (resolveFile rt options uuid filePath fs)) = true /\
        validateResolvedContent rt
          (resolvedText rt options filePath content) filePath = None /\
        snd (resolveFile rt options uuid filePath fs)
        = writeFile filePath (resolvedText rt options filePath content)
            (if backup options
             then writeFile (backupPath filePath uuid) content fs
             else fs)).
Proof.
  destruct (readFile filePath fs) as [content|] eqn:Hread;
    [| left; unfold resolveFile; now rewrite Hread].
  destruct (MAX_FILE_SIZE <? N.of_nat (String.length content))%N eqn:Hsize;
    [left; unfold resolveFile; now rewrite Hread, Hsize |].
  destruct (hasConflictMarkers content) eqn:Hmarkers;
    [| left; unfold resolveFile; now rewrite Hread, Hsize, Hmarkers].
  destruct (parseConflicts content) as [|c cs] eqn:Hc;
    [left; unfold resolveFile; now rewrite Hread, Hsize, Hmarkers, Hc |].
  apply N.ltb_ge in Hsize.
  rewrite (resolveFile_run rt options uuid filePath fs content Hread Hsize
             Hmarkers) by congruence.
  cbv zeta.
  destruct (validateResolvedContent rt
              (resolvedText rt options filePath content) filePath)
    as [message|] eqn:Hv; simpl fst; simpl snd.
  - destruct (backup options) eqn:Hb; destruct (dryRun options) eqn:Hd;
      simpl; auto.
    right. left. exists content. auto.
  - destruct (dryRun options) eqn:Hd; simpl.
    + rewrite andb_false_r. auto.
    + rewrite andb_true_r. right. right. exists content. auto.
Qed.

(** ** One level of [deepMerge] *)

Lemma lookup_not_in k o : ~ In k (map fst o) -> lookup k o = None.
Proof.
  induction o as [|[k' v] o IH]; simpl; [reflexivity |].
  intros H. destruct (String.eqb_spec k k') as [-> | Hne]; [tauto |].
  apply IH. tauto.
Qed.

Lemma lookup_in_keys k v o : lookup k o = Some v -> In k (map fst o).
Proof. intros H. apply lookup_In in H. now apply (in_map fst) in H. Qed.

Lemma set_fresh k v o : ~ In k (map fst o) -> set k v o = o ++ [(k, v)].
Proof.
  induction o as [|[k' v'] o IH]; simpl; [reflexivity |].
  intros H. destruct (String.eqb_spec k k') as [-> | Hne]; [tauto |].
  rewrite IH by tauto. reflexivity.
Qed.

Lemma merge_step resolver key value entries result merged :
  merge_entries (Some resolver) ((key, value) :: entries) result = Ok merged ->
  exists stored,
    merge_entries (Some resolver) entries (set key stored result) = Ok merged
    /\ stored_by resolver result key value stored.
Proof.
  unfold stored_by. destruct value as [| b | n | s | l | o];
    try (simpl; destruct (lookup key result) as [current|];
         [ destruct (resolver key current _) as [stored|e]; simpl;
           [eauto | discriminate]
         | eauto ]).
  rewrite merge_entries_cons_object.
  destruct (deepMerge (Some resolver) (lookup key result) (JObj o))
    as [stored|e]; simpl; [eauto | discriminate].
Qed.

Lemma merge_other resolver : forall entries result merged k,
  merge_entries (Some resolver) entries result = Ok merged ->
  ~ In k (map fst entries) ->
  exists final, merged = JObj final /\ lookup k final = lookup k result.
Proof.
  induction entries as [|[key value] entries IH]; intros result merged k H Hk.
  - simpl in H. inversion H. eauto.
  - apply merge_step in H as (stored & H & _). simpl in Hk.
    destruct (IH _ _ k H) as (final & -> & Hf); [tauto |].
    exists final. split; [reflexivity |].
    rewrite Hf. apply lookup_set_other. intros ->. tauto.
Qed.

Lemma stored_by_lookup resolver result result' key value stored :
  lookup key result' = lookup key result ->
  stored_by resolver result' key value stored ->
  stored_by resolver result key value stored.
Proof. unfold stored_by. now intros ->. Qed.

Lemma merge_at resolver : forall entries result merged k v,
  merge_entries (Some resolver) entries result = Ok merged ->
  NoDup (map fst entries) -> In (k, v) entries ->
  exists final stored,
    merged = JObj final /\ lookup k final = Some stored
    /\ stored_by resolver result k v stored.
Proof.
  induction entries as [|[key value] entries IH];
    intros result merged k v H Hnd Hin; [contradiction |].
  apply merge_step in H as (stored & H & Hstored).
  simpl in Hnd. inversion Hnd as [|? ? Hnotin Hnd']; subst.
  destruct Hin as [Heq | Hin].
  - inversion Heq; subst key value.
    destruct (merge_other _ _ _ _ k H Hnotin) as (final & -> & Hf).
    exists final, stored. split; [reflexivity |]. split; [| exact Hstored].
    rewrite Hf. apply lookup_set_same.
  - destruct (IH _ _ _ _ H Hnd' Hin) as (final & st & -> & Hf & Hst).
    exists final, st. split; [reflexivity |]. split; [exact Hf |].
    eapply stored_by_lookup; [| exact Hst].
    apply lookup_set_other. intros ->.
    apply Hnotin. now apply (in_map fst) in Hin.
Qed.

(** ** A merge into nothing *)

Lemma deep_unique_object o :
  deep_unique (JObj o)
  <-> NoDup (map fst o) /\ Forall (fun entry => deep_unique (snd entry)) o.
Proof.
  simpl. split; intros [Hnd Hall]; (split; [exact Hnd |]); clear Hnd.
  - induction o as [|e o IH]; constructor; [tauto | apply IH; tauto].
  - induction Hall as [|e o He _ IH]; [exact I | split; assumption].
Qed.

Lemma merge_fresh_under n resolver
  (IH : forall o target, depth (JObj o) <= n -> deep_unique (JObj o) ->
        spread_object target = [] ->
        deepMerge resolver target (JObj o) = Ok (JObj o)) :
  forall entries done,
    NoDup (map fst (done ++ entries)) ->
    Forall (fun entry => deep_unique (snd entry)) entries ->
    Forall (fun entry => depth (snd entry) <= n) entries ->
    merge_entries resolver entries done = Ok (JObj (done ++ entries)).
Proof.
  induction entries as [|[key value] entries IHe]; intros done Hnd Hu Hd.
  - simpl. now rewrite app_nil_r.
  - inversion Hu as [|? ? Huv Hu']; inversion Hd as [|? ? Hdv Hd']; subst.
    simpl in Huv, Hdv.
    assert (Hfresh : ~ In key (map fst done)).
    { rewrite map_app in Hnd. simpl in Hnd.
      apply NoDup_remove_2 in Hnd. rewrite in_app_iff in Hnd. tauto. }
    assert (Hnext : merge_entries resolver entries (set key value done)
                    = Ok (JObj (done ++ (key, value) :: entries))).
    { rewrite set_fresh by exact Hfresh.
      rewrite IHe; [now rewrite <- app_assoc | | exact Hu' | exact Hd'].
      now rewrite <- app_assoc. }
    pose proof (lookup_not_in _ _ Hfresh) as Hnone.
    destruct value as [| b | z | s | l | o];
      try (simpl; rewrite Hnone; destruct resolver; exact Hnext).
    rewrite merge_entries_cons_object, Hnone.
    rewrite (IH o None Hdv Huv eq_refl). exact Hnext.
Qed.

Lemma deepMerge_fresh_depth resolver : forall n o target,
  depth (JObj o) <= n -> deep_unique (JObj o) -> spread_object target = [] ->
  deepMerge resolver target (JObj o) = Ok (JObj o).
Proof.
  induction n as [|n IH]; intros o target Hd Hu Hs; [simpl in Hd; lia |].
  rewrite deepMerge_object, Hs.
  apply deep_unique_object in Hu as [Hnd Hall].
  apply (merge_fresh_under n); auto. now apply depth_entries.
Qed.

Lemma deepMerge_fresh resolver o target :
  deep_unique (JObj o) -> spread_object target = [] ->
  deepMerge resolver target (JObj o) = Ok (JObj o).
Proof. apply (deepMerge_fresh_depth resolver (depth (JObj o))). lia. Qed.

Lemma merge_result_object resolver : forall entries result merged,
  merge_entries (Some resolver) entries result = Ok merged ->
  exists final, merged = JObj final.
Proof.
  induction entries as [|[key value] entries IH]; intros result merged H.
  - simpl in H. inversion H. eauto.
  - apply merge_step in H as (stored & H & _). eapply IH, H.
Qed.

(** ** The loop of the dictionary callback *)

Lemma lookup_in_some k v (o : list (string * json)) :
  In (k, v) o -> exists v', lookup k o = Some v'.
Proof.
  induction o as [|[k0 v0] o IH]; [contradiction |].
  simpl. destruct (String.eqb_spec k k0); [eauto |].
  intros [Heq | Hin]; [inversion Heq; congruence | auto].
Qed.

Lemma merge_locales_spec : forall entries m0,
  NoDup (map fst entries) ->
  (forall l v, In l (map fst entries) -> lookup l m0 = Some v ->
               exists text, ToString v = Ok text) ->
  exists m,
    merge_locales entries m0 = Ok m
    /\ (forall l, ~ In l (map fst entries) -> lookup l m = lookup l m0)
    /\ (forall l tr, In (l, tr) entries -> lookup l m0 = None ->
                     lookup l m = Some tr)
    /\ (forall l a b,
          In (l, JStr b) entries -> lookup l m0 = Some (JStr a) ->
          a <> EmptyString ->
          lookup l m
          = Some (JStr (if String.length (trim a) <? String.length (trim b)
                        then b else a))).
Proof.
  induction entries as [|[k v] entries IH]; intros m0 Hnd Htext.
  - exists m0. simpl. repeat split; auto; intros; contradiction.
  - simpl in Hnd. inversion Hnd as [|? ? Hfresh Hnd']; subst.
    assert (Hstep : exists replace,
      (if negb (truthy_opt (lookup k m0)) then Ok true
       else if truthy v && typeof_string v then
         theirs_text <- ToString v ;;
         ours_text <- ToString_opt (lookup k m0) ;;
         Ok (String.length (trim ours_text)
             <? String.length (trim theirs_text))
       else Ok false) = Ok replace
      /\ (lookup k m0 = None -> replace = true)
      /\ (forall a b, v = JStr b -> lookup k m0 = Some (JStr a) ->
                      a <> EmptyString ->
                      replace = (String.length (trim a)
                                 <? String.length (trim b)))).
    { destruct (lookup k m0) as [current|] eqn:Hk.
      - destruct (Htext k current ltac:(now left) Hk) as [text Hcurrent].
        simpl truthy_opt. simpl ToString_opt. rewrite Hcurrent.
        destruct (truthy current) eqn:Htruthy; simpl negb; cbv iota.
        + destruct (truthy v && typeof_string v) eqn:Hv.
          * apply andb_prop in Hv as [_ Hv].
            destruct v as [| | | b | |]; try discriminate. simpl.
            eexists. split; [reflexivity |]. split; [discriminate |].
            intros a b' Hb Ha _. inversion Hb; subst b'.
            inversion Ha; subst current. simpl in Hcurrent.
            now inversion Hcurrent.
          * eexists. split; [reflexivity |]. split; [discriminate |].
            intros a b Hb Ha Hne. subst v. simpl in Hv.
            rewrite andb_true_r in Hv. apply negb_false_iff in Hv.
            apply String.eqb_eq in Hv. subst b.
            symmetry. apply Nat.ltb_ge. simpl. lia.
        + exists true. split; [reflexivity |]. split; [reflexivity |].
          intros a b _ Ha Hne. inversion Ha; subst current.
          simpl in Htruthy. apply negb_false_iff in Htruthy.
          apply String.eqb_eq in Htruthy. contradiction.
      - exists true. simpl. split; [reflexivity |]. split; [reflexivity |].
        intros a b _ Ha. discriminate. }
    destruct Hstep as (replace & Hreplace & Hnew & Hboth).
    set (m1 := if replace then set k v m0 else m0).
    assert (Hm1 : forall l, l <> k -> lookup l m1 = lookup l m0).
    { intros l Hl. unfold m1. destruct replace; [| reflexivity].
      now apply lookup_set_other. }
    destruct (IH m1 Hnd') as (m & Hm & Hother & Hone & Htwo).
    { intros l w Hl Hw. rewrite Hm1 in Hw.
      - apply (Htext l w); [now right | exact Hw].
      - intros ->. contradiction. }
    exists m. split.
    { cbn [merge_locales]. rewrite Hreplace. exact Hm. }
    split; [| split].
    + intros l Hl. simpl in Hl. rewrite Hother by tauto.
      apply Hm1. intros ->. tauto.
    + intros l tr [Heq | Hin] Hnone.
      * inversion Heq; subst l tr. rewrite (Hother k Hfresh).
        unfold m1. rewrite (Hnew Hnone). apply lookup_set_same.
      * apply Hone; [exact Hin |]. rewrite Hm1; [exact Hnone |].
        intros ->. apply Hfresh. now apply (in_map fst) in Hin.
    + intros l a b [Heq | Hin] Ha Hne.
      * inversion Heq; subst l v. rewrite (Hother k Hfresh).
        unfold m1. rewrite (Hboth a b eq_refl Ha Hne).
        destruct (String.length (trim a) <? String.length (trim b));
          [apply lookup_set_same | exact Ha].
      * apply Htwo; [exact Hin | | exact Hne]. rewrite Hm1; [exact Ha |].
        intros ->. apply Hfresh. now apply (in_map fst) in Hin.
Qed.

(** ** The layout of one section *)

Lemma scan_base_kept : forall ls i m bi m' b' e',
  scan ls i m (Some bi) = (m', b', e') -> b' = Some bi.
Proof.
  induction ls as [|x ls IH]; intros i m bi m' b' e' H; simpl in H.
  - congruence.
  - destruct (test CONFLICT_MIDDLE x && _); [eapply IH, H |].
    rewrite andb_false_r in H.
    destruct (test CONFLICT_END x); [congruence | eapply IH, H].
Qed.

Lemma scan_base_spec : forall ls i m m' b' e',
  scan ls i m None = (m', b', e') ->
  match b' with
  | Some bi =>
      exists pre l post,
        ls = pre ++ l :: post /\ bi = i + List.length pre /\
        test CONFLICT_BASE l = true /\
        Forall (not_marker CONFLICT_BASE) pre /\
        (forall e, e' = Some e -> bi < e)
  | None =>
      forall e, e' = Some e ->
                Forall (not_marker CONFLICT_BASE) (firstn (e - i) ls)
  end.
Proof.
  induction ls as [|x ls IH]; intros i m m' b' e' H; simpl in H.
  - inversion H; subst. intros e He. discriminate.
  - assert (Hpush : forall m0,
              scan ls (S i) m0 None = (m', b', e') ->
              test CONFLICT_BASE x = false ->
              match b' with
              | Some bi =>
                  exists pre l post,
                    x :: ls = pre ++ l :: post /\ bi = i + List.length pre /\
                    test CONFLICT_BASE l = true /\
                    Forall (not_marker CONFLICT_BASE) pre /\
                    (forall e, e' = Some e -> bi < e)
              | None =>
                  forall e, e' = Some e ->
                    Forall (not_marker CONFLICT_BASE) (firstn (e - i) (x :: ls))
              end).
    { intros m0 Hs Hx. pose proof (IH _ _ _ _ _ Hs) as Hb.
      destruct b' as [bi|].
      - destruct Hb as (pre & l & post & -> & -> & Hl & Hpre & He).
        exists (x :: pre), l, post. repeat split; simpl; auto; try lia;
          try (intros e Hee; specialize (He e Hee); lia).
      - intros e ->.
        pose proof (scan_end_some _ _ _ _ _ _ _ Hs)
          as (pre & l & post & _ & -> & _).
        replace (S i + List.length pre - i) with (S (List.length pre)) by lia.
        simpl. constructor; [exact Hx |].
        specialize (Hb _ eq_refl).
        now replace (S i + List.length pre - S i) with (List.length pre)
          in Hb by lia. }
    destruct (test CONFLICT_MIDDLE x && _) eqn:Em.
    { apply andb_prop in Em as [Em _].
      eapply Hpush; [exact H | now apply middle_not_base]. }
    rewrite andb_true_r in H.
    destruct (test CONFLICT_BASE x) eqn:Eb.
    { pose proof (scan_base_kept _ _ _ _ _ _ _ H) as ->.
      exists [], x, ls. repeat split; simpl; auto.
      intros e ->. apply scan_end_some in H as (pre & l & post & _ & -> & _).
      lia. }
    destruct (test CONFLICT_END x) eqn:Ee.
    { inversion H; subst. intros e He. inversion He; subst.
      rewrite Nat.sub_diag. constructor. }
    eapply Hpush; [exact H | reflexivity].
Qed.

Lemma slice_prefix (A : Type) (l pre rest : list A) a :
  skipn a l = pre ++ rest -> slice l a (a + List.length pre) = pre.
Proof.
  intros H. unfold slice. rewrite H.
  replace (a + List.length pre - a) with (List.length pre + 0) by lia.
  rewrite firstn_app_2. simpl. apply app_nil_r.
Qed.

Lemma nth_skipn_middle (lines : list string) a pre l post :
  skipn a lines = pre ++ l :: post ->
  nth (a + List.length pre) lines EmptyString = l.
Proof.
  intros H.
  assert (Hl : List.length (skipn a lines) = List.length lines - a)
    by apply length_skipn.
  rewrite H, length_app in Hl. simpl in Hl.
  rewrite <- (firstn_skipn a lines) at 1.
  rewrite app_nth2; rewrite length_firstn; [| lia].
  replace (a + List.length pre - Nat.min a (List.length lines))
    with (List.length pre) by lia.
  rewrite H. apply nth_middle.
Qed.

Lemma parseConflictSection_layout lines s c :
  parseConflictSection lines s = Some c ->
  exists m,
    s < m /\ m < endLine c /\ endLine c < List.length lines
    /\ nth m lines EmptyString = "======="
    /\ Forall (fun l => l <> "=======") (slice lines (s + 1) m)
    /\ theirs c = text_of_lines lines (m + 1) (endLine c)
    /\ match base c with
       | None =>
           ours c = text_of_lines lines (s + 1) m
           /\ Forall (not_marker CONFLICT_BASE)
                     (slice lines (s + 1) (endLine c))
       | Some text =>
           exists b,
             s < b /\ b < endLine c
             /\ test CONFLICT_BASE (nth b lines EmptyString) = true
             /\ Forall (not_marker CONFLICT_BASE) (slice lines (s + 1) b)
             /\ ours c = text_of_lines lines (s + 1) b
             /\ text = text_of_lines lines (b + 1) m
             /\ (m < b -> text = EmptyString)
       end.
Proof.
  unfold parseConflictSection.
  destruct (scan (skipn (s + 1) lines) (s + 1) None None)
    as [[m b] e] eqn:Hscan.
  destruct m as [mi|]; [| discriminate].
  destruct e as [e|]; [| discriminate].
  intros H. inversion H; subst c; clear H. simpl.
  pose proof (scan_middle_some _ _ _ _ _ _ Hscan)
    as (pre1 & lm & post1 & Hls1 & Hmi & Hlm & Hpre1 & Hlt).
  specialize (Hlt e eq_refl).
  pose proof (scan_end_some _ _ _ _ _ _ _ Hscan)
    as (pre & l & post & Hls & He & Hl & Hpre).
  pose proof (proj2 (end_line_is_end _ _ _ _ _ Hls)) as Hlen.
  pose proof (scan_base_spec _ _ _ _ _ _ Hscan) as Hbase.
  exists mi. split; [lia |]. split; [exact Hlt |]. split; [lia |].
  split; [| split; [| split; [reflexivity |]]].
  - subst mi. rewrite (nth_skipn_middle _ _ _ _ _ Hls1).
    now apply middle_marker_iff.
  - subst mi. rewrite (slice_prefix _ _ _ _ _ Hls1).
    eapply Forall_impl; [| exact Hpre1]. intros a Ha Heq.
    apply middle_marker_iff in Heq. red in Ha. congruence.
  - destruct b as [bi|].
    + destruct Hbase as (pre2 & lb & post2 & Hls2 & Hbi & Hlb & Hpre2 & Hbe).
      specialize (Hbe e eq_refl). exists bi.
      split; [lia |]. split; [exact Hbe |].
      split; [subst bi; now rewrite (nth_skipn_middle _ _ _ _ _ Hls2) |].
      split; [subst bi; now rewrite (slice_prefix _ _ _ _ _ Hls2) |].
      split; [reflexivity |]. split; [reflexivity |].
      intros Hmb. unfold text_of_lines, slice.
      replace (mi - (bi + 1)) with 0 by lia. reflexivity.
    + split; [reflexivity |]. exact (Hbase e eq_refl).
Qed.

(** ** Lines and their text *)

Lemma join_cons_split s cur x :
  join (str1 LF) (x :: split_lines_aux s cur)
  = x +++ str1 LF +++ join (str1 LF) (split_lines_aux s cur).
Proof.
  unfold join. simpl.
  destruct (split_lines_aux s cur) eqn:E; [| reflexivity].
  exfalso. revert cur E. induction s as [|c s IH]; intros cur E; simpl in E.
  - discriminate.
  - destruct (Ascii.eqb c LF); [discriminate |].
    destruct (Ascii.eqb c CR); [| eapply IH, E].
    destruct s as [|c' s'']; [discriminate |].
    destruct (Ascii.eqb c' LF); [discriminate | eapply IH, E].
Qed.

Lemma append_empty_r s : s +++ EmptyString = s.
Proof. induction s as [|c s IH]; simpl; [reflexivity | now rewrite IH]. Qed.

Lemma join_split_lines_aux : forall s cur,
  join (str1 LF) (split_lines_aux s cur) = cur +++ crlf_to_lf s.
Proof.
  induction s as [|c s IH]; intros cur.
  - simpl. now rewrite append_empty_r.
  - cbn [split_lines_aux crlf_to_lf].
    destruct (Ascii.eqb_spec c LF) as [-> | Hlf].
    + change (Ascii.eqb LF CR) with false. cbv iota.
      rewrite join_cons_split, IH. reflexivity.
    + destruct (Ascii.eqb_spec c CR) as [-> | Hcr].
      * destruct s as [|c' s''].
        { simpl. reflexivity. }
        destruct (Ascii.eqb_spec c' LF) as [-> | Hlf'].
        { specialize (IH cur). cbn [split_lines_aux] in IH.
          rewrite Ascii.eqb_refl in IH. exact IH. }
        rewrite IH. now rewrite append_assoc_char.
      * rewrite IH. now rewrite append_assoc_char.
Qed.

Lemma crlf_to_lf_fixed : forall s,
  includes (String CR (str1 LF)) s = false -> crlf_to_lf s = s.
Proof.
  induction s as [|c s IH]; intros H; [reflexivity |].
  cbn [includes] in H. apply orb_false_iff in H as [Hp Hrest].
  cbn [crlf_to_lf]. rewrite (IH Hrest).
  destruct (Ascii.eqb_spec c CR) as [-> | Hcr]; [| reflexivity].
  destruct s as [|c' s'']; [reflexivity |].
  destruct (Ascii.eqb_spec c' LF) as [-> | Hlf]; [| reflexivity].
  exfalso. cbn [String.prefix] in Hp.
  destruct (ascii_dec CR CR); [| congruence].
  destruct (ascii_dec LF LF); [| congruence].
  destruct s''; discriminate.
Qed.

(** ** Counting sections *)

Lemma slice_skipn (A : Type) (l : list A) a b :
  a <= b -> skipn a l = slice l a b ++ skipn b l.
Proof.
  intros Hab. unfold slice.
  replace (skipn b l) with (skipn (b - a) (skipn a l)).
  - symmetry. apply firstn_skipn.
  - rewrite skipn_skipn. f_equal. lia.
Qed.

Lemma sections_count (r : regex) lines :
  (forall c, well_formed_section lines c ->
             1 <= count_lines r (section_lines lines c)) ->
  forall i cs,
    sections_from lines i cs ->
    List.length cs <= count_lines r (skipn i lines).
Proof.
  intros Hone i cs H.
  induction H as [|i c cs Hle Hlt Hst Hc Hcs IH]; simpl; [lia |].
  pose proof (section_well_formed _ _ Hlt Hst Hc) as Hwf.
  pose proof Hwf as (Hse & _).
  rewrite (slice_skipn _ lines i (startLine c)) by exact Hle.
  rewrite (slice_skipn _ lines (startLine c) (endLine c + 1)) by lia.
  rewrite !count_lines_app. specialize (Hone c Hwf).
  unfold section_lines in Hone. lia.
Qed.

Lemma section_has_start lines c :
  well_formed_section lines c ->
  1 <= count_lines CONFLICT_START (section_lines lines c).
Proof.
  intros (Hse & Hel & Hst & _).
  apply count_lines_in with (x := nth (startLine c) lines EmptyString);
    [| exact Hst].
  unfold section_lines, slice. rewrite skipn_cons_nth by lia.
  replace (endLine c + 1 - startLine c) with (S (endLine c - startLine c))
    by lia.
  simpl. now left.
Qed.

(** ** The text after the resolution *)

Lemma closes_mono : forall ls,
  closes false ls = true -> closes true ls = true.
Proof.
  induction ls as [|x ls IH]; simpl; [discriminate |].
  destruct (test CONFLICT_MIDDLE x); [tauto |].
  destruct (test CONFLICT_END x); [reflexivity | exact IH].
Qed.

Lemma parseLoop_parsed : forall fuel lines i acc res,
  parseLoop fuel lines i acc = Some res ->
  exists new, res = acc ++ new /\ parsed_from lines i new.
Proof.
  induction fuel as [|fuel IH]; intros lines i acc res H; simpl in H;
    destruct (i <? List.length lines) eqn:Hi; try discriminate;
    try (inversion H; subst; exists []; split;
         [symmetry; apply app_nil_r
         | constructor; apply Nat.ltb_ge in Hi; exact Hi]).
  apply Nat.ltb_lt in Hi.
  destruct (test CONFLICT_START (nth i lines EmptyString)) eqn:Hstart.
  - destruct (parseConflictSection lines i) as [c|] eqn:Hc.
    + apply IH in H as (new & -> & Hnew).
      exists (c :: new). split; [rewrite <- app_assoc; reflexivity |].
      now apply parsed_section.
    + apply IH in H as (new & -> & Hnew). exists new. split; [reflexivity |].
      apply parsed_skip; auto.
  - apply IH in H as (new & -> & Hnew). exists new. split; [reflexivity |].
    apply parsed_skip; auto.
Qed.

Lemma parseLines_parsed lines : parsed_from lines 0 (parseLines lines).
Proof.
  unfold parseLines.
  destruct (parseLoop_total (List.length lines) lines 0 [] ltac:(lia))
    as [res Hres].
  rewrite Hres. apply parseLoop_parsed in Hres as (new & -> & Hnew).
  exact Hnew.
Qed.

Lemma parsed_from_lower lines : forall i cs,
  parsed_from lines i cs -> Forall (fun c => i <= startLine c) cs.
Proof.
  intros i cs H.
  induction H as [i Hi | i cs Hi Hskip Hcs IH | i c cs Hi Hst Hc Hcs IH].
  - constructor.
  - eapply Forall_impl; [| exact IH]. simpl. intros; lia.
  - pose proof Hc as Hsome.
    apply parseConflictSection_some in Hsome
      as (Hs & pre & l & post & _ & He & _).
    constructor; [lia |].
    eapply Forall_impl; [| exact IH]. simpl. intros; lia.
Qed.

Lemma rebuild_pass resolver lines i cs :
  i < List.length lines ->
  Forall (fun c => i + 1 <= startLine c) cs ->
  rebuild resolver lines i cs
  = nth i lines EmptyString :: rebuild resolver lines (i + 1) cs.
Proof.
  intros Hi Hlow. destruct cs as [|c cs]; simpl.
  - now apply skipn_cons_nth.
  - apply Forall_inv in Hlow. unfold slice.
    rewrite (skipn_cons_nth _ _ Hi).
    replace (startLine c - i) with (S (startLine c - (i + 1))) by lia.
    reflexivity.
Qed.

Lemma rebuild_section resolver lines c cs :
  rebuild resolver lines (startLine c) (c :: cs)
  = split_lines (resolver c) ++ rebuild resolver lines (endLine c + 1) cs.
Proof. simpl. unfold slice. now rewrite Nat.sub_diag. Qed.

(** The lines from a section on: the search succeeds on them whatever was
    seen before. *)
Lemma section_closes lines s c hasMiddle :
  test CONFLICT_START (nth s lines EmptyString) = true ->
  s < List.length lines ->
  parseConflictSection lines s = Some c ->
  closes hasMiddle (skipn s lines) = true.
Proof.
  intros Hst Hs Hc. rewrite (skipn_cons_nth _ _ Hs). simpl.
  rewrite (start_not_middle _ Hst), (start_not_end _ Hst).
  assert (H : closes false (skipn (s + 1) lines) = true).
  { destruct (closes false (skipn (s + 1) lines)) eqn:E; [reflexivity |].
    apply parseConflictSection_closes in E. congruence. }
  destruct hasMiddle; [now apply closes_mono | exact H].
Qed.

(** A search that fails on the lines of the text fails on the lines of the
    resolved text. *)
Lemma closes_rebuild resolver lines : forall i cs,
  parsed_from lines i cs ->
  forall hasMiddle,
    closes hasMiddle (skipn i lines) = false ->
    closes hasMiddle (rebuild resolver lines i cs) = false.
Proof.
  intros i cs H.
  induction H as [i Hi | i cs Hi Hskip Hcs IH | i c cs Hi Hst Hc Hcs IH];
    intros hasMiddle Hfail.
  - exact Hfail.
  - rewrite rebuild_pass;
      [| exact Hi | exact (parsed_from_lower _ _ _ Hcs)].
    rewrite (skipn_cons_nth _ _ Hi) in Hfail. simpl in *.
    destruct (test CONFLICT_MIDDLE (nth i lines EmptyString));
      [now apply IH |].
    destruct (test CONFLICT_END (nth i lines EmptyString));
      [exact Hfail | now apply IH].
  - rewrite (section_closes lines i c hasMiddle Hst Hi Hc) in Hfail.
    discriminate.
Qed.

Lemma no_candidate_closes_cons l ls :
  (test CONFLICT_START l = true -> closes false ls = false) ->
  no_candidate_closes ls -> no_candidate_closes (l :: ls).
Proof.
  intros Hl Hls pre x post Heq Hx. destruct pre as [|y pre]; simpl in Heq.
  - inversion Heq; subst. auto.
  - inversion Heq; subst. eapply Hls; eauto.
Qed.

Lemma no_candidate_closes_app r ls :
  Forall (not_marker CONFLICT_START) r ->
  no_candidate_closes ls -> no_candidate_closes (r ++ ls).
Proof.
  induction 1 as [|l r Hl _ IH]; intros Hls; simpl; [exact Hls |].
  apply no_candidate_closes_cons; [| auto].
  red in Hl. congruence.
Qed.

Lemma rebuild_no_candidate resolver lines : forall i cs,
  parsed_from lines i cs ->
  (forall c, In c cs ->
             Forall (not_marker CONFLICT_START) (split_lines (resolver c))) ->
  no_candidate_closes (rebuild resolver lines i cs).
Proof.
  intros i cs H.
  induction H as [i Hi | i cs Hi Hskip Hcs IH | i c cs Hi Hst Hc Hcs IH];
    intros Hres.
  - simpl. rewrite skipn_all2 by exact Hi.
    intros pre l post Heq. destruct pre; discriminate.
  - rewrite rebuild_pass;
      [| exact Hi | exact (parsed_from_lower _ _ _ Hcs)].
    apply no_candidate_closes_cons; [| auto].
    intros Hstart. apply closes_rebuild; [exact Hcs |].
    apply parseConflictSection_closes.
    destruct Hskip as [Hno | Hnone]; [congruence | exact Hnone].
  - pose proof Hc as Hsome.
    apply parseConflictSection_some in Hsome as [Hs _]. subst i.
    rewrite rebuild_section. apply no_candidate_closes_app.
    + apply Hres. now left.
    + apply IH. intros c' Hc'. apply Hres. now right.
Qed.

Lemma no_candidate_no_section ls :
  no_candidate_closes ls -> parseLines ls = [].
Proof.
  intros Hdead. pose proof (parseLines_sections ls) as H.
  destruct (parseLines ls) as [|c cs]; [reflexivity |].
  inversion H as [|? ? ? _ Hlt Hst Hc _]; subst.
  assert (Hsplit : ls = firstn (startLine c) ls
                        ++ nth (startLine c) ls EmptyString
                        :: skipn (startLine c + 1) ls).
  { rewrite <- skipn_cons_nth by exact Hlt. symmetry. apply firstn_skipn. }
  pose proof (Hdead _ _ _ Hsplit Hst) as Hfail.
  apply parseConflictSection_closes in Hfail. congruence.
Qed.

(** *** Lines without line terminators *)

Lemma all_chars_append p a b :
  all_chars p (a +++ b) = all_chars p a && all_chars p b.
Proof.
  induction a as [|c a IH]; simpl; [reflexivity |].
  now rewrite IH, andb_assoc.
Qed.

Lemma split_lines_aux_lines : forall s cur,
  no_cr s -> plain_line cur -> Forall plain_line (split_lines_aux s cur).
Proof.
  unfold no_cr, plain_line.
  induction s as [|c s IH]; intros cur Hs Hcur; simpl.
  - now constructor.
  - simpl in Hs. apply andb_prop in Hs as [Hc Hs].
    apply negb_true_iff in Hc. rewrite Hc.
    destruct (Ascii.eqb c LF) eqn:Hlf.
    + constructor; [exact Hcur | now apply IH].
    + apply IH; [exact Hs |]. rewrite all_chars_append, Hcur. simpl.
      unfold is_line_terminator. now rewrite Hlf, Hc.
Qed.

Lemma split_lines_lines s : no_cr s -> Forall plain_line (split_lines s).
Proof. intros H. now apply split_lines_aux_lines. Qed.

Lemma split_lines_aux_prefix : forall l rest cur,
  plain_line l ->
  split_lines_aux (l +++ String LF rest) cur
  = (cur +++ l) :: split_lines_aux rest EmptyString.
Proof.
  unfold plain_line.
  induction l as [|c l IH]; intros rest cur Hl.
  - simpl. now rewrite append_empty_r.
  - simpl in Hl. apply andb_prop in Hl as [Hc Hl].
    unfold is_line_terminator in Hc. apply negb_true_iff in Hc.
    apply orb_false_iff in Hc as [Hlf Hcr].
    cbn [String.append split_lines_aux]. rewrite Hlf, Hcr.
    rewrite (IH _ _ Hl). now rewrite append_assoc_char.
Qed.

Lemma split_join_lines : forall ls l,
  plain_line l -> Forall plain_line ls ->
  split_lines (join (str1 LF) (l :: ls)) = l :: ls.
Proof.
  unfold split_lines.
  induction ls as [|l2 ls IH]; intros l Hl Hls.
  - simpl. now rewrite split_lines_aux_plain.
  - inversion Hls as [|? ? Hl2 Hls']; subst.
    change (join (str1 LF) (l :: l2 :: ls))
      with (l +++ String LF (join (str1 LF) (l2 :: ls))).
    rewrite (split_lines_aux_prefix _ _ _ Hl). simpl String.append.
    f_equal. now apply IH.
Qed.

Lemma Forall_firstn_of (A : Type) (P : A -> Prop) (l : list A) n :
  Forall P l -> Forall P (firstn n l).
Proof.
  intros H. rewrite <- (firstn_skipn n l) in H.
  now apply Forall_app in H.
Qed.

Lemma Forall_skipn_of (A : Type) (P : A -> Prop) (l : list A) n :
  Forall P l -> Forall P (skipn n l).
Proof.
  intros H. rewrite <- (firstn_skipn n l) in H.
  now apply Forall_app in H.
Qed.

Lemma Forall_slice (A : Type) (P : A -> Prop) (l : list A) a b :
  Forall P l -> Forall P (slice l a b).
Proof.
  intros H. unfold slice. now apply Forall_firstn_of, Forall_skipn_of.
Qed.

Lemma rebuild_lines resolver lines : forall cs i,
  Forall plain_line lines ->
  (forall c, In c cs -> Forall plain_line (split_lines (resolver c))) ->
  Forall plain_line (rebuild resolver lines i cs).
Proof.
  induction cs as [|c cs IH]; intros i Hlines Hres; simpl.
  - now apply Forall_skipn_of.
  - apply Forall_app. split; [now apply Forall_slice |].
    apply Forall_app. split; [apply Hres; now left |].
    apply IH; [exact Hlines |]. intros c' Hc'. apply Hres. now right.
Qed.

(** ** Lines as parts of the text *)

Lemma append_assoc (a b c : string) : (a +++ b) +++ c = a +++ (b +++ c).
Proof. induction a as [|d a IH]; simpl; [reflexivity | now rewrite IH]. Qed.

Lemma prefix_append p b : String.prefix p (p +++ b) = true.
Proof.
  induction p as [|c p IH]; simpl; [now destruct b |].
  destruct (ascii_dec c c); [exact IH | congruence].
Qed.

Lemma includes_prefix p s : String.prefix p s = true -> includes p s = true.
Proof. intros H. destruct s; cbn [includes]; now rewrite H. Qed.

Lemma includes_part p : forall a b, includes p (a +++ p +++ b) = true.
Proof.
  induction a as [|c a IH]; intros b.
  - apply includes_prefix. exact (prefix_append p b).
  - simpl String.append. cbn [includes]. rewrite IH. apply orb_true_r.
Qed.

Lemma prefix_part : forall p s,
  String.prefix p s = true -> exists b, s = p +++ b.
Proof.
  induction p as [|c p IH]; intros s H.
  - exists s. reflexivity.
  - destruct s as [|d s]; simpl in H; [discriminate |].
    destruct (ascii_dec c d) as [-> |]; [| discriminate].
    destruct (IH _ H) as [b ->]. exists b. reflexivity.
Qed.

Lemma includes_parts p : forall s,
  includes p s = true -> exists a b, s = a +++ p +++ b.
Proof.
  induction s as [|c s IH]; intros H; cbn [includes] in H;
    apply orb_prop in H as [H | H].
  - apply prefix_part in H as [b ->]. exists EmptyString, b. reflexivity.
  - discriminate.
  - apply prefix_part in H as [b ->]. exists EmptyString, b. reflexivity.
  - destruct (IH H) as (a & b & ->). exists (String c a), b. reflexivity.
Qed.

(** Every line is a part of the text it comes from. *)
Lemma line_part : forall s cur l,
  In l (split_lines_aux s cur) -> exists a b, cur +++ s = a +++ l +++ b.
Proof.
  induction s as [|c s IH]; intros cur l Hin.
  - simpl in Hin. destruct Hin as [<- | []].
    exists EmptyString, EmptyString. reflexivity.
  - cbn [split_lines_aux] in Hin.
    assert (Hplain : In l (split_lines_aux s (cur +++ str1 c)) ->
                     exists a b, cur +++ String c s = a +++ l +++ b).
    { intros H. destruct (IH _ _ H) as (a & b & E). exists a, b.
      now rewrite <- E, append_assoc_char. }
    destruct (Ascii.eqb c LF) eqn:Hlf.
    + apply Ascii.eqb_eq in Hlf. subst c. destruct Hin as [<- | Hl].
      * exists EmptyString, (String LF s). reflexivity.
      * destruct (IH _ _ Hl) as (a & b & E). simpl in E.
        exists (cur +++ String LF a), b. rewrite append_assoc. simpl.
        now rewrite <- E.
    + destruct (Ascii.eqb c CR) eqn:Hcr; [| now apply Hplain].
      destruct s as [|c' s'']; [now apply Hplain |].
      destruct (Ascii.eqb c' LF) eqn:Hlf'; [| now apply Hplain].
      apply Ascii.eqb_eq in Hcr. apply Ascii.eqb_eq in Hlf'. subst c c'.
      destruct Hin as [<- | Hl].
      * exists EmptyString, (String CR (String LF s'')). reflexivity.
      * assert (Hl' : In l (split_lines_aux (String LF s'') EmptyString)).
        { cbn [split_lines_aux]. rewrite Ascii.eqb_refl. now right. }
        destruct (IH _ _ Hl') as (a & b & E). simpl in E.
        exists (cur +++ String CR a), b. rewrite append_assoc. simpl.
        now rewrite <- E.
Qed.

Lemma includes_line p content l :
  In l (split_lines content) -> includes p l = true ->
  includes p content = true.
Proof.
  intros Hin Hp. apply line_part in Hin as (a & b & E). simpl in E.
  apply includes_parts in Hp as (a' & b' & ->). rewrite E.
  rewrite !append_assoc, <- (append_assoc a a').
  apply includes_part.
Qed.

Lemma count_lines_some r ls :
  1 <= count_lines r ls -> exists l, In l ls /\ test r l = true.
Proof.
  unfold count_lines. intros H.
  destruct (filter (test r) ls) as [|l rest] eqn:E; [simpl in H; lia |].
  assert (Hl : In l (filter (test r) ls)) by (rewrite E; now left).
  apply filter_In in Hl. eauto.
Qed.

Lemma labelled_marker_includes mark l :
  labelled_marker mark l -> includes (run mark 7) l = true.
Proof.
  intros (label & -> & _).
  apply (includes_part (run mark 7) EmptyString).
Qed.

(** ** A second resolution *)

Lemma resolved_text_no_section (content : string)
    (resolver : ConflictSection -> string) :
  no_cr content ->
  (forall c, In c (parseConflicts content) ->
             no_cr (resolver c)
             /\ Forall (not_marker CONFLICT_START)
                       (split_lines (resolver c))) ->
  parseConflicts (resolveConflicts content resolver) = []
  /\ forall resolver',
       resolveConflicts (resolveConflicts content resolver) resolver'
       = resolveConflicts content resolver.
Proof.
  intros Hcontent Hres.
  pose proof (parseLines_parsed (split_lines content)) as Hparsed.
  fold (parseConflicts content) in Hparsed.
  assert (Htext : resolveConflicts content resolver
                  = join (str1 LF)
                      (rebuild resolver (split_lines content) 0
                         (parseConflicts content))).
  { unfold resolveConflicts, parseConflicts. f_equal.
    rewrite (resolveLines_rebuild resolver _ 0 _
               (parseLines_sections (split_lines content))) by lia.
    reflexivity. }
  assert (Hplain : Forall plain_line
                     (rebuild resolver (split_lines content) 0
                        (parseConflicts content))).
  { apply rebuild_lines; [now apply split_lines_lines |].
    intros c Hc. apply split_lines_lines. now apply Hres. }
  assert (Hdead : no_candidate_closes
                    (rebuild resolver (split_lines content) 0
                       (parseConflicts content))).
  { apply rebuild_no_candidate; [exact Hparsed |].
    intros c Hc. now apply Hres. }
  assert (Hnone : parseConflicts (resolveConflicts content resolver) = []).
  { rewrite Htext.
    destruct (rebuild resolver (split_lines content) 0
                (parseConflicts content)) as [|l ls] eqn:Hout;
      [reflexivity |].
    unfold parseConflicts. inversion Hplain; subst.
    rewrite split_join_lines by assumption.
    now apply no_candidate_no_section. }
  split; [exact Hnone |]. intros resolver'.
  unfold resolveConflicts at 1. rewrite Hnone. cbn [resolveLines rev fold_left].
  rewrite Htext.
  destruct (rebuild resolver (split_lines content) 0
              (parseConflicts content)) as [|l ls] eqn:Hout;
    [reflexivity |].
  inversion Hplain; subst. now rewrite split_join_lines by assumption.
Qed.


Lemma resolveFile_no_section rt options uuid filePath fs content :
  readFile filePath fs = Some content ->
  parseConflicts content = [] ->
  snd (resolveFile rt options uuid filePath fs) = fs
  /\ conflictsResolved (fst (resolveFile rt options uuid filePath fs)) = 0.
Proof.
  intros Hread Hnone. unfold resolveFile. rewrite Hread, Hnone.
  destruct (MAX_FILE_SIZE <? N.of_nat (String.length content))%N;
    [split; reflexivity |].
  destruct (hasConflictMarkers content); split; reflexivity.
Qed.

(** ** The command *)

Lemma resolveFile_frame rt options uuid filePath fs other :
  other <> filePath -> other <> backupPath filePath uuid ->
  readFile other (snd (resolveFile rt options uuid filePath fs))
  = readFile other fs.
Proof.
  intros Hfile Hbackup.
  apply String.eqb_neq in Hfile. apply String.eqb_neq in Hbackup.
  destruct (resolveFile_writes rt options uuid filePath fs)
    as [H | [(content & _ & _ & _ & H & _) | (content & _ & _ & _ & _ & H)]];
    rewrite H; [reflexivity | |].
  - unfold writeFile. cbn [readFile]. now rewrite Hbackup.
  - unfold writeFile. cbn [readFile]. rewrite Hfile.
    destruct (backup options); [| reflexivity].
    cbn [readFile]. now rewrite Hbackup.
Qed.

Lemma resolveFile_dry rt options uuid filePath fs :
  dryRun options = true ->
  snd (resolveFile rt options uuid filePath fs) = fs.
Proof.
  intros Hdry.
  destruct (resolveFile_writes rt options uuid filePath fs)
    as [H | [(content & _ & _ & Hd & _) | (content & _ & Hd & _)]];
    [exact H | congruence | congruence].
Qed.

(** The result of [resolveFile] depends on the text of the file, on the
    strategy and on [verbose], not on the other options, on the rest of the
    disk or on the identifier of the backup. *)
Lemma resolveFile_result rt o o' u u' filePath fs fs' :
  readFile filePath fs = readFile filePath fs' ->
  strategy o = strategy o' -> verbose o = verbose o' ->
  fst (resolveFile rt o u filePath fs)
  = fst (resolveFile rt o' u' filePath fs').
Proof.
  intros Hread Hs Hv. unfold resolveFile. rewrite <- Hread.
  destruct (readFile filePath fs) as [content|]; [| reflexivity].
  destruct (MAX_FILE_SIZE <? N.of_nat (String.length content))%N;
    [reflexivity |].
  destruct (negb (hasConflictMarkers content)); [reflexivity |].
  destruct (List.length (parseConflicts content) =? 0); [reflexivity |].
  unfold resolveConflict, getResolutionDetails. rewrite Hs, Hv.
  destruct (validateResolvedContent rt _ filePath); reflexivity.
Qed.

Lemma resolveOne_disk rt uuid options resolver k filePath st :
  MergeResolve.disk (MergeResolve.resolveOne rt uuid options resolver k
                       filePath st)
  = snd (resolveFile rt resolver (uuid k) filePath (MergeResolve.disk st)).
Proof.
  unfold MergeResolve.resolveOne.
  destruct (success (fst (resolveFile rt resolver (uuid k) filePath
                            (MergeResolve.disk st)))); reflexivity.
Qed.

Lemma resolveOne_counts rt uuid options resolver k filePath st :
  MergeResolve.resolvedCount
    (MergeResolve.resolveOne rt uuid options resolver k filePath st)
  = MergeResolve.resolvedCount st
    + (if success (fst (resolveFile rt resolver (uuid k) filePath
                          (MergeResolve.disk st)))
       then 1 else 0)
  /\ MergeResolve.failedCount
       (MergeResolve.resolveOne rt uuid options resolver k filePath st)
     = MergeResolve.failedCount st
       + (if success (fst (resolveFile rt resolver (uuid k) filePath
                             (MergeResolve.disk st)))
          then 0 else 1).
Proof.
  unfold MergeResolve.resolveOne.
  destruct (success (fst (resolveFile rt resolver (uuid k) filePath
                            (MergeResolve.disk st)))); simpl; lia.
Qed.

Lemma resolveAll_dry rt uuid options resolver :
  dryRun resolver = true ->
  forall conflictedFiles k st,
    MergeResolve.disk
      (MergeResolve.resolveAll rt uuid options resolver k conflictedFiles st)
    = MergeResolve.disk st.
Proof.
  intros Hdry conflictedFiles.
  induction conflictedFiles as [|f rest IH]; intros k st; simpl;
    [reflexivity |].
  rewrite IH, resolveOne_disk. now apply resolveFile_dry.
Qed.

Lemma resolveAll_frame rt uuid options resolver other :
  forall conflictedFiles k st,
    (forall f j, In f conflictedFiles -> other <> backupPath f (uuid j)) ->
    ~ In other conflictedFiles ->
    readFile other
      (MergeResolve.disk
         (MergeResolve.resolveAll rt uuid options resolver k
            conflictedFiles st))
    = readFile other (MergeResolve.disk st).
Proof.
  induction conflictedFiles as [|f rest IH]; intros k st Hbackup Hnotin;
    simpl; [reflexivity |].
  simpl in Hnotin. rewrite IH; [| intros g j Hg; apply Hbackup; now right
                                | tauto].
  rewrite resolveOne_disk.
  apply resolveFile_frame; [intros -> | apply Hbackup; now left]. tauto.
Qed.

Lemma resolveAll_total rt uuid options resolver :
  forall conflictedFiles k st,
    MergeResolve.resolvedCount
      (MergeResolve.resolveAll rt uuid options resolver k conflictedFiles st)
    + MergeResolve.failedCount
        (MergeResolve.resolveAll rt uuid options resolver k conflictedFiles
           st)
    = MergeResolve.resolvedCount st + MergeResolve.failedCount st
      + List.length conflictedFiles.
Proof.
  induction conflictedFiles as [|f rest IH]; intros k st; simpl; [lia |].
  rewrite IH.
  destruct (resolveOne_counts rt uuid options resolver k f st) as [-> ->].
  destruct (success _); lia.
Qed.

(** Two runs of the loop over the same files, with the same strategy and
    the same [verbose], one of them a dry run, count the same. *)
Lemma resolveAll_same_counts rt uuid uuid' options options' resolver
    resolver' :
  strategy resolver = strategy resolver' ->
  verbose resolver = verbose resolver' ->
  dryRun resolver' = true ->
  forall conflictedFiles k st st',
    NoDup conflictedFiles ->
    (forall f g j, In f conflictedFiles -> In g conflictedFiles ->
                   g <> backupPath f (uuid j)) ->
    (forall g, In g conflictedFiles ->
               readFile g (MergeResolve.disk st)
               = readFile g (MergeResolve.disk st')) ->
    MergeResolve.resolvedCount st = MergeResolve.resolvedCount st' ->
    MergeResolve.failedCount st = MergeResolve.failedCount st' ->
    MergeResolve.resolvedCount
      (MergeResolve.resolveAll rt uuid options resolver k conflictedFiles st)
    = MergeResolve.resolvedCount
        (MergeResolve.resolveAll rt uuid' options' resolver' k
           conflictedFiles st')
    /\ MergeResolve.failedCount
         (MergeResolve.resolveAll rt uuid options resolver k conflictedFiles
            st)
       = MergeResolve.failedCount
           (MergeResolve.resolveAll rt uuid' options' resolver' k
              conflictedFiles st').
Proof.
  intros Hs Hv Hdry conflictedFiles.
  induction conflictedFiles as [|f rest IH];
    intros k st st' Hnd Hbackup Hdisk Hr Hf; simpl; [auto |].
  inversion Hnd as [|? ? Hnotin Hnd']; subst.
  assert (Hres : fst (resolveFile rt resolver (uuid k) f
                        (MergeResolve.disk st))
                 = fst (resolveFile rt resolver' (uuid' k) f
                          (MergeResolve.disk st'))).
  { apply resolveFile_result; auto. apply Hdisk. now left. }
  apply IH.
  - exact Hnd'.
  - intros f0 g j Hf0 Hg. apply Hbackup; now right.
  - intros g Hg. rewrite !resolveOne_disk.
    rewrite (resolveFile_dry rt resolver' _ _ _ Hdry).
    rewrite resolveFile_frame.
    + apply Hdisk. now right.
    + intros ->. contradiction.
    + apply Hbackup; [now left | now right].
  - destruct (resolveOne_counts rt uuid options resolver k f st) as [-> _].
    destruct (resolveOne_counts rt uuid' options' resolver' k f st')
      as [-> _].
    rewrite Hres, Hr. reflexivity.
  - destruct (resolveOne_counts rt uuid options resolver k f st) as [_ ->].
    destruct (resolveOne_counts rt uuid' options' resolver' k f st')
      as [_ ->].
    rewrite Hres, Hf. reflexivity.
Qed.

Lemma filter_readsWithMarkers fs other files :
  MergeResolve.readsWithMarkers fs other = false ->
  ~ In other (filter (MergeResolve.readsWithMarkers fs) files).
Proof. intros H Hin. apply filter_In in Hin as [_ Hin]. congruence. Qed.

Lemma findConflictedFiles_filter glob pattern fs conflictedFiles :
  MergeResolve.findConflictedFiles glob pattern fs = Ok conflictedFiles ->
  exists allFiles,
    conflictedFiles = filter (MergeResolve.readsWithMarkers fs) allFiles.
Proof.
  unfold MergeResolve.findConflictedFiles.
  destruct (fold_left _ _ _) as [allFiles | e]; simpl; [| discriminate].
  intros H. inversion H. eauto.
Qed.

End MoreFacts.
Import MoreFacts.

(** X1. With [dryRun] set, [resolveFile] leaves the disk as it found it,
    whatever the file holds and whatever the outcome is. *)
Theorem resolveFile_dry_run_writes_nothing (rt : JsRuntime)
    (options : ResolverOptions) (uuid filePath : string) (fs : FileSystem) :
  dryRun options = true ->
  snd (resolveFile rt options uuid filePath fs) = fs.
Proof.
  intros Hdry.
  destruct (resolveFile_writes rt options uuid filePath fs)
    as [H | [(content & _ & _ & Hd & _) | (content & _ & Hd & _)]];
    [exact H | congruence | congruence].
Qed.

Lemma resolveFile_dry_run_writes_nothing_witness :
  snd (resolveFile rt0
         {| strategy := smart; verbose := false; dryRun := true;
            backup := true |}
         "id" "lingo/meta.json" [("lingo/meta.json", mockMetaConflict)])
  = [("lingo/meta.json", mockMetaConflict)].
Proof.
  apply (resolveFile_dry_run_writes_nothing rt0 _ "id" "lingo/meta.json").
  reflexivity.
Defined.

(** X2. [resolveFile] writes to two paths at most, the file and its backup
    copy: every other path reads after the call as it read before. *)
Theorem resolveFile_touches_two_paths (rt : JsRuntime)
    (options : ResolverOptions) (uuid filePath : string) (fs : FileSystem)
    (other : string) :
  other <> filePath ->
  other <> backupPath filePath uuid ->
  readFile other (snd (resolveFile rt options uuid filePath fs))
  = readFile other fs.
Proof.
  intros Hfile Hbackup.
  apply String.eqb_neq in Hfile. apply String.eqb_neq in Hbackup.
  destruct (resolveFile_writes rt options uuid filePath fs)
    as [H | [(content & _ & _ & _ & H & _) | (content & _ & _ & _ & _ & H)]];
    rewrite H; [reflexivity | |].
  - unfold writeFile. cbn [readFile]. now rewrite Hbackup.
  - unfold writeFile. cbn [readFile]. rewrite Hfile.
    destruct (backup options); [| reflexivity].
    cbn [readFile]. now rewrite Hbackup.
Qed.

Lemma resolveFile_touches_two_paths_witness :
  readFile "README.md"
    (snd (resolveFile rt0 backup_options "id" "lingo/meta.json"
            [("lingo/meta.json", mockMetaConflict); ("README.md", "hello")]))
  = Some "hello".
Proof.
  rewrite (resolveFile_touches_two_paths rt0 backup_options "id"
             "lingo/meta.json" _ "README.md").
  - reflexivity.
  - discriminate.
  - discriminate.
Defined.

(** X3. Whenever [resolveFile] reports a failure (no such file, file too
    large, invalid markers, invalid syntax after resolution), the file
    reads after the call as it read before. *)
Theorem resolveFile_failure_keeps_file (rt : JsRuntime)
    (options : ResolverOptions) (uuid filePath : string) (fs : FileSystem) :
  success (fst (resolveFile rt options uuid filePath fs)) = false ->
  readFile filePath (snd (resolveFile rt options uuid filePath fs))
  = readFile filePath fs.
Proof.
  intros Hfail.
  destruct (resolveFile_writes rt options uuid filePath fs)
    as [H | [(content & Hread & _ & _ & H & _)
            | (content & _ & _ & Hok & _)]].
  - now rewrite H.
  - rewrite H. unfold writeFile. cbn [readFile].
    rewrite String.eqb_sym, backupPath_differs. reflexivity.
  - congruence.
Qed.

Lemma resolveFile_failure_keeps_file_witness :
  readFile "lingo/meta.json"
    (snd (resolveFile rt0 backup_options "id" "lingo/meta.json"
            [("lingo/meta.json", broken_meta)]))
  = Some broken_meta.
Proof.
  rewrite (resolveFile_failure_keeps_file rt0 backup_options "id"
             "lingo/meta.json"); reflexivity.
Defined.

(** X4. When [resolveFile] succeeds on a text with conflict markers and
    [dryRun] is not set, the file holds the resolved text, that text passes
    the validation of its format, and the count of conflicts resolved is
    the number of sections parsed, at least one. For [meta.json] the text
    on disk is one [JSON.parse] accepts. *)
Theorem resolveFile_success_writes_valid_text (rt : JsRuntime)
    (options : ResolverOptions) (uuid filePath : string) (fs : FileSystem)
    (content : string) :
  readFile filePath fs = Some content ->
  hasConflictMarkers content = true ->
  dryRun options = false ->
  success (fst (resolveFile rt options uuid filePath fs)) = true ->
  readFile filePath (snd (resolveFile rt options uuid filePath fs))
  = Some (resolvedText rt options filePath content)
  /\ validateResolvedContent rt (resolvedText rt options filePath content)
       filePath = None
  /\ conflictsResolved (fst (resolveFile rt options uuid filePath fs))
     = List.length (parseConflicts content)
  /\ 1 <= List.length (parseConflicts content)
  /\ (basename filePath = "meta.json" ->
      exists v,
        JSON_parse rt (resolvedText rt options filePath content) = Ok v).
Proof.
  intros Hread Hmarkers Hdry Hok.
  assert (Hsize : (N.of_nat (String.length content) <= MAX_FILE_SIZE)%N).
  { apply N.ltb_ge.
    destruct (MAX_FILE_SIZE <? N.of_nat (String.length content))%N eqn:E;
      [| reflexivity].
    unfold resolveFile in Hok. rewrite Hread, E in Hok. discriminate. }
  assert (Hsome : parseConflicts content <> []).
  { intros Hnone. unfold resolveFile in Hok.
    apply N.ltb_ge in Hsize.
    rewrite Hread, Hsize, Hmarkers, Hnone in Hok. discriminate. }
  rewrite (resolveFile_run rt options uuid filePath fs content Hread Hsize
             Hmarkers Hsome) in *.
  cbv zeta in *.
  destruct (validateResolvedContent rt
              (resolvedText rt options filePath content) filePath)
    as [message|] eqn:Hv; [discriminate |].
  rewrite Hdry. simpl. rewrite String.eqb_refl.
  repeat split.
  - destruct (parseConflicts content); [congruence | simpl; lia].
  - intros Hname. unfold validateResolvedContent in Hv.
    rewrite Hname in Hv. simpl String.eqb in Hv. cbv iota in Hv.
    destruct (JSON_parse rt (resolvedText rt options filePath content));
      [eauto | discriminate].
Qed.

Lemma resolveFile_success_writes_valid_text_witness :
  readFile "lingo/meta.json"
    (snd (resolveFile rt0 smart_options "id" "lingo/meta.json"
            [("lingo/meta.json", mockMetaConflict)]))
  = Some (resolvedText rt0 smart_options "lingo/meta.json" mockMetaConflict)
  /\ conflictsResolved
       (fst (resolveFile rt0 smart_options "id" "lingo/meta.json"
               [("lingo/meta.json", mockMetaConflict)])) = 1.
Proof.
  destruct (resolveFile_success_writes_valid_text rt0 smart_options "id"
              "lingo/meta.json" [("lingo/meta.json", mockMetaConflict)]
              mockMetaConflict eq_refl eq_refl eq_refl
              ltac:(vm_compute; reflexivity))
    as (Hfile & _ & Hcount & _).
  split; [exact Hfile |]. rewrite Hcount. vm_compute. reflexivity.
Defined.



(** X6. One level of [deepMerge]. When the merge of two objects completes,
    the result is an object; under a key that both sides have it holds the
    merge of the two values when the value of theirs is a plain object, and
    the answer of the callback for the two values otherwise: the callback
    is never given a plain object of theirs. *)
Theorem deepMerge_one_level
    (resolver : string -> json -> json -> result json)
    (o t : list (string * json)) (merged : json) :
  NoDup (map fst t) ->
  deepMerge (Some resolver) (Some (JObj o)) (JObj t) = Ok merged ->
  exists m,
    merged = JObj m
    /\ forall k current value,
         lookup k o = Some current -> lookup k t = Some value ->
         exists stored,
           lookup k m = Some stored
           /\ match value with
              | JObj _ =>
                  deepMerge (Some resolver) (Some current) value = Ok stored
              | _ => resolver k current value = Ok stored
              end.
Proof.
  intros Hnd Hm. rewrite deepMerge_object in Hm.
  change (spread_object (Some (JObj o))) with o in Hm.
  destruct (merge_result_object _ _ _ _ Hm) as [m ->].
  exists m. split; [reflexivity |]. intros k current value Ho Ht.
  apply lookup_In in Ht.
  destruct (merge_at _ _ _ _ _ _ Hm Hnd Ht) as (final & stored & Hf & Hl & Hs).
  inversion Hf; subst final. exists stored. split; [exact Hl |].
  unfold stored_by in Hs. rewrite Ho in Hs. exact Hs.
Qed.

Lemma deepMerge_one_level_witness :
  exists m,
    JObj [("A", theirs_scope)] = JObj m
    /\ forall k current value,
         lookup k [("A", ours_scope)] = Some current ->
         lookup k [("A", theirs_scope)] = Some value ->
         exists stored,
           lookup k m = Some stored
           /\ match value with
              | JObj _ =>
                  deepMerge (Some (metaResolver rt0)) (Some current) value
                  = Ok stored
              | _ => metaResolver rt0 k current value = Ok stored
              end.
Proof.
  apply (deepMerge_one_level (metaResolver rt0) [("A", ours_scope)]
           [("A", theirs_scope)]).
  - simpl. repeat constructor. simpl. tauto.
  - vm_compute. reflexivity.
Defined.

(** X7. A key that one side only has is kept as it is: when the merge of
    two objects completes, theirs with ordinary property names at every
    depth, a key of ours that theirs does not have keeps the value of ours,
    a key of theirs that ours does not have gets the value of theirs
    unchanged, and the keys of the result are those of ours or of theirs:
    no key is lost and none is made up. *)
Theorem deepMerge_one_sided_keys
    (resolver : string -> json -> json -> result json)
    (o t m : list (string * json)) :
  NoDup (map fst t) ->
  ordinary_keys (JObj t) = true ->
  deepMerge (Some resolver) (Some (JObj o)) (JObj t) = Ok (JObj m) ->
  (forall k, lookup k t = None -> lookup k m = lookup k o)
  /\ (forall k value,
        lookup k o = None -> lookup k t = Some value -> deep_unique value ->
        lookup k m = Some value)
  /\ (forall k,
        lookup k m = None <-> lookup k o = None /\ lookup k t = None).
Proof.
  intros Hnd _ Hm. rewrite deepMerge_object in Hm.
  change (spread_object (Some (JObj o))) with o in Hm.
  assert (Hours : forall k, lookup k t = None -> lookup k m = lookup k o).
  { intros k Hk.
    destruct (merge_other _ _ _ _ k Hm) as (final & Hf & Hl).
    - intros Hin. apply in_map_iff in Hin as ([k' v] & <- & Hin).
      simpl in Hk.
      assert (Hsome : lookup k' t <> None).
      { clear - Hin. induction t as [|[k0 v0] t IH]; [contradiction |].
        simpl. destruct (String.eqb_spec k' k0); [discriminate |].
        destruct Hin as [Heq | Hin]; [inversion Heq; congruence | auto]. }
      congruence.
    - inversion Hf; subst final. exact Hl. }
  assert (Hat : forall k value, lookup k t = Some value ->
            exists stored, lookup k m = Some stored
                           /\ stored_by resolver o k value stored).
  { intros k value Hk. apply lookup_In in Hk.
    destruct (merge_at _ _ _ _ _ _ Hm Hnd Hk) as (final & stored & Hf & Hl & Hs).
    inversion Hf; subst final. eauto. }
  split; [exact Hours |]. split.
  - intros k value Ho Ht Hu.
    destruct (Hat k value Ht) as (stored & Hl & Hs). rewrite Hl. f_equal.
    unfold stored_by in Hs. rewrite Ho in Hs.
    destruct value as [| b | z | s | l | v]; try exact Hs.
    rewrite (deepMerge_fresh (Some resolver) v None Hu eq_refl) in Hs.
    now inversion Hs.
  - intros k. destruct (lookup k t) as [value|] eqn:Ht.
    + destruct (Hat k value Ht) as (stored & Hl & _). rewrite Hl.
      split; [discriminate | intros [_ H]; discriminate].
    + rewrite (Hours k Ht). tauto.
Qed.

Lemma deepMerge_one_sided_keys_witness :
  lookup "scope-2"
    [("scope-1",
      JObj [("content",
             JObj [("en", JStr "English Updated");
                   ("es", JStr "Espanol"); ("fr", JStr "Francais")]);
            ("hash", JStr "hash2")]);
     ("scope-2",
      JObj [("content", JObj [("en", JStr "New entry")]);
            ("hash", JStr "hash3")])]
  = Some (JObj [("content", JObj [("en", JStr "New entry")]);
                ("hash", JStr "hash3")]).
Proof.
  apply (proj1 (proj2 (deepMerge_one_sided_keys dictionaryResolver
                         dictionary_ours_entries dictionary_theirs_entries
                         _ ltac:(simpl; repeat constructor; simpl;
                                 intuition discriminate)
                         ltac:(vm_compute; reflexivity)
                         ltac:(vm_compute; reflexivity)))).
  - reflexivity.
  - reflexivity.
  - simpl. repeat split; repeat constructor; simpl; intuition discriminate.
Defined.

(** X8. An empty side counts as parsed. For a runtime whose [JSON.parse]
    reads the text of two braces as the empty object, a blank ours fragment
    beside a theirs fragment that parses to an object, with ordinary
    property names at every depth, makes [smartResolveMeta] answer theirs
    as [formatJSONFragment] writes it, not the theirs fragment as it is; a
    blank theirs fragment gives ours as [formatJSONFragment] writes it; two
    blank fragments give the empty text. *)
Theorem smartResolveMeta_blank_side (rt : JsRuntime) (c : ConflictSection) :
  JSON_parse rt "{}" = Ok (JObj []) ->
  (trim (ours c) = EmptyString ->
   forall t, parseJSONFragment rt (theirs c) = JObj t ->
             deep_unique (JObj t) ->
             ordinary_keys (JObj t) = true ->
             smartResolveMeta rt c = formatJSONFragment rt (JObj t))
  /\ (trim (theirs c) = EmptyString ->
      forall o, parseJSONFragment rt (ours c) = JObj o ->
                smartResolveMeta rt c = formatJSONFragment rt (JObj o))
  /\ (trim (ours c) = EmptyString -> trim (theirs c) = EmptyString ->
      smartResolveMeta rt c = EmptyString).
Proof.
  intros Hempty.
  assert (Hblank : forall f, trim f = EmptyString ->
                             parseJSONFragment rt f = JObj []).
  { intros f Hf. unfold parseJSONFragment. rewrite Hf. simpl.
    now rewrite Hempty. }
  split; [| split].
  - intros Ho t Ht Hu _. unfold smartResolveMeta.
    rewrite (Hblank _ Ho), Ht. simpl truthy. simpl negb. simpl andb.
    cbv iota.
    now rewrite (deepMerge_fresh (Some (metaResolver rt)) t
                   (Some (JObj [])) Hu eq_refl).
  - intros Ht o Ho. unfold smartResolveMeta.
    rewrite (Hblank _ Ht), Ho. reflexivity.
  - intros Ho Ht. unfold smartResolveMeta.
    rewrite (Hblank _ Ho), (Hblank _ Ht). reflexivity.
Qed.

Lemma smartResolveMeta_blank_side_witness :
  smartResolveMeta rt0 (section_of "   " "'a': 1")
  = formatJSONFragment rt0 (JObj [("a", JNum 1)])
  /\ smartResolveMeta rt0 (section_of " " "") = EmptyString.
Proof.
  split.
  - apply (proj1 (smartResolveMeta_blank_side rt0 (section_of "   " "'a': 1")
                    eq_refl)).
    + reflexivity.
    + vm_compute. reflexivity.
    + simpl. repeat constructor. simpl. tauto.
    + reflexivity.
  - apply (proj2 (proj2 (smartResolveMeta_blank_side rt0 (section_of " " "")
                           eq_refl))); reflexivity.
Defined.

(** X9. The callback of the metadata merge, given two scopes whose contents
    are strings that are not empty, answers theirs when the content of
    theirs is strictly longer and ours otherwise, ours also when the two
    contents have the same length; the hashes are not looked at. *)
Theorem metaResolver_on_scopes (rt : JsRuntime) (key : string)
    (so st : list (string * json)) (a b : string) :
  lookup "content" so = Some (JStr a) -> a <> EmptyString ->
  lookup "content" st = Some (JStr b) -> b <> EmptyString ->
  metaResolver rt key (JObj so) (JObj st)
  = Ok (if String.length a <? String.length b then JObj st else JObj so).
Proof.
  intros Ha Hane Hb Hbne. unfold metaResolver. simpl typeof_object.
  simpl andb. cbv iota. simpl get. rewrite Ha, Hb. simpl bind.
  apply String.eqb_neq in Hane. apply String.eqb_neq in Hbne.
  simpl truthy_opt. rewrite Hane, Hbne. simpl.
  destruct (Nat.ltb_spec (String.length a) (String.length b));
    destruct (Z.ltb_spec (Z.of_nat (String.length a))
                         (Z.of_nat (String.length b)));
    try reflexivity; lia.
Qed.

Lemma metaResolver_on_scopes_witness :
  metaResolver rt0 "A" ours_scope theirs_scope = Ok ours_scope.
Proof.
  apply (metaResolver_on_scopes rt0 "A" _ _ "much longer content" "short");
    (reflexivity || discriminate).
Defined.

(** X10. The callback of the dictionary merge, given the key [content] and
    two locale maps, the locales of theirs being ordinary property names
    and the translations of ours having a text, answers a locale map in
    which a locale that only ours has keeps the translation of ours, a
    locale that only theirs has gets the translation of theirs, and a
    locale that both have as strings, that of ours not empty, gets the
    translation whose trimmed text is strictly longer, that of ours when
    neither is. *)
Theorem dictionaryResolver_on_locale_maps (o t : list (string * json)) :
  NoDup (map fst t) ->
  forallb ordinary_key (map fst t) = true ->
  (forall l v, lookup l o = Some v -> exists text, ToString v = Ok text) ->
  exists m,
    dictionaryResolver "content" (JObj o) (JObj t) = Ok (JObj m)
    /\ (forall l, lookup l t = None -> lookup l m = lookup l o)
    /\ (forall l tr,
          lookup l o = None -> lookup l t = Some tr -> lookup l m = Some tr)
    /\ (forall l a b,
          lookup l o = Some (JStr a) -> a <> EmptyString ->
          lookup l t = Some (JStr b) ->
          lookup l m
          = Some (JStr (if String.length (trim a) <? String.length (trim b)
                        then b else a))).
Proof.
  intros Hnd _ Htext.
  destruct (merge_locales_spec t o Hnd) as (m & Hm & Hother & Hone & Htwo).
  { intros l v _. apply Htext. }
  exists m. split.
  { unfold dictionaryResolver. simpl. now rewrite Hm. }
  split; [| split].
  - intros l Hl. apply Hother. intros Hin.
    apply in_map_iff in Hin as ([k v] & <- & Hin).
    apply lookup_in_some in Hin as [v' Hv']. simpl in Hl. congruence.
  - intros l tr Ho Ht. apply lookup_In in Ht. now apply Hone.
  - intros l a b Ho Hne Ht. apply lookup_In in Ht. now apply Htwo.
Qed.

Lemma dictionaryResolver_on_locale_maps_witness :
  exists m,
    dictionaryResolver "content" ours_locales theirs_locales = Ok (JObj m)
    /\ lookup "en" m = Some (JStr "Hello there").
Proof.
  destruct (dictionaryResolver_on_locale_maps
              [("en", JStr "Hello there"); ("es", JStr "Hola")]
              [("en", JStr "Hi"); ("es", JStr EmptyString)])
    as (m & Hm & _ & _ & Hboth).
  - simpl. repeat constructor; simpl; intuition discriminate.
  - reflexivity.
  - intros l v Hl. simpl in Hl.
    destruct (String.eqb l "en"); [inversion Hl; simpl; eauto |].
    destruct (String.eqb l "es"); [inversion Hl; simpl; eauto |].
    discriminate.
  - exists m. split; [exact Hm |].
    apply (Hboth "en" "Hello there" "Hi"); (reflexivity || discriminate).
Defined.

(** X11. What the four marker grammars accept. A line is a start marker
    exactly when it is seven [<], one space and a label of at least one
    character, none of them a line terminator; a base marker and an end
    marker are the same with [|] and [>]; the middle marker is the line of
    seven [=] and nothing else. *)
Theorem marker_grammar (l : string) :
  (test CONFLICT_START l = true <-> labelled_marker "<" l)
  /\ (test CONFLICT_MIDDLE l = true <-> l = "=======")
  /\ (test CONFLICT_BASE l = true <-> labelled_marker "|" l)
  /\ (test CONFLICT_END l = true <-> labelled_marker ">" l).
Proof.
  split; [apply start_marker_iff |].
  split; [apply middle_marker_iff |].
  split; [apply base_marker_iff | apply end_marker_iff].
Qed.

(** X12. What a section holds. A section [parseConflicts] returns has a
    first middle marker line strictly between its start and its end;
    [theirs] is the text of the lines between that line and the end
    marker. Without a base marker line in the section, [ours] is the text
    of the lines between the start marker and the middle marker and there
    is no base. With one, [ours] stops at the first base marker line and
    the base is the text between that line and the middle marker, which is
    the empty text when the base marker comes after the middle marker. *)
Theorem parseConflicts_section_contents (content : string)
    (c : ConflictSection) :
  In c (parseConflicts content) ->
  exists m,
    startLine c < m /\ m < endLine c
    /\ endLine c < List.length (split_lines content)
    /\ nth m (split_lines content) EmptyString = "======="
    /\ Forall (fun l => l <> "=======")
              (slice (split_lines content) (startLine c + 1) m)
    /\ theirs c = text_of_lines (split_lines content) (m + 1) (endLine c)
    /\ match base c with
       | None =>
           ours c = text_of_lines (split_lines content) (startLine c + 1) m
           /\ Forall (not_marker CONFLICT_BASE)
                     (slice (split_lines content) (startLine c + 1)
                            (endLine c))
       | Some text =>
           exists b,
             startLine c < b /\ b < endLine c
             /\ test CONFLICT_BASE (nth b (split_lines content) EmptyString)
                = true
             /\ Forall (not_marker CONFLICT_BASE)
                       (slice (split_lines content) (startLine c + 1) b)
             /\ ours c
                = text_of_lines (split_lines content) (startLine c + 1) b
             /\ text = text_of_lines (split_lines content) (b + 1) m
             /\ (m < b -> text = EmptyString)
       end.
Proof.
  intros Hin.
  destruct (sections_from_in _ _ _ _
              (parseLines_sections (split_lines content)) Hin)
    as (Hc & _ & _).
  exact (parseConflictSection_layout _ _ _ Hc).
Qed.

Lemma parseConflicts_section_contents_witness :
  exists m,
    0 < m /\ m < 6
    /\ 6 < List.length (split_lines diff3_doc)
    /\ nth m (split_lines diff3_doc) EmptyString = "======="
    /\ Forall (fun l => l <> "=======") (slice (split_lines diff3_doc) 1 m)
    /\ "theirs" = text_of_lines (split_lines diff3_doc) (m + 1) 6
    /\ exists b,
         0 < b /\ b < 6
         /\ test CONFLICT_BASE (nth b (split_lines diff3_doc) EmptyString)
            = true
         /\ Forall (not_marker CONFLICT_BASE)
                   (slice (split_lines diff3_doc) 1 b)
         /\ "ours" = text_of_lines (split_lines diff3_doc) 1 b
         /\ "orig" = text_of_lines (split_lines diff3_doc) (b + 1) m
         /\ (m < b -> "orig" = EmptyString).
Proof.
  apply (parseConflicts_section_contents diff3_doc
           {| ours := "ours"; theirs := "theirs"; base := Some "orig";
              startLine := 0; endLine := 6 |}).
  vm_compute. left. reflexivity.
Defined.

(** X13. Splitting a text into lines and joining the lines with LF gives
    the text with every CR LF pair turned into LF. So [resolveConflicts]
    returns a text without sections with its CR LF pairs turned into LF,
    and unchanged when it has no CR LF pair. *)
Theorem resolveConflicts_without_sections (content : string)
    (resolver : ConflictSection -> string) :
  parseConflicts content = [] ->
  join (str1 LF) (split_lines content) = crlf_to_lf content
  /\ resolveConflicts content resolver = crlf_to_lf content
  /\ (includes (String CR (str1 LF)) content = false ->
      resolveConflicts content resolver = content).
Proof.
  intros Hnone.
  assert (Hjoin : join (str1 LF) (split_lines content) = crlf_to_lf content)
    by apply (join_split_lines_aux content EmptyString).
  assert (Hres : resolveConflicts content resolver = crlf_to_lf content).
  { unfold resolveConflicts. rewrite Hnone. exact Hjoin. }
  split; [exact Hjoin |]. split; [exact Hres |].
  intros Hfree. rewrite Hres. now apply crlf_to_lf_fixed.
Qed.

Lemma resolveConflicts_without_sections_witness :
  resolveConflicts crlf_doc (fun c => ours c) = crlf_to_lf crlf_doc
  /\ resolveConflicts unclosed_doc (fun c => ours c) = unclosed_doc.
Proof.
  split.
  - apply (proj1 (proj2 (resolveConflicts_without_sections crlf_doc
                           (fun c => ours c) eq_refl))).
  - apply (proj2 (proj2 (resolveConflicts_without_sections unclosed_doc
                           (fun c => ours c) eq_refl))).
    reflexivity.
Defined.

(** X14. [parseConflicts] never returns more sections than the text has
    start marker lines, middle marker lines or end marker lines: a text
    without a line of one of the three kinds has no section. *)
Theorem parseConflicts_count_bound (content : string) :
  List.length (parseConflicts content)
  <= count_lines CONFLICT_START (split_lines content)
  /\ List.length (parseConflicts content)
     <= count_lines CONFLICT_MIDDLE (split_lines content)
  /\ List.length (parseConflicts content)
     <= count_lines CONFLICT_END (split_lines content).
Proof.
  unfold parseConflicts.
  pose proof (parseLines_sections (split_lines content)) as H.
  split; [| split].
  - apply (sections_count CONFLICT_START _ (section_has_start _) 0 _ H).
  - apply (sections_count CONFLICT_MIDDLE _) with (i := 0); [| exact H].
    intros c (_ & _ & _ & _ & _ & Hm). exact Hm.
  - apply (sections_count CONFLICT_END _) with (i := 0); [| exact H].
    intros c (_ & _ & _ & _ & He & _). lia.
Qed.



(** X16. With [--dry-run], the command leaves the disk as it found it,
    whatever [glob] finds and whatever the files hold. *)
Theorem action_dry_run_keeps_disk (rt : JsRuntime)
    (glob : string -> FileSystem -> result (list string))
    (randomUUID : nat -> string)
    (options : MergeResolve.MergeResolveOptions) (fs : FileSystem) :
  MergeResolve.flag (MergeResolve.dryRun options) = true ->
  snd (MergeResolve.action rt glob randomUUID options fs) = fs.
Proof.
  intros Hdry. unfold MergeResolve.action.
  destruct (MergeResolve.findConflictedFiles glob _ fs)
    as [conflictedFiles | message]; [| reflexivity].
  destruct (List.length conflictedFiles =? 0); [reflexivity |].
  simpl snd. rewrite resolveAll_dry; [reflexivity | exact Hdry].
Qed.

Lemma action_dry_run_keeps_disk_witness :
  snd (MergeResolve.action rt0
         (fun pattern fs => Ok ["lingo/meta.json"]) (fun k => "id")
         {| MergeResolve.dryRun := Some true;
            MergeResolve.files := Some "lingo/meta.json";
            MergeResolve.strategy := None;
            MergeResolve.verbose := None;
            MergeResolve.backup := Some true |}
         [("lingo/meta.json", mockMetaConflict)])
  = [("lingo/meta.json", mockMetaConflict)].
Proof.
  apply (action_dry_run_keeps_disk rt0). reflexivity.
Defined.

(** X17. The command leaves alone every path that does not read as a text
    with conflict markers when the command starts, a path without a file
    included, unless the path is that of the backup copy of a file that
    does: it reads after the command as it read before. *)
Theorem action_keeps_files_without_markers (rt : JsRuntime)
    (glob : string -> FileSystem -> result (list string))
    (randomUUID : nat -> string)
    (options : MergeResolve.MergeResolveOptions) (fs : FileSystem)
    (other : string) :
  MergeResolve.readsWithMarkers fs other = false ->
  (forall f k, MergeResolve.readsWithMarkers fs f = true ->
               other <> backupPath f (randomUUID k)) ->
  readFile other (snd (MergeResolve.action rt glob randomUUID options fs))
  = readFile other fs.
Proof.
  intros Hclean Hbackup. unfold MergeResolve.action.
  destruct (MergeResolve.findConflictedFiles glob _ fs)
    as [conflictedFiles | message] eqn:Hfind; [| reflexivity].
  destruct (List.length conflictedFiles =? 0); [reflexivity |].
  simpl snd.
  apply findConflictedFiles_filter in Hfind as [allFiles ->].
  rewrite resolveAll_frame; [reflexivity | |].
  - intros f j Hf. apply filter_In in Hf as [_ Hf]. now apply Hbackup.
  - now apply filter_readsWithMarkers.
Qed.

Lemma action_keeps_files_without_markers_witness :
  readFile "lingo/dictionary.js"
    (snd (MergeResolve.action rt0
            (fun pattern fs => Ok ["lingo/meta.json"; "lingo/dictionary.js"])
            (fun k => "id")
            {| MergeResolve.dryRun := None;
               MergeResolve.files := None;
               MergeResolve.strategy := None;
               MergeResolve.verbose := None;
               MergeResolve.backup := Some true |}
            [("lingo/meta.json", mockMetaConflict);
             ("lingo/dictionary.js", "export default {};")]))
  = Some "export default {};".
Proof.
  rewrite (action_keeps_files_without_markers rt0).
  - reflexivity.
  - reflexivity.
  - intros f k Hf. unfold MergeResolve.readsWithMarkers in Hf.
    cbn [readFile] in Hf.
    destruct (String.eqb_spec f "lingo/meta.json") as [-> | _];
      [discriminate |].
    destruct (String.eqb_spec f "lingo/dictionary.js") as [-> | _];
      discriminate.
Defined.

(** X18. The loop of the command counts every conflicted file once, as
    resolved or as failed; and a dry run counts as the real run does: over
    the same files, none of them listed twice and none of them the backup
    copy of another, the two runs end with the same count of resolved
    files and the same count of failed files. *)
Theorem resolveAll_dry_run_predicts (rt : JsRuntime)
    (randomUUID randomUUID' : nat -> string)
    (options : MergeResolve.MergeResolveOptions)
    (conflictedFiles : list string)
    (found found' : list MergeResolve.Output) (fs : FileSystem) :
  NoDup conflictedFiles ->
  (forall f g k, In f conflictedFiles -> In g conflictedFiles ->
                 g <> backupPath f (randomUUID k)) ->
  let real :=
    MergeResolve.resolveAll rt randomUUID options
      (MergeResolve.resolverOptions options) 0 conflictedFiles
      (starting found fs) in
  let dry :=
    MergeResolve.resolveAll rt randomUUID' (with_dry_run options)
      (MergeResolve.resolverOptions (with_dry_run options)) 0
      conflictedFiles (starting found' fs) in
  MergeResolve.resolvedCount dry = MergeResolve.resolvedCount real
  /\ MergeResolve.failedCount dry = MergeResolve.failedCount real
  /\ MergeResolve.resolvedCount real + MergeResolve.failedCount real
     = List.length conflictedFiles.
Proof.
  intros Hnd Hbackup real dry.
  destruct (resolveAll_same_counts rt randomUUID randomUUID' options
              (with_dry_run options) (MergeResolve.resolverOptions options)
              (MergeResolve.resolverOptions (with_dry_run options))
              eq_refl eq_refl eq_refl conflictedFiles 0
              (starting found fs) (starting found' fs) Hnd Hbackup
              (fun g _ => eq_refl) eq_refl eq_refl) as [Hr Hf].
  split; [symmetry; exact Hr |]. split; [symmetry; exact Hf |].
  subst real. rewrite resolveAll_total. reflexivity.
Qed.

Lemma resolveAll_dry_run_predicts_witness :
  MergeResolve.resolvedCount
    (MergeResolve.resolveAll rt0 (fun k => "dry")
       (with_dry_run backup_command)
       (MergeResolve.resolverOptions (with_dry_run backup_command))
       0 two_files (starting [] two_files_disk))
  = MergeResolve.resolvedCount
      (MergeResolve.resolveAll rt0 (fun k => "id") backup_command
         (MergeResolve.resolverOptions backup_command)
         0 two_files (starting [] two_files_disk)).
Proof.
  assert (Hnd : NoDup two_files).
  { unfold two_files. repeat constructor; simpl; intuition discriminate. }
  assert (Hbackup : forall f g (k : nat),
            In f two_files -> In g two_files -> g <> backupPath f "id").
  { intros f g k Hf Hg H. apply (f_equal String.length) in H.
    unfold backupPath in H. rewrite !length_append in H.
    unfold two_files in Hf, Hg. simpl in Hf, Hg.
    destruct Hf as [<- | [<- | []]]; destruct Hg as [<- | [<- | []]];
      simpl in H; lia. }
  exact (proj1 (resolveAll_dry_run_predicts rt0 (fun k => "id")
                  (fun k => "dry") backup_command two_files [] []
                  two_files_disk Hnd Hbackup)).
Defined.

(** X19. The resolution leaves no section behind. For a text without CR,
    when the resolution of every section has no CR and no start marker
    line, [parseConflicts] finds no section in the text [resolveConflicts]
    returns, and resolving that text again, with any resolver, returns it
    unchanged. *)
Theorem resolveConflicts_leaves_no_section (content : string)
    (resolver : ConflictSection -> string) :
  no_cr content ->
  (forall c, In c (parseConflicts content) ->
             no_cr (resolver c)
             /\ Forall (not_marker CONFLICT_START)
                       (split_lines (resolver c))) ->
  parseConflicts (resolveConflicts content resolver) = []
  /\ forall resolver',
       resolveConflicts (resolveConflicts content resolver) resolver'
       = resolveConflicts content resolver.
Proof. apply resolved_text_no_section. Qed.

Lemma resolveConflicts_leaves_no_section_witness :
  parseConflicts (resolveConflicts diff3_doc (fun c => theirs c)) = [].
Proof.
  apply (resolveConflicts_leaves_no_section diff3_doc (fun c => theirs c)).
  - reflexivity.
  - intros c Hc.
    assert (E : parseConflicts diff3_doc
                = [{| ours := "ours"; theirs := "theirs";
                      base := Some "orig"; startLine := 0; endLine := 6 |}])
      by reflexivity.
    rewrite E in Hc. destruct Hc as [<- | []]. split.
    + reflexivity.
    + vm_compute. repeat constructor.
Defined.

(** X20. The detector of the current revision, which looks at whole lines
    and counts them, is stricter than the detector of the revision that
    looks for the three markers anywhere in the text: every text it
    accepts, the other accepts too. *)
Theorem line_markers_are_substring_markers (content : string) :
  ConflictParser.hasConflictMarkers content = true ->
  ConflictParserBySubstring.hasConflictMarkers content = true.
Proof.
  unfold ConflictParser.hasConflictMarkers. rewrite markers_fold. simpl.
  intros H. apply andb_prop in H as [H _].
  apply andb_prop in H as [H He]. apply andb_prop in H as [Hs Hm].
  apply Nat.ltb_lt in Hs. apply Nat.ltb_lt in Hm. apply Nat.ltb_lt in He.
  apply count_lines_some in Hs as (ls & Hls & Hs).
  apply count_lines_some in Hm as (lm & Hlm & Hm).
  apply count_lines_some in He as (le & Hle & He).
  apply start_marker_iff, labelled_marker_includes in Hs.
  apply end_marker_iff, labelled_marker_includes in He.
  apply middle_marker_iff in Hm. subst lm.
  unfold ConflictParserBySubstring.hasConflictMarkers.
  change (run "<" 7) with "<<<<<<<" in Hs.
  change (run ">" 7) with ">>>>>>>" in He.
  rewrite (includes_line _ _ _ Hls Hs), (includes_line _ _ _ Hle He).
  rewrite (includes_line "=======" _ _ Hlm eq_refl). reflexivity.
Qed.

Lemma line_markers_are_substring_markers_witness :
  ConflictParserBySubstring.hasConflictMarkers diff3_doc = true.
Proof.
  apply (line_markers_are_substring_markers diff3_doc). reflexivity.
Defined.

(** X21. A second run changes nothing. After a run of [resolveFile] that
    succeeds with [dryRun] not set, on a text without CR whose sections
    are resolved to texts without CR and without start marker lines, a
    second run on the same file finds no section: it resolves no conflict
    and leaves the disk as the first run left it. *)
Theorem resolveFile_second_run_changes_nothing (rt : JsRuntime)
    (options : ResolverOptions) (uuid uuid' filePath : string)
    (fs : FileSystem) (content : string) :
  readFile filePath fs = Some content ->
  no_cr content ->
  (forall c, In c (parseConflicts content) ->
             no_cr (resolveConflict rt options c filePath)
             /\ Forall (not_marker CONFLICT_START)
                       (split_lines (resolveConflict rt options c filePath))) ->
  dryRun options = false ->
  success (fst (resolveFile rt options uuid filePath fs)) = true ->
  snd (resolveFile rt options uuid' filePath
         (snd (resolveFile rt options uuid filePath fs)))
  = snd (resolveFile rt options uuid filePath fs)
  /\ conflictsResolved
       (fst (resolveFile rt options uuid' filePath
               (snd (resolveFile rt options uuid filePath fs)))) = 0.
Proof.
  intros Hread Hcr Hres Hdry Hok.
  destruct (parseConflicts content) as [|c0 cs0] eqn:Hsections.
  { destruct (resolveFile_no_section rt options uuid filePath fs content
                Hread Hsections) as [Hfs _].
    rewrite Hfs.
    exact (resolveFile_no_section rt options uuid' filePath fs content
             Hread Hsections). }
  assert (Hsize : (N.of_nat (String.length content) <= MAX_FILE_SIZE)%N).
  { apply N.ltb_ge.
    destruct (MAX_FILE_SIZE <? N.of_nat (String.length content))%N eqn:E;
      [| reflexivity].
    unfold resolveFile in Hok. rewrite Hread, E in Hok. discriminate. }
  destruct (hasConflictMarkers content) eqn:Hmarkers.
  - assert (Hsome : parseConflicts content <> []) by congruence.
    rewrite <- Hsections in Hres.
    pose proof (proj1 (resolved_text_no_section content
                         (fun conflict =>
                            resolveConflict rt options conflict filePath)
                         Hcr Hres)) as Hnone.
    fold (resolvedText rt options filePath content) in Hnone.
    rewrite (resolveFile_run rt options uuid filePath fs content Hread Hsize
               Hmarkers Hsome) in *.
    cbv zeta in *.
    destruct (validateResolvedContent rt
                (resolvedText rt options filePath content) filePath);
      [discriminate |].
    simpl snd. rewrite Hdry. simpl negb. cbv iota.
    apply resolveFile_no_section
      with (content := resolvedText rt options filePath content);
      [| exact Hnone].
    unfold writeFile at 1. cbn [readFile]. now rewrite String.eqb_refl.
  - assert (Hrun : resolveFile rt options uuid filePath fs
                   = ({| success := true; conflictsResolved := 0;
                         error := None;
                         details := Some "No conflicts found" |}, fs)).
    { unfold resolveFile. apply N.ltb_ge in Hsize.
      now rewrite Hread, Hsize, Hmarkers. }
    rewrite Hrun. simpl snd.
    assert (Hrun' : resolveFile rt options uuid' filePath fs
                    = ({| success := true; conflictsResolved := 0;
                          error := None;
                          details := Some "No conflicts found" |}, fs)).
    { unfold resolveFile. apply N.ltb_ge in Hsize.
      now rewrite Hread, Hsize, Hmarkers. }
    rewrite Hrun'. split; reflexivity.
Qed.

Lemma resolveFile_second_run_changes_nothing_witness :
  snd (resolveFile rt0 backup_options "again" "notes.txt"
         (snd (resolveFile rt0 backup_options "id" "notes.txt"
                 [("notes.txt", diff3_doc)])))
  = snd (resolveFile rt0 backup_options "id" "notes.txt"
           [("notes.txt", diff3_doc)]).
Proof.
  apply (resolveFile_second_run_changes_nothing rt0 backup_options "id"
           "again" "notes.txt" [("notes.txt", diff3_doc)] diff3_doc).
  - reflexivity.
  - reflexivity.
  - intros c Hc.
    assert (E : parseConflicts diff3_doc
                = [{| ours := "ours"; theirs := "theirs";
                      base := Some "orig"; startLine := 0; endLine := 6 |}])
      by reflexivity.
    rewrite E in Hc. destruct Hc as [<- | []]. split.
    + reflexivity.
    + vm_compute. repeat constructor.
  - reflexivity.
  - reflexivity.
Defined.
